(** * Downloading-Attachments: mail poller and invoice classifier

    A shallow embedding of the core of [main.py]:
    - [EmailAttachmentDownloader.sanitize_filename], [save_processed_uid]
      and [check_emails] (the mail poller with its exponential backoff);
    - [load_companies_from_json], [get_target_date] and [process_files]
      (the invoice classifier).

    Python [str] values are modelled as lists of characters whose code
    points are below 256 ([list ascii]); Python [int] values as [Z] or [N];
    dictionaries and sets as [gmap] and [gset]. *)

From Equations Require Import Equations.
From Stdlib Require Import ZArith Lia Ascii String List.
From stdpp Require Import base gmap sets list strings pretty.

Local Open Scope Z_scope.

Abbreviation str := (list ascii).

(** A string literal as a Python [str]. *)
Definition py (s : string) : str := list_ascii_of_string s.

(** Closes an equation between closed terms by evaluating both sides. *)
Ltac by_evaluation :=
  lazymatch goal with |- ?l = ?r => exact (@eq_refl _ r <: l = r) end.

(* ===================================================================== *)
(** * Characters and the string builtins the program calls *)
(* ===================================================================== *)

Module PyStr.

Definition code (c : ascii) : N := N_of_ascii c.
Definition chr (n : N) : ascii := ascii_of_N n.

Definition between (lo hi : N) (c : ascii) : bool :=
  ((lo <=? code c) && (code c <=? hi))%N.

Definition is_code (n : N) (c : ascii) : bool := (code c =? n)%N.

(** [str.isspace] on one character (what [str.strip()] removes). *)
Definition is_space (c : ascii) : bool :=
  between 9 13 c || between 28 32 c || is_code 133 c || is_code 160 c.

(** [\d] of the [re] module on [str] patterns. *)
Definition is_digit (c : ascii) : bool := between 48 57 c.

Definition is_upper (c : ascii) : bool := between 65 90 c.
Definition is_lower (c : ascii) : bool := between 97 122 c.
Definition is_ascii_alnum (c : ascii) : bool :=
  is_lower c || is_upper c || is_digit c.

(** [\w] of the [re] module on [str] patterns: alphanumeric or [_]. *)
Definition is_word (c : ascii) : bool :=
  is_ascii_alnum c || is_code 95 c
  || is_code 170 c || between 178 179 c || is_code 181 c
  || between 185 186 c || between 188 190 c
  || between 192 214 c || between 216 246 c || between 248 255 c.

(** [str.lower] on one character. *)
Definition lower_char (c : ascii) : ascii :=
  if is_upper c || between 192 214 c || between 216 222 c
  then chr (code c + 32) else c.

Definition lower (s : str) : str := lower_char <$> s.

(** [str.lstrip()], [str.rstrip()] and [str.strip()]. *)
Fixpoint lstrip (s : str) : str :=
  match s with
  | c :: s' => if is_space c then lstrip s' else s
  | [] => []
  end.

Fixpoint rstrip (s : str) : str :=
  match s with
  | c :: s' =>
      match rstrip s' with
      | [] => if is_space c then [] else [c]
      | r => c :: r
      end
  | [] => []
  end.

Definition strip (s : str) : str := rstrip (lstrip s).

(** A run of whitespace. *)
Definition all_space (s : str) : Prop := Forall (fun c => is_space c = true) s.

(** The first and last characters of [s], if any, are not whitespace. *)
Definition trimmed (s : str) : Prop :=
  (∀ c, head s = Some c → is_space c = false)
  ∧ (∀ c, last s = Some c → is_space c = false).

(** [int(s)] on a run of decimal digits, most significant first. *)
Definition digit_val (c : ascii) : N := (code c - 48)%N.

Definition int_of_digits (ds : str) : N :=
  fold_left (fun acc c => (10 * acc + digit_val c)%N) ds 0%N.

(** [str(n)] for a non-negative integer. *)
Definition str_of_N (n : N) : str := py (pretty n).

(** [str(z)] for an integer. *)
Definition str_of_Z (z : Z) : str := py (pretty z).

(** [os.path.splitext] on a name without directory separators: the
    extension starts at the last dot, unless that dot belongs to the
    leading run of dots. *)
Fixpoint span_dots (s : str) : str * str :=
  match s with
  | c :: s' =>
      if is_code 46 c
      then let '(d, r) := span_dots s' in (c :: d, r)
      else ([], s)
  | [] => ([], [])
  end.

(** Splits at the last dot: [None] when there is no dot. *)
Fixpoint rsplit_dot (s : str) : option (str * str) :=
  match s with
  | c :: s' =>
      match rsplit_dot s' with
      | Some (a, e) => Some (c :: a, e)
      | None => if is_code 46 c then Some ([], c :: s') else None
      end
  | [] => None
  end.

Definition splitext (p : str) : str * str :=
  let '(dots, r) := span_dots p in
  match rsplit_dot r with
  | Some (a, e) => (dots ++ a, e)
  | None => (p, [])
  end.

End PyStr.

(* ===================================================================== *)
(** * [sanitize_filename] *)
(* ===================================================================== *)

Module Sanitize.
Import PyStr.

(** The nine characters of the class [invalid_chars], by code point:
    less-than, greater-than, colon, double quote, slash, backslash,
    vertical bar, question mark, asterisk. *)
Definition invalid_codes : list N := [60; 62; 58; 34; 47; 92; 124; 63; 42]%N.

Definition invalid_chars (c : ascii) : bool :=
  existsb (fun n => is_code n c) invalid_codes.

(** [re.sub(invalid_chars, '_', filename)]. *)
Definition re_sub_invalid (filename : str) : str :=
  (fun c => if invalid_chars c then chr 95 else c) <$> filename.

Definition sanitize_filename (filename : str) : str :=
  strip (re_sub_invalid filename).

End Sanitize.

(* ===================================================================== *)
(** * Exceptions *)
(* ===================================================================== *)

(** The exception classes the modelled code can meet. *)
Inductive exn : Type :=
  | ValueError
  | OverflowError
  | OSError
  | MailError.

(** The outcome of a call that may raise. *)
Inductive outcome (A : Type) : Type :=
  | Returns (a : A)
  | Raises (e : exn).
Arguments Returns {A} a.
Arguments Raises {A} e.

(* ===================================================================== *)
(** * [datetime.date] and [get_target_date] *)
(* ===================================================================== *)

Module Calendar.

Record date : Type := mk_date { year : Z; month : Z; day : Z }.

Definition MINYEAR : Z := 1.
Definition MAXYEAR : Z := 9999.

Definition is_leap (y : Z) : bool :=
  (y mod 4 =? 0) && (negb (y mod 100 =? 0) || (y mod 400 =? 0)).

Definition days_in_month (y m : Z) : Z :=
  if m =? 2 then (if is_leap y then 29 else 28)
  else if (m =? 4) || (m =? 6) || (m =? 9) || (m =? 11) then 30
  else 31.

(** The three arguments of [date(...)] are converted to C [int] first. *)
Definition fits_int (z : Z) : bool := (- 2 ^ 31 <=? z) && (z <? 2 ^ 31).

Definition valid_ymd (y m d : Z) : bool :=
  (MINYEAR <=? y) && (y <=? MAXYEAR)
  && (1 <=? m) && (m <=? 12)
  && (1 <=? d) && (d <=? days_in_month y m).

(** The constructor [date(year, month, day)]. *)
Definition date_new (y m d : Z) : outcome date :=
  if negb (fits_int y && fits_int m && fits_int d) then Raises OverflowError
  else if valid_ymd y m d then Returns (mk_date y m d)
  else Raises ValueError.

Definition date_valid (t : date) : Prop :=
  valid_ymd (year t) (month t) (day t) = true.

(** The number of the month of [d], counted from January of year 0. *)
Definition month_index (d : date) : Z := 12 * year d + (month d - 1).

(** [while month > 12: month -= 12; year += 1] *)
Equations? roll_forward (ym : Z * Z) : Z * Z by wf (Z.to_nat (snd ym)) lt :=
  roll_forward (y, m) with decide (12 < m) := {
    | left _ => roll_forward (y + 1, m - 12)
    | right _ => (y, m) }.
Proof. simpl. lia. Qed.

(** [while month < 1: month += 12; year -= 1] *)
Equations? roll_backward (ym : Z * Z) : Z * Z by wf (Z.to_nat (1 - snd ym)) lt :=
  roll_backward (y, m) with decide (m < 1) := {
    | left _ => roll_backward (y - 1, m + 12)
    | right _ => (y, m) }.
Proof. simpl. lia. Qed.

(** [get_target_date(month_offset, day_offset)], with [date.today()]
    as the argument [today]. *)
Definition get_target_date (today : date) (month_offset day_offset : Z)
  : outcome date :=
  let year0 := year today in
  let month0 := month today + month_offset in
  let day_ := day today + day_offset in
  let '(year1, month1) := roll_backward (roll_forward (year0, month0)) in
  match date_new year1 month1 day_ with
  | Returns d => Returns d
  | Raises ValueError => date_new year1 month1 1
  | Raises e => Raises e
  end.

(** [strftime('%B')] in the C locale. *)
Definition month_name (m : Z) : str :=
  py (nth (Z.to_nat (m - 1))
        ["January"; "February"; "March"; "April"; "May"; "June"; "July";
         "August"; "September"; "October"; "November"; "December"]%string
        EmptyString).

End Calendar.

(* ===================================================================== *)
(** * The rule table: [load_companies_from_json] *)
(* ===================================================================== *)

Module Rules.
Import PyStr.

(** One object of the list in [invoices_config.json]. [None] is a key
    that is absent (for the two names also a JSON [null]). *)
Record item : Type := mk_item {
  sender_email : option str;
  folder_name : option str;
  file_name : option str;
  month_offset : option Z;
  day_offset : option Z }.

(** The value stored per sender in [companies]. *)
Record rules : Type := mk_rules {
  r_name : str;
  r_folder_name : str;
  r_month_offset : Z;
  r_day_offset : Z;
  r_use_subfolder : bool;
  r_numbered_files : bool }.

(** [x or default] on an optional string. *)
Definition or_default (x : option str) (default : str) : str :=
  match x with
  | Some (c :: s) => c :: s
  | _ => default
  end.

(** [bool(s)] on a string. *)
Definition truthy (s : str) : bool :=
  match s with [] => false | _ => true end.

Definition rules_of_item (it : item) : rules :=
  let folder := or_default (folder_name it) [] in
  {| r_name := or_default (file_name it) (py "NoName");
     r_folder_name := folder;
     r_month_offset := default 0 (month_offset it);
     r_day_offset := default 0 (day_offset it);
     r_use_subfolder := truthy folder;
     r_numbered_files := true |}.

Definition sender_key (it : item) : str :=
  lower (default [] (sender_email it)).

(** The loop [for item in data: ... result[sender] = {...}]. *)
Definition load_items (data : list item) : gmap str rules :=
  fold_left (fun result it => <[sender_key it := rules_of_item it]> result)
            data ∅.

(** [load_companies_from_json()]; the argument is the parsed content of
    the rule file, [None] when the file is absent or cannot be parsed. *)
Definition load_companies_from_json (file : option (list item))
  : gmap str rules :=
  match file with
  | None => ∅
  | Some data => load_items data
  end.

End Rules.

(* ===================================================================== *)
(** * The two regular expressions of the classifier *)
(* ===================================================================== *)

Module Patterns.
Import PyStr.

(** The longest prefix of [s] whose characters satisfy [p], and the rest:
    what a greedy [[...]+] consumes when the character after it is
    outside the class. *)
Fixpoint span (p : ascii -> bool) (s : str) : str * str :=
  match s with
  | c :: s' =>
      if p c then let '(a, r) := span p s' in (c :: a, r) else ([], s)
  | [] => ([], [])
  end.

(** [[a-zA-Z0-9_.+-]] *)
Definition local_char (c : ascii) : bool :=
  is_ascii_alnum c || is_code 95 c || is_code 46 c || is_code 43 c
  || is_code 45 c.

(** [[a-zA-Z0-9-]] *)
Definition domain_char (c : ascii) : bool :=
  is_ascii_alnum c || is_code 45 c.

(** [[a-zA-Z0-9-.]] *)
Definition suffix_char (c : ascii) : bool :=
  is_ascii_alnum c || is_code 45 c || is_code 46 c.

(** [re.match(email_pattern, filename)], returning [group(1)]. Each
    class is followed by a character outside it, so the greedy runs
    are the only candidates. *)
Definition match_email (filename : str) : option str :=
  let '(loc, r1) := span local_char filename in
  match loc, r1 with
  | _ :: _, c1 :: r2 =>
      if is_code 64 c1 then
        let '(dom, r3) := span domain_char r2 in
        match dom, r3 with
        | _ :: _, c2 :: r4 =>
            if is_code 46 c2 then
              let '(suf, r5) := span suffix_char r4 in
              match suf, r5 with
              | _ :: _, c3 :: _ =>
                  if is_code 95 c3
                  then Some (loc ++ c1 :: dom ++ c2 :: suf)
                  else None
              | _, _ => None
              end
            else None
        | _, _ => None
        end
      else None
  | _, _ => None
  end.

(** Matching a literal at the start of [s]; the rest on success. *)
Fixpoint strip_prefix (lit s : str) : option str :=
  match lit, s with
  | [], _ => Some s
  | a :: lit', b :: s' => if decide (a = b) then strip_prefix lit' s' else None
  | _ :: _, [] => None
  end.

(** [\b] after a digit: the end of the string or a non-word character. *)
Definition boundary_after_word (rest : str) : bool :=
  match rest with
  | [] => true
  | c :: _ => negb (is_word c)
  end.

(** The pattern [^<escaped company_name>-(\d+)\b] applied with
    [pattern.match(f)], returning [int(m.group(1))]. A shorter digit run
    is followed by a digit, so only the longest one can end at [\b]. *)
Definition match_seq (company_name f : str) : option N :=
  match strip_prefix (company_name ++ [chr 45]) f with
  | Some r =>
      let '(ds, rest) := span is_digit r in
      match ds with
      | [] => None
      | _ :: _ =>
          if boundary_after_word rest then Some (int_of_digits ds) else None
      end
  | None => None
  end.

(** [max(numbers, default=0)] *)
Definition max_default0 (numbers : list N) : N :=
  match numbers with
  | [] => 0%N
  | n :: ns => fold_left N.max ns n
  end.

(** The loop collecting [numbers] over [existing_files], then
    [next_number = max(numbers, default=0) + 1]. *)
Definition next_number (company_name : str) (existing_files : list str) : N :=
  let numbers := omap (match_seq company_name) existing_files in
  (max_default0 numbers + 1)%N.

(** ** The patterns, said in words *)

(** [f] is [<company_name>-<digits>] followed by nothing or by a
    character that cannot continue a word, and [d] is the number the
    digits spell. *)
Definition numbered_name (company_name f : str) (d : N) : Prop :=
  ∃ ds rest,
    f = company_name ++ [chr 45] ++ ds ++ rest
    ∧ ds ≠ []
    ∧ Forall (fun c => is_digit c = true) ds
    ∧ boundary_after_word rest = true
    ∧ d = int_of_digits ds.

(** [n] is one more than the largest number of a numbered name among
    [existing_files], and 1 when there is none. *)
Definition one_past_the_largest (company_name : str)
    (existing_files : list str) (n : N) : Prop :=
  (∀ f d, f ∈ existing_files → numbered_name company_name f d → (d < n)%N)
  ∧ ((n = 1%N ∧ ∀ f d, f ∈ existing_files → ¬ numbered_name company_name f d)
     ∨ (∃ f d, f ∈ existing_files ∧ numbered_name company_name f d
               ∧ n = (d + 1)%N)).

(** [filename] starts with [local@domain.suffix_], the three parts
    non-empty and drawn from their character classes; [g] is the
    address without the underscore. *)
Definition leading_email (filename g : str) : Prop :=
  ∃ loc dom suf rest,
    filename = g ++ [chr 95] ++ rest
    ∧ g = loc ++ [chr 64] ++ dom ++ [chr 46] ++ suf
    ∧ loc ≠ [] ∧ dom ≠ [] ∧ suf ≠ []
    ∧ Forall (fun c => local_char c = true) loc
    ∧ Forall (fun c => domain_char c = true) dom
    ∧ Forall (fun c => suffix_char c = true) suf.

End Patterns.

(* ===================================================================== *)
(** * The file system under [base_dir] *)
(* ===================================================================== *)

Module FS.

(** A path is the list of its components below [base_dir]; [[]] is
    [base_dir] itself. [os.path.join] is taken to add one component
    per argument. *)
Abbreviation path := (list str).

Inductive node : Type :=
  | File (content : str)
  | Dir.

(** A directory entry keeps the name it was created with. *)
Record entry : Type := mk_entry { e_name : str; e_node : node }.

Abbreviation tree := (gmap path entry).

Section ops.
(** How the file system identifies names: the identity where names
    are case-sensitive, case folding where they are not. *)
Variable norm : str -> str.

Definition key (p : path) : path := norm <$> p.

(** [os.path.exists] *)
Definition exists_ (t : tree) (p : path) : bool :=
  match p with
  | [] => true
  | _ => bool_decide (is_Some (t !! key p))
  end.

(** [os.path.isfile] *)
Definition isfile (t : tree) (p : path) : bool :=
  match t !! key p with
  | Some (mk_entry _ (File _)) => true
  | _ => false
  end.

(** [os.listdir]: the names of the entries directly below [d]. *)
Definition listdir (t : tree) (d : path) : list str :=
  omap (fun '(k, e) =>
          if decide (length k = S (length d) /\ take (length d) k = key d)
          then Some (e_name e) else None)
       (map_to_list t).

(** [os.makedirs(p, exist_ok=True)]: walks down from [base_dir],
    creating what is absent, raising at a component that is a file. *)
Fixpoint makedirs_from (t : tree) (above rest : path) : tree * option exn :=
  match rest with
  | [] => (t, None)
  | c :: rest' =>
      let q := above ++ [c] in
      match t !! key q with
      | Some (mk_entry _ (File _)) => (t, Some OSError)
      | Some (mk_entry _ Dir) => makedirs_from t q rest'
      | None => makedirs_from (<[key q := mk_entry c Dir]> t) q rest'
      end
  end.

Definition makedirs (t : tree) (p : path) : tree * option exn :=
  makedirs_from t [] p.

(** [shutil.move(src, dst)] when [dst] does not exist: a rename, taken to
    be carried out whenever [src] exists. A rename the operating system
    refuses (a name that is too long, a directory that is missing) is not
    described; what is stated of a moved file is stated of an iteration
    that printed [MovedFileTo]. *)
Definition move (t : tree) (src dst : path) : tree * option exn :=
  match t !! key src with
  | Some e =>
      (<[key dst := mk_entry (default [] (last dst)) (e_node e)]>
         (delete (key src) t), None)
  | None => (t, Some OSError)
  end.

(** Building a tree: an entry [name] placed in the folder [parent]. *)
Definition add_entry (parent : path) (name : str) (n : node) (t : tree) : tree :=
  <[key (parent ++ [name]) := mk_entry name n]> t.

(** Every entry is stored under the normal form of its own name. *)
Definition well_keyed (t : tree) : Prop :=
  ∀ k e, t !! k = Some e → ∃ parent, k = parent ++ [norm (e_name e)].

End ops.

End FS.

(* ===================================================================== *)
(** * [process_files] *)
(* ===================================================================== *)

Module Classifier.
Import PyStr Calendar Rules Patterns FS.

(** The lines [process_files] prints. *)
Inductive report : Type :=
  | SkippingNonFile (filename : str)
  | EmailNotFound (filename : str)
  | EmailNotRecognized (email_address : str)
  | FileExistsNotOverwritten (new_file_path : path)
  | MovedFileTo (new_file_path : path).

Record state : Type := mk_state { fs : tree; printed : list report }.

Definition print (r : report) (st : state) : state :=
  {| fs := fs st; printed := printed st ++ [r] |}.

Section run.
Variable norm : str -> str.
Variable companies : gmap str rules.
Variable today : date.

Definition target_folder_of (rl : rules) (target_date : date) : path :=
  let month_str := month_name (month target_date) in
  let year_str := str_of_Z (year target_date) in
  if r_use_subfolder rl && truthy (r_folder_name rl)
  then [year_str; month_str; r_folder_name rl]
  else [year_str; month_str].

Definition new_filename_of (rl : rules) (existing_files : list str)
    (filename : str) : str :=
  let ext := snd (splitext filename) in
  if r_numbered_files rl
  then r_name rl ++ [chr 45]
         ++ str_of_N (next_number (r_name rl) existing_files) ++ ext
  else r_name rl ++ ext.

(** The rule that applies to a name, if its leading address has one. *)
Definition rule_of (filename : str) : option rules :=
  match match_email filename with
  | Some g => companies !! lower g
  | None => None
  end.

(** The line printed for a file that no rule applies to. *)
Definition unmatched_report (filename : str) : report :=
  match match_email filename with
  | None => EmailNotFound filename
  | Some g => EmailNotRecognized (lower g)
  end.

(** One iteration of the loop over [os.listdir(base_dir)]. The second
    component is the exception that ends the loop, if any. *)
Definition process_one (st : state) (filename : str) : state * option exn :=
  let file_path := [filename] in
  if negb (isfile norm (fs st) file_path)
  then (print (SkippingNonFile filename) st, None)
  else
    match match_email filename with
    | None => (print (EmailNotFound filename) st, None)
    | Some g =>
        let email_address := lower g in
        match companies !! email_address with
        | None => (print (EmailNotRecognized email_address) st, None)
        | Some rl =>
            match get_target_date today (r_month_offset rl) (r_day_offset rl) with
            | Raises e => (st, Some e)
            | Returns target_date =>
                let target_folder := target_folder_of rl target_date in
                match makedirs norm (fs st) target_folder with
                | (t1, Some e) => (mk_state t1 (printed st), Some e)
                | (t1, None) =>
                    let existing_files := listdir norm t1 target_folder in
                    let new_filename :=
                      new_filename_of rl existing_files filename in
                    let new_file_path := target_folder ++ [new_filename] in
                    if exists_ norm t1 new_file_path
                    then (print (FileExistsNotOverwritten new_file_path)
                            (mk_state t1 (printed st)), None)
                    else
                      match move norm t1 file_path new_file_path with
                      | (t2, Some e) => (mk_state t2 (printed st), Some e)
                      | (t2, None) =>
                          (print (MovedFileTo new_file_path)
                             (mk_state t2 (printed st)), None)
                      end
                end
            end
        end
    end.

(** The destination computed for a file, with the tree as it is once
    the target folder was made: the steps of [process_one] up to
    [new_file_path], when none of them ends the iteration. *)
Definition destination (st : state) (filename : str) : option (tree * path) :=
  if isfile norm (fs st) [filename] then
    match rule_of filename with
    | Some rl =>
        match get_target_date today (r_month_offset rl) (r_day_offset rl) with
        | Returns target_date =>
            let target_folder := target_folder_of rl target_date in
            match makedirs norm (fs st) target_folder with
            | (t1, None) =>
                Some (t1, target_folder
                            ++ [new_filename_of rl (listdir norm t1 target_folder)
                                  filename])
            | (_, Some _) => None
            end
        | Raises _ => None
        end
    | None => None
    end
  else None.

(** [for filename in <listing>: ...] *)
Fixpoint process_loop (st : state) (listing : list str) : state * option exn :=
  match listing with
  | [] => (st, None)
  | filename :: listing' =>
      match process_one st filename with
      | (st1, None) => process_loop st1 listing'
      | (st1, Some e) => (st1, Some e)
      end
  end.

End run.

(** [process_files()]: the rule table is reloaded, then every name of
    [os.listdir(base_dir)] is handled in the order of the listing. *)
Definition process_files (norm : str -> str) (rule_file : option (list item))
    (today : date) (st : state) : state * option exn :=
  let companies := load_companies_from_json rule_file in
  process_loop norm companies today st (listdir norm (fs st) []).

(** Sample data: one rule, a landing file of that sender, a file no rule
    applies to, and the folder of March 2024 holding [existing] files. *)
Definition alice_rule : item :=
  mk_item (Some (py "Alice@X.com")) (Some []) (Some (py "Alice")) (Some 0) (Some 0).

Definition alice_companies : gmap str rules :=
  load_companies_from_json (Some [alice_rule]).

Definition alice_invoice : str := py "alice@x.com_Invoice_20240101_55_receipt.pdf".

Definition stray_notes : str := py "notes.txt".

Definition march_2024 : path := [py "2024"; py "March"].

Definition sample_tree (norm : str -> str) (existing : list str) : tree :=
  fold_right (fun name t => add_entry norm march_2024 name (File (py "old")) t)
    (add_entry norm [py "2024"] (py "March") Dir
       (add_entry norm [] (py "2024") Dir
          (add_entry norm [] stray_notes (File (py "text"))
             (add_entry norm [] alice_invoice (File (py "%PDF")) ∅))))
    existing.

Definition mid_march : date := mk_date 2024 3 15.

End Classifier.

(* ===================================================================== *)
(** * The mail poller: [EmailAttachmentDownloader] *)
(* ===================================================================== *)

Module Poller.
Import PyStr Sanitize.

(** ** What the mailbox and the operating system supply *)

Record attachment : Type := mk_attachment {
  att_filename : option str;          (* [att.filename], possibly [None] *)
  att_payload : str }.

Record message : Type := mk_message {
  msg_uid : str;                      (* [str(msg.uid)] *)
  msg_subject : str;
  msg_from : str;
  msg_attachments : list attachment }.

(** One mailbox session: the login raises, or the messages of
    [mailbox.fetch()] are handed out one by one and the iteration ends
    normally or by an exception after them. Leaving the [with] block is
    taken not to raise. *)
Inductive session : Type :=
  | LoginRaises (e : exn)
  | Fetched (emails : list message) (failure : option exn).

(** The environment of one tick: the clock, and whether a write to a
    given attachment path, respectively the append of a given UID to the
    ledger file, succeeds. *)
Record env : Type := mk_env {
  date_str : str;                     (* [strftime("%Y%m%d")] *)
  timestamp : str;                    (* [strftime("%Y%m%d%H%M%S")] *)
  write_ok : str -> bool;
  ledger_ok : str -> bool }.

(** ** The state of the downloader *)

Inductive notification : Type :=
  | DownloadedAttachments (n : nat)
  | ErrorNotification (e : exn)
  | MonitoringPausedNotice
  | MonitoringResumedNotice.

Inductive level : Type := INFO | WARNING | ERROR.

Inductive log_text : Type :=
  | MonitoringPausedSkipping
  | CheckingForNewEmails
  | ConnectedToFolder
  | NoAttachmentsInUid (uid : str)
  | ProcessingEmail (uid subject : str)
  | AttachmentWithNoFilename
  | Downloaded (new_filename : str)
  | FailedSaving (new_filename : str)
  | SavedProcessedUid (uid : str)
  | FailedToSaveProcessedUid (uid : str)
  | DownloadedCount (n : nat)
  | NoNewAttachments
  | ErrorWhileChecking (e : exn)
  | ApplyingBackoff (seconds : Z)
  | MonitoringPaused
  | MonitoringResumed
  | Notification (n : notification).

(** [QtCore.QTimer]: whether it runs, and its interval in milliseconds. *)
Record qtimer : Type := mk_timer { active : bool; interval : Z }.

Definition timer_stop (t : qtimer) : qtimer :=
  {| active := false; interval := interval t |}.
Definition timer_start (msec : Z) (t : qtimer) : qtimer :=
  {| active := true; interval := msec |}.

Record downloader : Type := mk_downloader {
  initial_backoff : Z;
  backoff_factor : Z;
  max_backoff : Z;
  polling_interval : Z;
  current_backoff : Z;
  failure_count : Z;
  processed_uids : gset str;
  processed_uids_file : list str;     (* the lines of the ledger file *)
  download_folder : gmap str str;     (* file name to content *)
  timer : qtimer;
  monitoring_paused : bool;
  log : list (level * log_text);
  shown : list notification }.

Definition logging (lv : level) (m : log_text) (d : downloader) : downloader :=
  mk_downloader (initial_backoff d) (backoff_factor d) (max_backoff d)
    (polling_interval d) (current_backoff d) (failure_count d)
    (processed_uids d) (processed_uids_file d) (download_folder d)
    (timer d) (monitoring_paused d) (log d ++ [(lv, m)]) (shown d).

Definition set_backoff (count backoff : Z) (d : downloader) : downloader :=
  mk_downloader (initial_backoff d) (backoff_factor d) (max_backoff d)
    (polling_interval d) backoff count
    (processed_uids d) (processed_uids_file d) (download_folder d)
    (timer d) (monitoring_paused d) (log d) (shown d).

Definition record_uid (uid : str) (d : downloader) : downloader :=
  mk_downloader (initial_backoff d) (backoff_factor d) (max_backoff d)
    (polling_interval d) (current_backoff d) (failure_count d)
    ({[uid]} ∪ processed_uids d) (processed_uids_file d) (download_folder d)
    (timer d) (monitoring_paused d) (log d) (shown d).

Definition append_ledger (uid : str) (d : downloader) : downloader :=
  mk_downloader (initial_backoff d) (backoff_factor d) (max_backoff d)
    (polling_interval d) (current_backoff d) (failure_count d)
    (processed_uids d) (processed_uids_file d ++ [uid]) (download_folder d)
    (timer d) (monitoring_paused d) (log d) (shown d).

Definition write_file (name content : str) (d : downloader) : downloader :=
  mk_downloader (initial_backoff d) (backoff_factor d) (max_backoff d)
    (polling_interval d) (current_backoff d) (failure_count d)
    (processed_uids d) (processed_uids_file d)
    (<[name := content]> (download_folder d))
    (timer d) (monitoring_paused d) (log d) (shown d).

Definition set_timer (t : qtimer) (d : downloader) : downloader :=
  mk_downloader (initial_backoff d) (backoff_factor d) (max_backoff d)
    (polling_interval d) (current_backoff d) (failure_count d)
    (processed_uids d) (processed_uids_file d) (download_folder d)
    t (monitoring_paused d) (log d) (shown d).

Definition set_paused (b : bool) (d : downloader) : downloader :=
  mk_downloader (initial_backoff d) (backoff_factor d) (max_backoff d)
    (polling_interval d) (current_backoff d) (failure_count d)
    (processed_uids d) (processed_uids_file d) (download_folder d)
    (timer d) b (log d) (shown d).

(** The overridden [showMessage]: shows the notification and logs it. *)
Definition showMessage (n : notification) (d : downloader) : downloader :=
  logging INFO (Notification n)
    (mk_downloader (initial_backoff d) (backoff_factor d) (max_backoff d)
       (polling_interval d) (current_backoff d) (failure_count d)
       (processed_uids d) (processed_uids_file d) (download_folder d)
       (timer d) (monitoring_paused d) (log d) (shown d ++ [n])).

(** ** [save_processed_uid] *)

(** The [try] block: the append to the ledger file, then the update of
    the set and the log line. When the file cannot be opened or written,
    the block is left at that point. *)
Definition try_save_processed_uid (ev : env) (uid : str) (d : downloader)
  : outcome downloader :=
  if ledger_ok ev uid
  then let d := append_ledger uid d in
       let d := record_uid uid d in
       Returns (logging INFO (SavedProcessedUid uid) d)
  else Raises OSError.

(** [try: ... except Exception as e: logging.error(...)] *)
Definition save_processed_uid (ev : env) (uid : str) (d : downloader)
  : downloader :=
  match try_save_processed_uid ev uid d with
  | Returns d' => d'
  | Raises _ => logging ERROR (FailedToSaveProcessedUid uid) d
  end.

(** ** [check_emails] *)

Definition underscore : str := [chr 95].

(** The body of [for att in msg.attachments]; [n] is [new_attachments]. *)
Definition save_attachment (ev : env) (uid subject from_ : str)
    (acc : downloader * nat) (att : attachment) : downloader * nat :=
  let '(d, n) := acc in
  let original_filename := sanitize_filename (default [] (att_filename att)) in
  match original_filename with
  | [] => (logging WARNING AttachmentWithNoFilename d, n)
  | _ :: _ =>
      let sender_email := sanitize_filename from_ in
      let invoice_name := sanitize_filename subject in
      let unique_id := uid in
      let new_filename :=
        sender_email ++ underscore ++ invoice_name ++ underscore
        ++ date_str ev ++ underscore ++ unique_id ++ underscore
        ++ original_filename in
      let new_filename :=
        if bool_decide (is_Some (download_folder d !! new_filename))
        then let '(name, ext) := splitext new_filename in
             name ++ underscore ++ timestamp ev ++ ext
        else new_filename in
      if write_ok ev new_filename
      then (logging INFO (Downloaded new_filename)
              (write_file new_filename (att_payload att) d), S n)
      else (logging ERROR (FailedSaving new_filename) d, n)
  end.

(** The body of [for msg in emails]. *)
Definition process_message (ev : env) (acc : downloader * nat) (msg : message)
  : downloader * nat :=
  let '(d, n) := acc in
  let uid := msg_uid msg in
  if bool_decide (uid ∈ processed_uids d) then (d, n)
  else
    match msg_attachments msg with
    | [] =>
        (save_processed_uid ev uid (logging INFO (NoAttachmentsInUid uid) d), n)
    | _ :: _ =>
        let subject :=
          match msg_subject msg with
          | [] => py "No_Subject"
          | s => s
          end in
        let d := logging INFO (ProcessingEmail uid subject) d in
        let '(d, n) :=
          fold_left (save_attachment ev uid subject (msg_from msg))
                    (msg_attachments msg) (d, n) in
        (save_processed_uid ev uid d, n)
    end.

(** The [except Exception] branch. The counter is at least 0 on every
    downloader reached from a fresh one, so the power has an exponent of
    at least 1 and stays an integer. *)
Definition on_exception (e : exn) (d : downloader) : downloader :=
  let d := logging ERROR (ErrorWhileChecking e) d in
  let d := showMessage (ErrorNotification e) d in
  let count := failure_count d + 1 in
  let d :=
    set_backoff count
      (Z.min (initial_backoff d * backoff_factor d ^ count) (max_backoff d)) d in
  let d := logging INFO (ApplyingBackoff (current_backoff d)) d in
  let d := set_timer (timer_stop (timer d)) d in
  set_timer (timer_start (current_backoff d * 1000) (timer d)) d.

(** The end of the [with] block, reached when nothing was raised. *)
Definition on_completion (new_attachments : nat) (d : downloader) : downloader :=
  match new_attachments with
  | S _ =>
      let d := showMessage (DownloadedAttachments new_attachments) d in
      let d := logging INFO (DownloadedCount new_attachments) d in
      set_backoff 0 (initial_backoff d) d
  | O => logging INFO NoNewAttachments d
  end.

Definition check_emails (ev : env) (s : session) (d : downloader) : downloader :=
  if monitoring_paused d
  then logging INFO MonitoringPausedSkipping d
  else
    let d := logging INFO CheckingForNewEmails d in
    match s with
    | LoginRaises e => on_exception e d
    | Fetched emails failure =>
        let d := logging INFO ConnectedToFolder d in
        let '(d, new_attachments) :=
          fold_left (process_message ev) emails (d, O) in
        match failure with
        | Some e => on_exception e d
        | None => on_completion new_attachments d
        end
    end.

(** ** [pause_monitoring] and [resume_monitoring] *)

Definition pause_monitoring (d : downloader) : downloader :=
  if monitoring_paused d then d
  else logging INFO MonitoringPaused
         (showMessage MonitoringPausedNotice
            (set_paused true (set_timer (timer_stop (timer d)) d))).

Definition resume_monitoring (d : downloader) : downloader :=
  if monitoring_paused d
  then logging INFO MonitoringResumed
         (showMessage MonitoringResumedNotice
            (set_paused false
               (set_timer (timer_start (polling_interval d * 1000) (timer d)) d)))
  else d.

(** A run of ticks, each with its environment and its session. *)
Definition run_ticks (ticks : list (env * session)) (d : downloader) : downloader :=
  fold_left (fun d '(ev, s) => check_emails ev s d) ticks d.

(** A tick whose session raises. *)
Definition raises (s : session) : bool :=
  match s with
  | LoginRaises _ => true
  | Fetched _ (Some _) => true
  | Fetched _ None => false
  end.

(** [new_attachments] at the end of a session that fetched [emails]. *)
Definition new_attachments_of (ev : env) (emails : list message)
    (d : downloader) : nat :=
  snd (fold_left (process_message ev) emails
         (logging INFO ConnectedToFolder (logging INFO CheckingForNewEmails d), O)).

(** What can happen to a downloader after its construction: a tick of
    the timer or a Check Now (both call [check_emails]), a pause, a
    resume. *)
Inductive operation : Type :=
  | Tick (ev : env) (s : session)
  | Pause
  | Resume.

Definition apply_operation (d : downloader) (op : operation) : downloader :=
  match op with
  | Tick ev s => check_emails ev s d
  | Pause => pause_monitoring d
  | Resume => resume_monitoring d
  end.

Definition run (ops : list operation) (d : downloader) : downloader :=
  fold_left apply_operation ops d.

(** The fields that schedule the next tick. *)
Definition schedule (d : downloader) : Z * Z * Z * Z * Z * Z * qtimer * bool :=
  (initial_backoff d, backoff_factor d, max_backoff d, polling_interval d,
   current_backoff d, failure_count d, timer d, monitoring_paused d).

(** The fields a freshly constructed downloader starts with. *)
Definition fresh (initial factor maximum polling : Z) (uids : gset str)
    (ledger : list str) (files : gmap str str) : downloader :=
  mk_downloader initial factor maximum polling initial 0 uids ledger files
    (mk_timer true (polling * 1000)) false [] [].

(** Sample data: an environment in which every write succeeds, a mail
    with one attachment, and a downloader with the default settings. *)
Definition calm : env :=
  mk_env (py "20240315") (py "20240315120000") (fun _ => true) (fun _ => true).

Definition invoice_mail (uid : str) : message :=
  mk_message uid (py "Invoice") (py "alice@x.com")
    [mk_attachment (Some (py "receipt.pdf")) (py "%PDF")].

Definition default_downloader : downloader := fresh 60 2 3600 600 ∅ [] ∅.

End Poller.

(* ===================================================================== *)
(** * The poller over whole runs *)
(* ===================================================================== *)

Module Runs.
Import Poller.

(** The current backoff as the failure counter determines it: the initial
    backoff at 0, the capped power after that. *)
Definition backoff_of (d : downloader) : Z :=
  if failure_count d =? 0 then initial_backoff d
  else Z.min (initial_backoff d * backoff_factor d ^ failure_count d)
             (max_backoff d).

Definition backoff_invariant (d : downloader) : Prop :=
  0 <= failure_count d ∧ current_backoff d = backoff_of d.

(** The settings read from the configuration. *)
Definition settings (d : downloader) : Z * Z * Z * Z :=
  (initial_backoff d, backoff_factor d, max_backoff d, polling_interval d).

(** What a downloader has received and recorded. *)
Definition holdings (d : downloader) : gset str * list str * gmap str str :=
  (processed_uids d, processed_uids_file d, download_folder d).

(** Calls of [check_emails] as operations. *)
Definition ticks_of (ticks : list (env * session)) : list operation :=
  map (fun t => Tick (fst t) (snd t)) ticks.

End Runs.

(* ===================================================================== *)
(** * The names of the downloaded files *)
(* ===================================================================== *)

Module Naming.
Import PyStr Sanitize Poller.

(** A string without any of the nine characters of [invalid_chars]. *)
Definition clean (s : str) : Prop := Forall (fun c => invalid_chars c = false) s.

(** The name [check_emails] builds for an attachment before it looks
    whether a file of that name exists. *)
Definition first_choice (ev : env) (uid subject from_ : str) (att : attachment)
  : str :=
  sanitize_filename from_ ++ underscore ++ sanitize_filename subject ++ underscore
  ++ date_str ev ++ underscore ++ uid ++ underscore
  ++ sanitize_filename (default [] (att_filename att)).

(** The messages a session hands out. *)
Definition fetched (s : session) : list message :=
  match s with
  | LoginRaises _ => []
  | Fetched emails _ => emails
  end.

End Naming.

(* ===================================================================== *)
(** * Start-up: [get_password] and [load_processed_uids] *)
(* ===================================================================== *)

Module Startup.
Import PyStr Patterns.

(** ** The password *)

(** Splits at the last closing brace: the text before it and the text
    after it; [None] when there is no closing brace. *)
Fixpoint rsplit_brace (s : str) : option (str * str) :=
  match s with
  | c :: s' =>
      match rsplit_brace s' with
      | Some (a, e) => Some (c :: a, e)
      | None => if is_code 125 c then Some ([], s') else None
      end
  | [] => None
  end.

(** What the dot of a pattern matches: any character but a line feed. *)
Definition dot (c : ascii) : bool := negb (is_code 10 c).

(** [re.match] of a dollar sign, an opening brace, [(.+)] and a closing
    brace, returning [group(1)]: the greedy [.+] runs to the end of the
    line and gives back characters until a closing brace follows, so the
    group ends before the last closing brace of the line, and it must not
    be empty. *)
Definition match_env_ref (s : str) : option str :=
  match s with
  | c1 :: c2 :: r =>
      if is_code 36 c1 && is_code 123 c2 then
        match rsplit_brace (fst (span dot r)) with
        | Some (c :: g, _) => Some (c :: g)
        | _ => None
        end
      else None
  | _ => None
  end.

Inductive password_warning : Type :=
  | EnvironmentVariableNotSet (env_var : str).

(** [get_password]: [password] is what [config.get('EMAIL', 'PASSWORD',
    fallback='')] returned, [environ] the environment of the process.
    The second component is the warning logged, if any. *)
Definition get_password (environ : gmap str str) (password : str)
  : str * option password_warning :=
  match match_env_ref password with
  | Some env_var =>
      match environ !! env_var with
      | Some (c :: v) => (c :: v, None)
      | _ => ([], Some (EnvironmentVariableNotSet env_var))
      end
  | None => (password, None)
  end.

(** ** The ledger file *)

(** [str.isdigit]: not empty, and decimal digits or superscript digits
    only. *)
Definition isdigit_char (c : ascii) : bool :=
  is_digit c || between 178 179 c || is_code 185 c.

Definition isdigit (s : str) : bool :=
  match s with
  | [] => false
  | _ :: _ => forallb isdigit_char s
  end.

(** Reading in text mode: a carriage return, alone or before a line
    feed, is read as one line feed. *)
Fixpoint translate_newlines (s : str) : str :=
  match s with
  | [] => []
  | c :: s' =>
      if is_code 13 c then
        chr 10 :: match s' with
                  | c2 :: s'' =>
                      if is_code 10 c2 then translate_newlines s''
                      else translate_newlines s'
                  | [] => []
                  end
      else c :: translate_newlines s'
  end.

(** The lines of a text, each with its line feed, as [for line in f]
    hands them out. *)
Fixpoint split_keepends (s : str) : list str :=
  match s with
  | [] => []
  | c :: s' =>
      if is_code 10 c then [c] :: split_keepends s'
      else match split_keepends s' with
           | [] => [[c]]
           | l :: ls => (c :: l) :: ls
           end
  end.

Definition readlines (text : str) : list str :=
  split_keepends (translate_newlines text).

(** The ledger file at start-up: absent, readable to its end, or
    failing after the lines of [text] were handed out (at once when the
    file cannot be opened). *)
Inductive ledger_file : Type :=
  | NoLedgerFile
  | LedgerText (text : str)
  | LedgerFailsAfter (text : str).

Inductive load_report : Type :=
  | LoadedProcessedUids
  | FailedToLoadProcessedUids
  | NoProcessedUidsFileFound.

(** The body of [for line in f]. *)
Definition add_line (uids : gset str) (line : str) : gset str :=
  let uid := strip line in
  if isdigit uid then {[uid]} ∪ uids else uids.

(** [load_processed_uids]: the set and the line logged. *)
Definition load_processed_uids (f : ledger_file) (uids : gset str)
  : gset str * load_report :=
  match f with
  | NoLedgerFile => (uids, NoProcessedUidsFileFound)
  | LedgerText text => (fold_left add_line (readlines text) uids, LoadedProcessedUids)
  | LedgerFailsAfter text =>
      (fold_left add_line (readlines text) uids, FailedToLoadProcessedUids)
  end.

(** The text of a ledger file to which [save_processed_uid] appended
    [records], one [f.write] of the UID and a line feed each. *)
Fixpoint ledger_text (records : list str) : str :=
  match records with
  | [] => []
  | uid :: records' => uid ++ chr 10 :: ledger_text records'
  end.

(** A string without a closing brace. *)
Definition no_brace (s : str) : Prop := Forall (fun c => is_code 125 c = false) s.

End Startup.

(* ===================================================================== *)
(** * What the archive holds, and addresses in file names *)
(* ===================================================================== *)

Module Archive.
Import PyStr Rules Patterns FS.

Definition is_file (e : entry) : bool :=
  match e_node e with File _ => true | Dir => false end.

(** The entries of a tree that are files. *)
Definition files (t : tree) : tree :=
  filter (fun ke => is_file (snd ke) = true) t.


(** [g] is [local@domain.suffix], the three parts non-empty and drawn
    from the character classes of [email_pattern]. *)
Definition address (g : str) : Prop :=
  ∃ loc dom suf,
    g = loc ++ [chr 64] ++ dom ++ [chr 46] ++ suf
    ∧ loc ≠ [] ∧ dom ≠ [] ∧ suf ≠ []
    ∧ Forall (fun c => local_char c = true) loc
    ∧ Forall (fun c => domain_char c = true) dom
    ∧ Forall (fun c => suffix_char c = true) suf.

(** The characters at which [os.path.join] and the file system split a
    name: slash, backslash, and the colon of a drive. *)
Definition is_separator (c : ascii) : bool :=
  is_code 47 c || is_code 92 c || is_code 58 c.

(** A string that names one entry of the folder it is joined to: it has
    no separator and is neither the folder itself nor its parent. *)
Definition one_component (s : str) : Prop :=
  s ≠ py "." ∧ s ≠ py ".." ∧ Forall (fun c => is_separator c = false) s.

(** A rule whose file prefix and folder name are such strings, so that
    [os.path.join(base_dir, year_str, month_str, folder_name)] and
    [os.path.join(target_folder, new_filename)] add one component each,
    as [target_folder_of] and [process_one] take them to. *)
Definition plain_rule (rl : rules) : Prop :=
  Forall (fun c => is_separator c = false) (r_name rl)
  ∧ one_component (r_folder_name rl).

Definition plain_table (companies : gmap str rules) : Prop :=
  ∀ k rl, companies !! k = Some rl → plain_rule rl.

End Archive.

(* ===================================================================== *)
(** * The rule dialog: [SenderConfigDialog] and [add_sender_config] *)
(* ===================================================================== *)

Module Dialog.
Import PyStr Rules.

(** [QSpinBox.value()]: a spin box keeps its value within the range given
    to [setRange], whatever is set or typed. *)
Definition spin_box (lo hi v : Z) : Z := Z.max lo (Z.min hi v).

(** The line edits and spin boxes of the dialog when OK is pressed. *)
Record fields : Type := mk_fields {
  email_edit : str;
  folder_edit : str;
  file_edit : str;
  month_offset_edit : Z;
  day_offset_edit : Z }.

(** [SenderConfigDialog.get_data()] *)
Definition get_data (f : fields) : item :=
  {| sender_email := Some (strip (email_edit f));
     folder_name := Some (strip (folder_edit f));
     file_name := Some (strip (file_edit f));
     month_offset := Some (spin_box (-12) 12 (month_offset_edit f));
     day_offset := Some (spin_box (-31) 31 (day_offset_edit f)) |}.

(** [add_sender_config()] once the dialog is accepted: the list that is
    kept and written to the rule file. *)
Definition add_sender_config (invoices_config_data : list item) (f : fields)
  : list item :=
  invoices_config_data ++ [get_data f].

End Dialog.

(* ===================================================================== *)
(** * The button: [process_invoices_action] *)
(* ===================================================================== *)

Module Action.
Import Rules Calendar FS Classifier.

(** What is written to the redirected [sys.stdout]: the line of
    [load_companies_from_json] when the rule file is absent or cannot be
    parsed, the lines of [process_files], and the line of the handler. *)
Inductive output_line : Type :=
  | RuleFileNotLoaded
  | Printed (r : report)
  | ErrorWhileProcessingFiles (e : exn).

(** The box shown at the end. Every line holds text, so
    [output_text.strip()] is empty only when nothing was printed. *)
Inductive message_box : Type :=
  | Information (output_text : list output_line)
  | ProcessingCompletedNoMessages.

Definition output_of (rule_file : option (list item))
    (res : state * option exn) : list output_line :=
  match rule_file with None => [RuleFileNotLoaded] | Some _ => [] end
  ++ map Printed (printed (fst res))
  ++ match snd res with Some e => [ErrorWhileProcessingFiles e] | None => [] end.

(** [process_invoices_action()]: the tree it leaves and the box it shows. *)
Definition process_invoices_action (norm : str -> str)
    (rule_file : option (list item)) (today : date) (t : tree)
  : tree * message_box :=
  let res := process_files norm rule_file today (mk_state t []) in
  let output_text := output_of rule_file res in
  (fs (fst res),
   match output_text with
   | [] => ProcessingCompletedNoMessages
   | _ :: _ => Information output_text
   end).

End Action.

(* ===================================================================== *)
(** * Properties of the string builtins *)
(* ===================================================================== *)

Module PyStrFacts.
Import PyStr.

Lemma lstrip_split (s : str) :
  ∃ l, s = l ++ lstrip s ∧ all_space l.
Proof.
  induction s as [|c s [l [Hs Hl]]]; simpl.
  - exists []. split; [reflexivity | constructor].
  - destruct (is_space c) eqn:Hc.
    + exists (c :: l). split; [simpl; congruence | by constructor].
    + exists []. split; [reflexivity | constructor].
Qed.

Lemma lstrip_head (s : str) (c : ascii) :
  head (lstrip s) = Some c → is_space c = false.
Proof.
  induction s as [|a s IH]; simpl; [discriminate|].
  destruct (is_space a) eqn:Ha; [exact IH|].
  simpl. intros [= <-]. exact Ha.
Qed.

Lemma rstrip_split (s : str) :
  ∃ r, s = rstrip s ++ r ∧ all_space r.
Proof.
  induction s as [|c s [r [Hs Hr]]]; simpl.
  - exists []. split; [reflexivity | constructor].
  - destruct (rstrip s) as [|b t] eqn:Ht; simpl in Hs.
    + destruct (is_space c) eqn:Hc.
      * exists (c :: r). split; [simpl; congruence | by constructor].
      * exists r. split; [simpl; congruence | assumption].
    + exists r. split; [simpl; congruence | assumption].
Qed.

Lemma rstrip_last (s : str) (c : ascii) :
  last (rstrip s) = Some c → is_space c = false.
Proof.
  induction s as [|a s IH]; simpl; [discriminate|].
  destruct (rstrip s) as [|b t] eqn:Ht.
  - destruct (is_space a) eqn:Ha; simpl; [discriminate|].
    intros [= <-]. exact Ha.
  - rewrite last_cons_cons. exact IH.
Qed.

Lemma rstrip_head (s : str) (c : ascii) :
  head (rstrip s) = Some c → head s = Some c.
Proof.
  destruct s as [|a s]; simpl; [discriminate|].
  destruct (rstrip s); [destruct (is_space a)|]; simpl; congruence.
Qed.

(** [strip] cuts a run of whitespace off each end, and nothing more. *)
Lemma strip_split (s : str) :
  ∃ l r, s = l ++ strip s ++ r ∧ all_space l ∧ all_space r ∧ trimmed (strip s).
Proof.
  destruct (lstrip_split s) as [l [Hl Hsl]].
  destruct (rstrip_split (lstrip s)) as [r [Hr Hsr]].
  exists l, r. unfold strip. repeat split; try assumption.
  - rewrite <- Hr. exact Hl.
  - intros c Hc. apply rstrip_head in Hc. by apply lstrip_head in Hc.
  - intros c. apply rstrip_last.
Qed.

Lemma strip_subseteq (s : str) (c : ascii) : c ∈ strip s → c ∈ s.
Proof.
  destruct (strip_split s) as [l [r [Hs _]]]. intros Hc.
  rewrite Hs. set_solver.
Qed.

End PyStrFacts.

(* ===================================================================== *)
(** * [sanitize_filename]: what it returns *)
(* ===================================================================== *)

Module SanitizeFacts.
Import PyStr PyStrFacts Sanitize.

Lemma re_sub_invalid_clean (s : str) (c : ascii) :
  c ∈ re_sub_invalid s → invalid_chars c = false.
Proof.
  unfold re_sub_invalid. intros Hc.
  apply list_elem_of_fmap in Hc as [a [-> _]].
  destruct (invalid_chars a) eqn:Ha; [reflexivity | exact Ha].
Qed.

(** C10. For every input string, [sanitize_filename] returns the input
    with each of the nine characters (less-than, greater-than, colon,
    double quote, slash, backslash, vertical bar, question mark, asterisk)
    replaced by an underscore, position by position, and with the leading
    and trailing whitespace cut off; its result contains none of the
    nine characters. *)
Theorem sanitize_filename_spec (filename : str) :
  let replaced := re_sub_invalid filename in
  length replaced = length filename
  ∧ (∀ i c, filename !! i = Some c →
            replaced !! i = Some (if invalid_chars c then chr 95 else c))
  ∧ (∃ l r, replaced = l ++ sanitize_filename filename ++ r
            ∧ all_space l ∧ all_space r
            ∧ trimmed (sanitize_filename filename))
  ∧ (∀ c, invalid_chars c = true → c ∉ sanitize_filename filename).
Proof.
  cbv zeta. split; [|split; [|split]].
  - unfold re_sub_invalid. apply length_fmap.
  - intros i c Hi. unfold re_sub_invalid. rewrite list_lookup_fmap, Hi. reflexivity.
  - apply strip_split.
  - intros c Hc Hin. unfold sanitize_filename in Hin.
    apply strip_subseteq, re_sub_invalid_clean in Hin. congruence.
Qed.

(** The theorem on a name with spaces around it and three of the nine
    characters inside: none of them is left. *)
Lemma sanitize_filename_spec_witness :
  (chr 63 ∉ sanitize_filename (py "  inv:oice?<1>.pdf "))
  ∧ sanitize_filename (py "  inv:oice?<1>.pdf ") = py "inv_oice__1_.pdf".
Proof.
  split; [|reflexivity].
  apply (proj2 (proj2 (proj2 (sanitize_filename_spec (py "  inv:oice?<1>.pdf "))))
               (chr 63)).
  reflexivity.
Defined.

End SanitizeFacts.

(* ===================================================================== *)
(** * [get_target_date]: what it returns, and when it raises *)
(* ===================================================================== *)

Module CalendarFacts.
Import Calendar.

(** The first loop leaves the month at most 12, keeps the month count,
    and does not push a positive month below 1. *)
Lemma roll_forward_spec (ym : Z * Z) :
  snd (roll_forward ym) <= 12
  ∧ 12 * fst (roll_forward ym) + snd (roll_forward ym) = 12 * fst ym + snd ym
  ∧ (1 <= snd ym → 1 <= snd (roll_forward ym)).
Proof.
  funelim (roll_forward ym); simpl in *.
  - destruct H as (H1 & H2 & H3). repeat split; lia.
  - repeat split; lia.
Qed.

(** The second loop leaves the month at least 1, keeps the month count,
    and does not push a month that is at most 12 above 12. *)
Lemma roll_backward_spec (ym : Z * Z) :
  1 <= snd (roll_backward ym)
  ∧ 12 * fst (roll_backward ym) + snd (roll_backward ym) = 12 * fst ym + snd ym
  ∧ (snd ym <= 12 → snd (roll_backward ym) <= 12).
Proof.
  funelim (roll_backward ym); simpl in *.
  - destruct H as (H1 & H2 & H3). repeat split; lia.
  - repeat split; lia.
Qed.

(** Both loops together: the month lands in 1..12 and the year moves by
    the whole years the month offset carried. *)
Lemma normalise_month (y m : Z) :
  roll_backward (roll_forward (y, m)) = (y + (m - 1) / 12, (m - 1) mod 12 + 1).
Proof.
  destruct (roll_forward_spec (y, m)) as (F1 & F2 & _).
  destruct (roll_backward_spec (roll_forward (y, m))) as (B1 & B2 & B3).
  specialize (B3 F1). simpl in *.
  destruct (roll_backward (roll_forward (y, m))) as [y2 m2]. simpl in *.
  assert (Hd : m - 1 = 12 * (y2 - y) + (m2 - 1)) by lia.
  assert (Hq : (m - 1) / 12 = y2 - y).
  { symmetry. apply (Z.div_unique_pos _ _ _ (m2 - 1)); lia. }
  assert (Hr : (m - 1) mod 12 = m2 - 1).
  { symmetry. apply (Z.mod_unique_pos _ _ (y2 - y)); lia. }
  f_equal; lia.
Qed.

Lemma fits_int_small (z : Z) : -10000 <= z <= 10000 → fits_int z = true.
Proof. intros H. unfold fits_int. apply andb_true_iff. split; lia. Qed.

Lemma valid_ymd_range (y m d : Z) :
  valid_ymd y m d = true →
  MINYEAR <= y <= MAXYEAR ∧ 1 <= m <= 12 ∧ 1 <= d <= days_in_month y m.
Proof. unfold valid_ymd. rewrite !andb_true_iff. lia. Qed.

Lemma days_in_month_bounds (y m : Z) : 28 <= days_in_month y m <= 31.
Proof.
  unfold days_in_month.
  repeat match goal with |- context [if ?b then _ else _] => destruct b end; lia.
Qed.

(** C2, as amended. Whenever the [date] type can hold the result (the year
    reached by the month offset lies in 1..9999 and today's day plus the
    day offset is a 32-bit integer), [get_target_date] raises nothing and
    returns the date whose month is today's month moved by [month_offset]
    months and whose day is today's day plus [day_offset] if that day
    exists in that month, and the 1st of that month otherwise. On
    2024-03-31 with offsets -1 and 0 it returns 2024-02-01. *)
Theorem get_target_date_spec (today : date) (month_offset day_offset : Z) :
  date_valid today →
  MINYEAR <= (month_index today + month_offset) / 12 <= MAXYEAR →
  fits_int (day today + day_offset) = true →
  (∃ d, get_target_date today month_offset day_offset = Returns d
        ∧ 1 <= month d <= 12
        ∧ month_index d = month_index today + month_offset
        ∧ day d = (if (1 <=? day today + day_offset)
                      && (day today + day_offset <=? days_in_month (year d) (month d))
                   then day today + day_offset else 1))
  ∧ get_target_date (mk_date 2024 3 31) (-1) 0 = Returns (mk_date 2024 2 1).
Proof.
  intros Hv Hy Hd. split; [|reflexivity].
  apply valid_ymd_range in Hv as (Hty & Htm & Htd).
  unfold get_target_date. rewrite normalise_month.
  unfold month_index in *.
  replace (12 * year today + (month today - 1) + month_offset)
    with ((month today + month_offset - 1) + year today * 12) in Hy by lia.
  rewrite Z.div_add in Hy by lia.
  set (y := year today + (month today + month_offset - 1) / 12) in *.
  set (m := (month today + month_offset - 1) mod 12 + 1).
  assert (Hm : 1 <= m <= 12).
  { unfold m. pose proof (Z.mod_pos_bound (month today + month_offset - 1) 12). lia. }
  assert (Hidx : 12 * y + (m - 1) = 12 * year today + (month today - 1) + month_offset).
  { unfold y, m.
    pose proof (Z.div_mod (month today + month_offset - 1) 12). lia. }
  unfold MINYEAR, MAXYEAR in *.
  assert (Hfy : fits_int y = true) by (apply fits_int_small; lia).
  assert (Hfm : fits_int m = true) by (apply fits_int_small; lia).
  assert (Hf1 : fits_int 1 = true) by reflexivity.
  pose proof (days_in_month_bounds y m) as Hdim.
  unfold date_new. rewrite Hfy, Hfm, Hd, Hf1. simpl negb. cbv iota.
  unfold valid_ymd, MINYEAR, MAXYEAR.
  assert (Hym : (1 <=? y) && (y <=? 9999) && (1 <=? m) && (m <=? 12) = true)
    by (rewrite !andb_true_iff; lia).
  assert (H1 : (1 <=? 1) && (1 <=? days_in_month y m) = true)
    by (rewrite !andb_true_iff; lia).
  rewrite <- !(andb_assoc ((1 <=? y) && (y <=? 9999) && (1 <=? m) && (m <=? 12))).
  rewrite Hym. simpl andb.
  destruct ((1 <=? day today + day_offset)
            && (day today + day_offset <=? days_in_month y m)) eqn:Hday.
  - eexists. split; [reflexivity|]. simpl.
    rewrite Hday. repeat split; lia.
  - simpl in H1. rewrite H1. eexists. split; [reflexivity|]. simpl.
    rewrite Hday. repeat split; lia.
Qed.

(** The theorem at 2024-01-31 with offsets +1 and 0: February has no
    31st, the result is 2024-02-01. *)
Lemma get_target_date_spec_witness :
  ∃ d, get_target_date (mk_date 2024 1 31) 1 0 = Returns d
       ∧ 1 <= month d <= 12
       ∧ month_index d = month_index (mk_date 2024 1 31) + 1
       ∧ day d = (if (1 <=? 31 + 0) && (31 + 0 <=? days_in_month (year d) (month d))
                  then 31 + 0 else 1).
Proof.
  apply (get_target_date_spec (mk_date 2024 1 31) 1 0);
    [reflexivity | vm_compute; split; discriminate | reflexivity].
Defined.

(** C2, as stated, fails: a month offset that leads before year 1 makes
    both calls of the [date] constructor raise [ValueError], and a day
    offset beyond the 32-bit integers makes the first call raise
    [OverflowError], which the [except ValueError] clause lets through. *)
Lemma get_target_date_raises :
  get_target_date (mk_date 2024 3 31) (-24300) 0 = Raises ValueError
  ∧ get_target_date (mk_date 2024 3 31) 0 (2 ^ 31) = Raises OverflowError.
Proof. split; vm_compute; reflexivity. Qed.

End CalendarFacts.

(* ===================================================================== *)
(** * [load_companies_from_json]: duplicates *)
(* ===================================================================== *)

Module RulesFacts.
Import Rules.

(** The loop of [load_items], started from any table. *)
Local Abbreviation load_from data table :=
  (fold_left (fun result it => <[sender_key it := rules_of_item it]> result)
             data table).

Lemma load_from_other (data : list item) (table : gmap str rules) (k : str) :
  (∀ it, it ∈ data → sender_key it ≠ k) →
  load_from data table !! k = table !! k.
Proof.
  revert table. induction data as [|it data IH]; intros table Hk; simpl.
  - reflexivity.
  - rewrite IH by (intros it' Hin; apply Hk; by right).
    apply lookup_insert_ne. apply Hk. by left.
Qed.

(** Whatever the table held for a key is forgotten once that key is
    assigned again. *)
Lemma load_from_overwritten (data : list item) (table : gmap str rules)
    (k : str) (r v : rules) :
  <[k := v]> (load_from data (<[k := r]> table))
  = <[k := v]> (load_from data table).
Proof.
  revert table. induction data as [|it data IH]; intros table; simpl.
  - apply insert_insert_eq.
  - destruct (decide (sender_key it = k)) as [->|Hne].
    + by rewrite insert_insert_eq.
    + rewrite insert_insert_ne by done. apply IH.
Qed.

(** C9. When several entries of the rule file have the same lowercased
    [sender_email], [load_companies_from_json] maps that sender to the
    rules of the last of them in file order, and an earlier duplicate
    has no effect on the table returned. *)
Theorem last_duplicate_wins :
  (∀ (before after : list item) (it : item),
      (∀ it', it' ∈ after → sender_key it' ≠ sender_key it) →
      load_companies_from_json (Some (before ++ it :: after)) !! sender_key it
      = Some (rules_of_item it))
  ∧ (∀ (l1 l2 l3 : list item) (earlier later : item),
        sender_key earlier = sender_key later →
        load_companies_from_json (Some (l1 ++ earlier :: l2 ++ later :: l3))
        = load_companies_from_json (Some (l1 ++ l2 ++ later :: l3))).
Proof.
  split.
  - intros before after it Hlast. simpl. unfold load_items.
    rewrite fold_left_app. simpl.
    rewrite load_from_other by assumption. apply lookup_insert_eq.
  - intros l1 l2 l3 earlier later Hk. simpl. unfold load_items.
    rewrite !fold_left_app. simpl. rewrite !fold_left_app. simpl.
    f_equal. rewrite Hk. apply load_from_overwritten.
Qed.

(** The theorem on a file with two entries for one sender, written in
    different letter case. *)
Lemma last_duplicate_wins_witness :
  let first := mk_item (Some (py "Alice@X.com")) None (Some (py "Old")) None None in
  let second := mk_item (Some (py "alice@x.com")) None (Some (py "New")) None None in
  load_companies_from_json (Some ([first] ++ second :: [])) !! sender_key second
  = Some (rules_of_item second)
  ∧ load_companies_from_json (Some ([] ++ first :: [] ++ second :: []))
    = load_companies_from_json (Some ([] ++ [] ++ second :: [])).
Proof.
  intros first second. split.
  - apply (proj1 last_duplicate_wins [first] [] second).
    intros it' Hin. inversion Hin.
  - apply (proj2 last_duplicate_wins [] [] [] first second). reflexivity.
Defined.

End RulesFacts.

(* ===================================================================== *)
(** * The mail poller: ledger and backoff *)
(* ===================================================================== *)

Module PollerFacts.
Import Poller.

(** ** What a step leaves alone *)

Lemma save_processed_uid_schedule ev uid d :
  schedule (save_processed_uid ev uid d) = schedule d.
Proof.
  unfold save_processed_uid, try_save_processed_uid.
  destruct (ledger_ok ev uid); reflexivity.
Qed.

Lemma save_attachment_schedule ev uid subject from_ acc att :
  schedule (fst (save_attachment ev uid subject from_ acc att)) = schedule (fst acc).
Proof.
  destruct acc as [d n]. unfold save_attachment.
  destruct (Sanitize.sanitize_filename _); [reflexivity|].
  destruct (write_ok ev _); reflexivity.
Qed.

Lemma fold_schedule {A} (f : downloader * nat → A → downloader * nat) :
  (∀ acc a, schedule (fst (f acc a)) = schedule (fst acc)) →
  ∀ l acc, schedule (fst (fold_left f l acc)) = schedule (fst acc).
Proof.
  intros Hf l. induction l as [|a l IH]; intros acc; simpl; [reflexivity|].
  rewrite IH. apply Hf.
Qed.

Lemma process_message_schedule ev acc msg :
  schedule (fst (process_message ev acc msg)) = schedule (fst acc).
Proof.
  destruct acc as [d n]. unfold process_message.
  case_bool_decide; [reflexivity|].
  destruct (msg_attachments msg) as [|a atts] eqn:Ha.
  - simpl. rewrite save_processed_uid_schedule. reflexivity.
  - rewrite <- Ha.
    destruct (fold_left _ (msg_attachments msg) _) as [d1 n1] eqn:Hfold.
    simpl. rewrite save_processed_uid_schedule.
    change d1 with (fst (d1, n1)). rewrite <- Hfold.
    rewrite (fold_schedule _ (save_attachment_schedule ev _ _ _)). reflexivity.
Qed.

Lemma fetch_schedule ev emails acc :
  schedule (fst (fold_left (process_message ev) emails acc)) = schedule (fst acc).
Proof. apply fold_schedule, process_message_schedule. Qed.

(** ** A tick that raises *)

Lemma on_exception_fields e d :
  let d' := on_exception e d in
  failure_count d' = failure_count d + 1
  ∧ current_backoff d'
    = Z.min (initial_backoff d * backoff_factor d ^ (failure_count d + 1))
            (max_backoff d)
  ∧ timer d' = mk_timer true (current_backoff d' * 1000)
  ∧ initial_backoff d' = initial_backoff d
  ∧ backoff_factor d' = backoff_factor d
  ∧ max_backoff d' = max_backoff d
  ∧ polling_interval d' = polling_interval d
  ∧ monitoring_paused d' = monitoring_paused d.
Proof. cbv zeta. repeat split. Qed.

Lemma schedule_inv d1 d2 :
  schedule d1 = schedule d2 →
  initial_backoff d1 = initial_backoff d2
  ∧ backoff_factor d1 = backoff_factor d2
  ∧ max_backoff d1 = max_backoff d2
  ∧ polling_interval d1 = polling_interval d2
  ∧ current_backoff d1 = current_backoff d2
  ∧ failure_count d1 = failure_count d2
  ∧ timer d1 = timer d2
  ∧ monitoring_paused d1 = monitoring_paused d2.
Proof. unfold schedule. intros [= -> -> -> -> -> -> -> ->]. repeat split. Qed.

(** A tick whose session ran to its end is [on_completion] after the
    messages; one that raised is [on_exception] after the messages that
    were handled before. In both cases the messages leave the schedule
    as it was before the tick. *)
Lemma check_emails_unfold ev s d :
  monitoring_paused d = false →
  ∃ d0, schedule d0 = schedule d
    ∧ check_emails ev s d
      = match s with
        | LoginRaises e => on_exception e d0
        | Fetched _ (Some e) => on_exception e d0
        | Fetched emails None => on_completion (new_attachments_of ev emails d) d0
        end.
Proof.
  intros Hp. unfold check_emails. rewrite Hp.
  destruct s as [e|emails failure].
  - eexists. split; [|reflexivity]. reflexivity.
  - unfold new_attachments_of.
    destruct (fold_left _ emails _) as [d1 n1] eqn:Hfold.
    exists d1. split.
    + change d1 with (fst (d1, n1)). rewrite <- Hfold, fetch_schedule. reflexivity.
    + destruct failure; reflexivity.
Qed.

Lemma check_emails_raises ev s d :
  monitoring_paused d = false →
  raises s = true →
  let d' := check_emails ev s d in
  failure_count d' = failure_count d + 1
  ∧ current_backoff d'
    = Z.min (initial_backoff d * backoff_factor d ^ (failure_count d + 1))
            (max_backoff d)
  ∧ timer d' = mk_timer true (current_backoff d' * 1000)
  ∧ initial_backoff d' = initial_backoff d
  ∧ backoff_factor d' = backoff_factor d
  ∧ max_backoff d' = max_backoff d
  ∧ monitoring_paused d' = false.
Proof.
  intros Hp Hs. cbv zeta.
  destruct (check_emails_unfold ev s d Hp) as (d0 & Hsch & ->).
  apply schedule_inv in Hsch as (Hi & Hf & Hm & _ & _ & Hc & _ & Hpa).
  assert (∃ e, match s with
               | LoginRaises e => on_exception e d0
               | Fetched _ (Some e) => on_exception e d0
               | Fetched emails None => on_completion (new_attachments_of ev emails d) d0
               end = on_exception e d0) as [e ->].
  { destruct s as [e|emails [e|]]; try discriminate; by exists e. }
  destruct (on_exception_fields e d0) as (F1 & F2 & F3 & F4 & F5 & F6 & _ & F8).
  rewrite F3, F1, F4, F5, F6, F8, !F2, Hi, Hf, Hm, Hc, Hpa.
  repeat split. exact Hp.
Qed.

(** After a run of raising ticks, the counter has grown by their number
    and the backoff is the formula at the new counter. *)
Lemma raising_ticks (ticks : list (env * session)) (d : downloader) :
  monitoring_paused d = false →
  Forall (fun t => raises (snd t) = true) ticks →
  ticks ≠ [] →
  let d' := run_ticks ticks d in
  failure_count d' = failure_count d + Z.of_nat (length ticks)
  ∧ current_backoff d'
    = Z.min (initial_backoff d * backoff_factor d ^ failure_count d')
            (max_backoff d)
  ∧ timer d' = mk_timer true (current_backoff d' * 1000)
  ∧ monitoring_paused d' = false.
Proof.
  cbv zeta. revert d.
  induction ticks as [|[ev s] ticks IH]; intros d Hp Hall Hne; [done|].
  apply Forall_cons in Hall as [Hs Hall]. simpl in Hs.
  destruct (check_emails_raises ev s d Hp Hs) as (F1 & F2 & F3 & F4 & F5 & F6 & F7).
  unfold run_ticks. simpl fold_left. fold (run_ticks ticks (check_emails ev s d)).
  destruct ticks as [|t ticks'].
  - change (run_ticks [] (check_emails ev s d)) with (check_emails ev s d).
    rewrite F3, F1, !F2, F7. done.
  - destruct (IH (check_emails ev s d) F7 Hall) as (G1 & G2 & G3 & G4); [done|].
    rewrite G3, G4, !G2, G1, F1, F4, F5, F6.
    replace (failure_count d + 1 + Z.of_nat (length (t :: ticks')))
      with (failure_count d + Z.of_nat (length ((ev, s) :: t :: ticks')))
      by (simpl length; lia).
    done.
Qed.

(** ** The ledger only grows *)

Lemma save_attachment_ledger ev uid subject from_ acc att :
  let d' := fst (save_attachment ev uid subject from_ acc att) in
  processed_uids d' = processed_uids (fst acc)
  ∧ processed_uids_file d' = processed_uids_file (fst acc).
Proof.
  destruct acc as [d n]. unfold save_attachment.
  destruct (Sanitize.sanitize_filename _); [done|].
  destruct (write_ok ev _); done.
Qed.

Lemma save_attachments_ledger ev uid subject from_ atts acc :
  let d' := fst (fold_left (save_attachment ev uid subject from_) atts acc) in
  processed_uids d' = processed_uids (fst acc)
  ∧ processed_uids_file d' = processed_uids_file (fst acc).
Proof.
  cbv zeta. revert acc. induction atts as [|a atts IH]; intros acc; simpl; [done|].
  destruct (IH (save_attachment ev uid subject from_ acc a)) as [-> ->].
  apply save_attachment_ledger.
Qed.

Lemma save_processed_uid_ledger ev uid d :
  let d' := save_processed_uid ev uid d in
  (ledger_ok ev uid = true ∧ processed_uids d' = {[uid]} ∪ processed_uids d
     ∧ processed_uids_file d' = processed_uids_file d ++ [uid])
  ∨ (ledger_ok ev uid = false ∧ processed_uids d' = processed_uids d
     ∧ processed_uids_file d' = processed_uids_file d).
Proof.
  unfold save_processed_uid, try_save_processed_uid.
  destruct (ledger_ok ev uid); [left | right]; done.
Qed.

(** One message: the set grows, and the only line that can be appended
    is the UID of the message, which was not in the set. *)
Lemma process_message_ledger ev acc msg :
  let d := fst acc in
  let d' := fst (process_message ev acc msg) in
  processed_uids d ⊆ processed_uids d'
  ∧ ∃ more, processed_uids_file d' = processed_uids_file d ++ more
            ∧ ∀ u, u ∈ more → u ∉ processed_uids d.
Proof.
  destruct acc as [d n]. cbv zeta. unfold process_message.
  case_bool_decide as Hin.
  { split; [done|]. exists []. split; [by rewrite app_nil_r | by inversion 1]. }
  assert (Hsave : ∀ d1, processed_uids d1 = processed_uids d →
            processed_uids_file d1 = processed_uids_file d →
            processed_uids d ⊆ processed_uids (save_processed_uid ev (msg_uid msg) d1)
            ∧ ∃ more, processed_uids_file (save_processed_uid ev (msg_uid msg) d1)
                      = processed_uids_file d ++ more
                      ∧ ∀ u, u ∈ more → u ∉ processed_uids d).
  { intros d1 Hu Hf.
    destruct (save_processed_uid_ledger ev (msg_uid msg) d1)
      as [(_ & -> & ->) | (_ & -> & ->)]; rewrite Hu, Hf.
    - split; [set_solver|]. exists [msg_uid msg]. split; [done|].
      intros u Hu'. apply list_elem_of_singleton in Hu'. by subst.
    - split; [done|]. exists []. split; [by rewrite app_nil_r | by inversion 1]. }
  destruct (msg_attachments msg) as [|a atts] eqn:Ha.
  - simpl. by apply Hsave.
  - rewrite <- Ha.
    destruct (fold_left _ (msg_attachments msg) _) as [d1 n1] eqn:Hfold.
    simpl. apply Hsave.
    + change d1 with (fst (d1, n1)). rewrite <- Hfold.
      by rewrite (proj1 (save_attachments_ledger _ _ _ _ _ _)).
    + change d1 with (fst (d1, n1)). rewrite <- Hfold.
      by rewrite (proj2 (save_attachments_ledger _ _ _ _ _ _)).
Qed.

Lemma fetch_ledger ev emails acc :
  let d := fst acc in
  let d' := fst (fold_left (process_message ev) emails acc) in
  processed_uids d ⊆ processed_uids d'
  ∧ ∃ more, processed_uids_file d' = processed_uids_file d ++ more
            ∧ ∀ u, u ∈ more → u ∉ processed_uids d.
Proof.
  cbv zeta. revert acc. induction emails as [|m emails IH]; intros acc; simpl.
  { split; [done|]. exists []. split; [by rewrite app_nil_r | by inversion 1]. }
  destruct (IH (process_message ev acc m)) as (Hsub & more2 & Hfile & Hnew).
  destruct (process_message_ledger ev acc m) as (Hsub1 & more1 & Hfile1 & Hnew1).
  split; [set_solver|].
  exists (more1 ++ more2). split.
  - rewrite Hfile, Hfile1. by rewrite app_assoc.
  - intros u Hu. apply elem_of_app in Hu as [Hu|Hu]; [by apply Hnew1|].
    apply Hnew in Hu. set_solver.
Qed.

(** One call of [check_emails], whatever the session does. *)
Lemma check_emails_ledger ev s d :
  let d' := check_emails ev s d in
  processed_uids d ⊆ processed_uids d'
  ∧ ∃ more, processed_uids_file d' = processed_uids_file d ++ more
            ∧ ∀ u, u ∈ more → u ∉ processed_uids d.
Proof.
  cbv zeta. unfold check_emails.
  destruct (monitoring_paused d).
  { split; [done|]. exists []. split; [by rewrite app_nil_r | by inversion 1]. }
  destruct s as [e|emails failure].
  { split; [done|]. exists []. split; [by rewrite app_nil_r | by inversion 1]. }
  pose proof (fetch_ledger ev emails
    (logging INFO ConnectedToFolder (logging INFO CheckingForNewEmails d), O)) as H.
  cbv zeta in H.
  destruct (fold_left _ emails _) as [d1 n1]. simpl in H.
  destruct failure as [e|]; [exact H|].
  destruct n1; exact H.
Qed.

(** ** A recorded message is passed over *)

Lemma fetch_skip ev uid emails acc :
  uid ∈ processed_uids (fst acc) →
  fold_left (process_message ev) emails acc
  = fold_left (process_message ev) (filter (fun m => msg_uid m ≠ uid) emails) acc.
Proof.
  revert acc. induction emails as [|m emails IH]; intros acc Hin; [done|].
  simpl fold_left. destruct (decide (msg_uid m = uid)) as [Heq|Hne].
  - rewrite filter_cons_False by (intros H; by apply H).
    assert (process_message ev acc m = acc) as ->.
    { destruct acc as [d n]. unfold process_message.
      rewrite Heq. simpl in Hin. by rewrite bool_decide_eq_true_2. }
    by apply IH.
  - rewrite filter_cons_True by done. simpl fold_left. apply IH.
    by apply (proj1 (process_message_ledger ev acc m)).
Qed.

(** ** The claims about the poller *)

(** C3, as amended. After N consecutive ticks (N at least 1) that each
    raise during the mailbox session, started with the failure counter at
    [c], the failure counter is [c + N], the current backoff is
    [min(initial_backoff * backoff_factor ^ (c + N), max_backoff)], and the
    timer runs with an interval of the current backoff in seconds (times
    1000 milliseconds) instead of the polling interval. Where the counter
    was 0 before the first of them, as at start-up, these are the counter
    N and the backoff [min(initial_backoff * backoff_factor ^ N,
    max_backoff)]. *)
Theorem consecutive_failures_backoff
    (ticks : list (env * session)) (d : downloader) :
  monitoring_paused d = false →
  ticks ≠ [] →
  Forall (fun t => raises (snd t) = true) ticks →
  let N := Z.of_nat (length ticks) in
  let c := failure_count d in
  let d' := run_ticks ticks d in
  (current_backoff d'
   = Z.min (initial_backoff d * backoff_factor d ^ (c + N)) (max_backoff d)
   ∧ failure_count d' = c + N
   ∧ timer d' = mk_timer true (current_backoff d' * 1000))
  ∧ (c = 0 →
     current_backoff d'
     = Z.min (initial_backoff d * backoff_factor d ^ N) (max_backoff d)
     ∧ failure_count d' = N).
Proof.
  intros Hp Hne Hall. cbv zeta.
  destruct (raising_ticks ticks d Hp Hall Hne) as (F1 & F2 & F3 & _).
  rewrite F1 in F2. split; [done|].
  intros H0. rewrite H0, Z.add_0_l in F1, F2. done.
Qed.

(** Three failures in a row after one failure and a completed tick that
    found nothing, with the default settings: the counter goes from 1 to
    4 and the backoff is 60 * 2^4 = 960 seconds. *)
Lemma consecutive_failures_backoff_witness :
  let d := run_ticks [(calm, LoginRaises MailError); (calm, Fetched [] None)]
             default_downloader in
  let ticks := [(calm, LoginRaises MailError);
                (calm, Fetched [invoice_mail (py "7")] (Some MailError));
                (calm, LoginRaises OSError)] in
  let d' := run_ticks ticks d in
  failure_count d = 1
  ∧ current_backoff d' = Z.min (60 * 2 ^ (1 + 3)) 3600
  ∧ failure_count d' = 1 + 3
  ∧ timer d' = mk_timer true (current_backoff d' * 1000).
Proof.
  intros d ticks. split; [reflexivity|].
  apply (proj1 (consecutive_failures_backoff ticks d eq_refl
                  ltac:(discriminate) ltac:(repeat constructor))).
Defined.

(** C3, as stated, fails: a failure, a completed tick that finds no new
    attachment and a second failure make a sequence of one consecutive
    failing tick, after which the counter is 2 and the backoff
    60 * 2^2 = 240 seconds, not 1 and 60 * 2^1 = 120 seconds. *)
Lemma failures_add_up_across_quiet_ticks :
  let failed := check_emails calm (LoginRaises MailError) default_downloader in
  let quiet := check_emails calm (Fetched [] None) failed in
  let d' := run_ticks [(calm, LoginRaises MailError)] quiet in
  raises (Fetched [] None) = false
  ∧ monitoring_paused quiet = false
  ∧ failure_count d' = 2
  ∧ current_backoff d' = 240
  ∧ timer d' = mk_timer true 240000
  ∧ Z.min (initial_backoff quiet * backoff_factor quiet ^ 1) (max_backoff quiet)
    = 120.
Proof. cbv zeta. repeat split. Qed.

(** C1, as amended. A tick that completes without raising and in which
    at least one new attachment was saved resets the failure counter to 0
    and the current backoff to the initial backoff; the tick does not
    restart the timer, which keeps the interval of its last start. *)
Theorem completed_tick_with_attachments_resets
    (ev : env) (emails : list message) (d : downloader) :
  monitoring_paused d = false →
  (0 < new_attachments_of ev emails d)%nat →
  let d' := check_emails ev (Fetched emails None) d in
  failure_count d' = 0
  ∧ current_backoff d' = initial_backoff d
  ∧ initial_backoff d' = initial_backoff d
  ∧ timer d' = timer d.
Proof.
  intros Hp Hn. cbv zeta.
  destruct (check_emails_unfold ev (Fetched emails None) d Hp) as (d0 & Hsch & ->).
  apply schedule_inv in Hsch as (Hi & _ & _ & _ & _ & _ & Ht & _).
  destruct (new_attachments_of ev emails d) as [|n]; [lia|].
  simpl. by rewrite Hi, Ht.
Qed.

Lemma completed_tick_with_attachments_resets_witness :
  let d := check_emails calm (LoginRaises MailError) default_downloader in
  let d' := check_emails calm (Fetched [invoice_mail (py "55")] None) d in
  failure_count d = 1 ∧ current_backoff d = 120
  ∧ failure_count d' = 0
  ∧ current_backoff d' = initial_backoff d
  ∧ initial_backoff d' = initial_backoff d
  ∧ timer d' = timer d.
Proof.
  intros d. split; [reflexivity|]. split; [reflexivity|].
  apply (completed_tick_with_attachments_resets calm [invoice_mail (py "55")] d);
    [reflexivity | vm_compute; lia].
Defined.

(** C1, as stated, fails. After one failure, a tick that completes
    without raising and finds no new attachment leaves the failure counter
    at 1 and the backoff at 120 seconds; and a tick that completes
    with a new attachment still leaves the timer at the backoff interval
    of 120000 ms, not at the polling interval of 600000 ms. *)
Lemma completed_tick_does_not_always_reset :
  let failed := check_emails calm (LoginRaises MailError) default_downloader in
  let quiet := check_emails calm (Fetched [] None) failed in
  let busy := check_emails calm (Fetched [invoice_mail (py "55")] None) failed in
  (failure_count quiet = 1
   ∧ current_backoff quiet = 120 ∧ initial_backoff quiet = 60
   ∧ timer quiet = mk_timer true 120000)
  ∧ (download_folder busy ≠ ∅
     ∧ timer busy = mk_timer true 120000
     ∧ polling_interval busy * 1000 = 600000).
Proof.
  cbv zeta. split; [repeat split|]. split; [|split; reflexivity].
  intros H. apply (f_equal (fun m => size m)) in H. vm_compute in H. discriminate.
Qed.

(** C8. [save_processed_uid] adds the UID to the set only together with
    the line appended to the ledger file; when the append raises, the set
    and the file are as before, the failure is logged at error level, and
    the handler returns normally whatever was raised. *)
Theorem save_processed_uid_spec (ev : env) (uid : str) (d : downloader) :
  let d' := save_processed_uid ev uid d in
  (∀ d1, try_save_processed_uid ev uid d = Returns d1 →
         d' = d1
         ∧ processed_uids_file d' = processed_uids_file d ++ [uid]
         ∧ processed_uids d' = {[uid]} ∪ processed_uids d
         ∧ log d' = log d ++ [(INFO, SavedProcessedUid uid)])
  ∧ (∀ e, try_save_processed_uid ev uid d = Raises e →
          processed_uids d' = processed_uids d
          ∧ processed_uids_file d' = processed_uids_file d
          ∧ log d' = log d ++ [(ERROR, FailedToSaveProcessedUid uid)])
  ∧ (processed_uids d' ≠ processed_uids d →
     ledger_ok ev uid = true ∧ last (processed_uids_file d') = Some uid).
Proof.
  cbv zeta. unfold save_processed_uid, try_save_processed_uid.
  destruct (ledger_ok ev uid); (split; [|split]).
  - intros d1 [= <-]. done.
  - intros e [=].
  - intros _. split; [done | apply last_snoc].
  - intros d1 [=].
  - intros e _. done.
  - intros H. by destruct H.
Qed.

Lemma save_processed_uid_spec_witness :
  let broken := mk_env (py "20240315") (py "20240315120000")
                  (fun _ => true) (fun _ => false) in
  let d' := save_processed_uid broken (py "55") default_downloader in
  processed_uids d' = processed_uids default_downloader
  ∧ processed_uids_file d' = processed_uids_file default_downloader
  ∧ log d' = log default_downloader
             ++ [(ERROR, FailedToSaveProcessedUid (py "55"))].
Proof.
  intros broken.
  apply (proj1 (proj2 (save_processed_uid_spec broken (py "55") default_downloader))
               OSError).
  reflexivity.
Defined.

Lemma pause_resume_ledger d :
  processed_uids (pause_monitoring d) = processed_uids d
  ∧ processed_uids_file (pause_monitoring d) = processed_uids_file d
  ∧ processed_uids (resume_monitoring d) = processed_uids d
  ∧ processed_uids_file (resume_monitoring d) = processed_uids_file d.
Proof.
  unfold pause_monitoring, resume_monitoring.
  destruct (monitoring_paused d); done.
Qed.

Lemma run_ledger ops d :
  processed_uids d ⊆ processed_uids (run ops d)
  ∧ ∃ more, processed_uids_file (run ops d) = processed_uids_file d ++ more.
Proof.
  revert d. induction ops as [|op ops IH]; intros d.
  { split; [done|]. exists []. by rewrite app_nil_r. }
  unfold run. simpl fold_left. fold (run ops (apply_operation d op)).
  destruct (IH (apply_operation d op)) as (Hsub & more2 & Hfile).
  rewrite Hfile.
  destruct (pause_resume_ledger d) as (P1 & P2 & R1 & R2).
  destruct op as [ev s| |]; simpl in *.
  - destruct (check_emails_ledger ev s d) as (Hsub1 & more1 & Hf1 & _).
    rewrite Hf1. split; [set_solver|]. exists (more1 ++ more2). by rewrite app_assoc.
  - rewrite P1 in Hsub. rewrite P2. split; [done | by exists more2].
  - rewrite R1 in Hsub. rewrite R2. split; [done | by exists more2].
Qed.

(** C4. The set of processed UIDs and the ledger file only grow, whatever
    is done to the downloader; and once a UID is in the set, every later
    tick handles the fetched messages as if those with that UID were not
    among them: nothing is written for them, and the UID is not among the
    lines the tick appends to the ledger file. *)
Theorem recorded_uid_never_reprocessed (d : downloader) (ops : list operation) :
  let d1 := run ops d in
  processed_uids d ⊆ processed_uids d1
  ∧ (∃ more, processed_uids_file d1 = processed_uids_file d ++ more)
  ∧ ∀ uid ev emails failure,
      uid ∈ processed_uids d →
      let d2 := check_emails ev (Fetched emails failure) d1 in
      d2 = check_emails ev
             (Fetched (filter (fun m => msg_uid m ≠ uid) emails) failure) d1
      ∧ (∃ more, processed_uids_file d2 = processed_uids_file d1 ++ more
                 ∧ uid ∉ more)
      ∧ uid ∈ processed_uids d2.
Proof.
  cbv zeta. destruct (run_ledger ops d) as (Hsub & Hfile).
  split; [exact Hsub|]. split; [exact Hfile|].
  intros uid ev emails failure Hin.
  assert (Hin1 : uid ∈ processed_uids (run ops d)) by set_solver.
  split; [|split].
  - unfold check_emails. destruct (monitoring_paused (run ops d)); [done|].
    by rewrite (fetch_skip ev uid emails).
  - destruct (check_emails_ledger ev (Fetched emails failure) (run ops d))
      as (_ & more & Hf & Hnew).
    exists more. split; [exact Hf|]. intros Hu. by apply Hnew in Hu.
  - by apply (proj1 (check_emails_ledger ev (Fetched emails failure) (run ops d))).
Qed.

(** A mail is handled in a first tick; fetched again after a pause and a
    resume, it is passed over. *)
Lemma recorded_uid_never_reprocessed_witness :
  let d := check_emails calm (Fetched [invoice_mail (py "55")] None)
             default_downloader in
  let d1 := run [Pause; Resume] d in
  let d2 := check_emails calm (Fetched [invoice_mail (py "55")] None) d1 in
  d2 = check_emails calm (Fetched [] None) d1
  ∧ (∃ more, processed_uids_file d2 = processed_uids_file d1 ++ more
             ∧ py "55" ∉ more)
  ∧ py "55" ∈ processed_uids d2.
Proof.
  intros d.
  apply (proj2 (proj2 (recorded_uid_never_reprocessed d [Pause; Resume]))
               (py "55") calm [invoice_mail (py "55")] None).
  vm_compute. set_solver.
Defined.

End PollerFacts.

(* ===================================================================== *)
(** * The two patterns: what they accept *)
(* ===================================================================== *)

Module PatternsFacts.
Import PyStr Patterns.

Lemma span_split (p : ascii → bool) (s a r : str) :
  span p s = (a, r) →
  s = a ++ r ∧ Forall (fun c => p c = true) a
  ∧ match r with [] => True | c :: _ => p c = false end.
Proof.
  revert a r. induction s as [|c s IH]; intros a r; simpl.
  - intros [= <- <-]. done.
  - destruct (p c) eqn:Hc.
    + destruct (span p s) as [a' r'] eqn:Hs. intros [= <- <-].
      destruct (IH a' r' eq_refl) as (-> & Ha & Hr).
      split; [done|]. split; [by constructor | done].
    + intros [= <- <-]. split; [done|]. split; [constructor | done].
Qed.

(** The greedy run is the only way to cut [s] into a run of the class
    and a rest that does not go on with the class. *)
Lemma span_unique (p : ascii → bool) (a r : str) :
  Forall (fun c => p c = true) a →
  match r with [] => True | c :: _ => p c = false end →
  span p (a ++ r) = (a, r).
Proof.
  intros Ha Hr. induction Ha as [|c a Hc Ha IH]; simpl.
  - destruct r as [|c r]; [done|]. simpl. by rewrite Hr.
  - by rewrite Hc, IH.
Qed.

Lemma strip_prefix_spec (lit s r : str) :
  strip_prefix lit s = Some r ↔ s = lit ++ r.
Proof.
  revert s. induction lit as [|a lit IH]; intros s; simpl.
  - split; [by intros [= ->] | by intros ->].
  - destruct s as [|b s]; [done|].
    destruct (decide (a = b)) as [->|Hne].
    + rewrite IH. split; [by intros -> | by intros [= ->]].
    + split; [done | intros [= -> _]; done].
Qed.

Lemma digit_is_word (c : ascii) : is_digit c = true → is_word c = true.
Proof.
  intros H. unfold is_word, is_ascii_alnum. rewrite H.
  by rewrite !orb_true_r.
Qed.

(** The second pattern accepts exactly the numbered names. *)
Lemma match_seq_spec (company_name f : str) (d : N) :
  match_seq company_name f = Some d ↔ numbered_name company_name f d.
Proof.
  unfold match_seq, numbered_name. split.
  - destruct (strip_prefix _ f) as [r|] eqn:Hp; [|done].
    apply strip_prefix_spec in Hp.
    destruct (span is_digit r) as [ds rest] eqn:Hs.
    apply span_split in Hs as (-> & Hds & _).
    destruct ds as [|c ds]; [done|].
    destruct (boundary_after_word rest) eqn:Hb; [|done].
    intros [= <-]. exists (c :: ds), rest.
    rewrite Hp, <- app_assoc. done.
  - intros (ds & rest & -> & Hne & Hds & Hb & ->).
    assert (strip_prefix (company_name ++ [chr 45])
              (company_name ++ [chr 45] ++ ds ++ rest) = Some (ds ++ rest)) as ->.
    { apply strip_prefix_spec. by rewrite <- app_assoc. }
    rewrite span_unique; [| exact Hds |].
    + destruct ds; [done|]. by rewrite Hb.
    + destruct rest as [|c rest]; [done|]. simpl in Hb.
      destruct (is_digit c) eqn:Hc; [|done].
      apply digit_is_word in Hc. by rewrite Hc in Hb.
Qed.

Lemma max_default0_spec (numbers : list N) :
  (∀ d, d ∈ numbers → (d <= max_default0 numbers)%N)
  ∧ (numbers = [] ∧ max_default0 numbers = 0%N
     ∨ max_default0 numbers ∈ numbers).
Proof.
  destruct numbers as [|n ns]; simpl.
  { split; [by inversion 1 | by left]. }
  assert (H : ∀ ns n, (n <= fold_left N.max ns n)%N
                      ∧ (∀ d, d ∈ ns → (d <= fold_left N.max ns n)%N)
                      ∧ (fold_left N.max ns n = n ∨ fold_left N.max ns n ∈ ns)).
  { clear. induction ns as [|m ns IH]; intros n; simpl.
    - split; [lia|]. split; [by inversion 1 | by left].
    - destruct (IH (N.max n m)) as (H1 & H2 & H3). split; [lia|]. split.
      + intros d Hd. apply elem_of_cons in Hd as [->|Hd]; [lia | by apply H2].
      + destruct H3 as [H3|H3]; [|right; by right].
        rewrite H3.
        destruct (N.max_spec n m) as [[_ ->]|[_ ->]]; [right; by left | by left]. }
  destruct (H ns n) as (H1 & H2 & H3). split.
  - intros d Hd. apply elem_of_cons in Hd as [->|Hd]; [done | by apply H2].
  - right. destruct H3 as [->|H3]; [by left | by right].
Qed.

(** [next_number] is one past the largest number among the numbered
    names, and 1 when no name is numbered. *)
Lemma next_number_spec (company_name : str) (existing_files : list str) :
  one_past_the_largest company_name existing_files
    (next_number company_name existing_files).
Proof.
  unfold one_past_the_largest, next_number.
  set (numbers := omap (match_seq company_name) existing_files).
  destruct (max_default0_spec numbers) as (Hmax & Hcase).
  assert (Hin : ∀ d, d ∈ numbers ↔
                     ∃ f, f ∈ existing_files ∧ numbered_name company_name f d).
  { intros d. unfold numbers. rewrite list_elem_of_omap.
    by setoid_rewrite match_seq_spec. }
  split.
  - intros f d Hf Hd.
    assert (d ∈ numbers) as Hd' by (apply Hin; eauto).
    apply Hmax in Hd'. lia.
  - destruct Hcase as [[Hnil ->]|Hm].
    + left. split; [done|]. intros f d Hf Hd.
      assert (d ∈ numbers) as Hd' by (apply Hin; eauto).
      rewrite Hnil in Hd'. by inversion Hd'.
    + right. apply Hin in Hm as (f & Hf & Hd). by exists f, (max_default0 numbers).
Qed.

(** The first pattern accepts exactly the names with a leading address,
    and [group(1)] is that address. *)
Lemma match_email_spec (filename g : str) :
  match_email filename = Some g ↔ leading_email filename g.
Proof.
  unfold match_email, leading_email. split.
  - destruct (span local_char filename) as [loc r1] eqn:H1.
    apply span_split in H1 as (-> & Hloc & _).
    destruct loc as [|l0 loc]; [done|]. destruct r1 as [|c1 r2]; [done|].
    destruct (is_code 64 c1) eqn:Hc1; [|done].
    destruct (span domain_char r2) as [dom r3] eqn:H2.
    apply span_split in H2 as (-> & Hdom & _).
    destruct dom as [|d0 dom]; [done|]. destruct r3 as [|c2 r4]; [done|].
    destruct (is_code 46 c2) eqn:Hc2; [|done].
    destruct (span suffix_char r4) as [suf r5] eqn:H3.
    apply span_split in H3 as (-> & Hsuf & _).
    destruct suf as [|s0 suf]; [done|]. destruct r5 as [|c3 r6]; [done|].
    destruct (is_code 95 c3) eqn:Hc3; [|done].
    intros [= <-].
    assert (c1 = chr 64) as ->.
    { apply N.eqb_eq in Hc1. unfold code in Hc1.
      by rewrite <- (ascii_N_embedding c1), Hc1. }
    assert (c2 = chr 46) as ->.
    { apply N.eqb_eq in Hc2. unfold code in Hc2.
      by rewrite <- (ascii_N_embedding c2), Hc2. }
    assert (c3 = chr 95) as ->.
    { apply N.eqb_eq in Hc3. unfold code in Hc3.
      by rewrite <- (ascii_N_embedding c3), Hc3. }
    exists (l0 :: loc), (d0 :: dom), (s0 :: suf), r6.
    repeat split; try done.
    simpl. rewrite <- ?app_assoc. simpl. rewrite <- ?app_assoc. done.
  - intros (loc & dom & suf & rest & -> & -> & Hl & Hd & Hs & Hloc & Hdom & Hsuf).
    replace ((loc ++ [chr 64] ++ dom ++ [chr 46] ++ suf) ++ [chr 95] ++ rest)
      with (loc ++ chr 64 :: (dom ++ chr 46 :: (suf ++ chr 95 :: rest)))
      by (rewrite <- ?app_assoc; simpl; by rewrite <- ?app_assoc).
    rewrite (span_unique local_char loc) by done.
    destruct loc as [|l0 loc]; [done|].
    change (is_code 64 (chr 64)) with true. cbv iota.
    rewrite (span_unique domain_char dom) by done.
    destruct dom as [|d0 dom]; [done|].
    change (is_code 46 (chr 46)) with true. cbv iota.
    rewrite (span_unique suffix_char suf) by done.
    destruct suf as [|s0 suf]; [done|].
    change (is_code 95 (chr 95)) with true. cbv iota.
    done.
Qed.

End PatternsFacts.

(* ===================================================================== *)
(** * The file system operations *)
(* ===================================================================== *)

Module FSFacts.
Import FS.

Section ops.
Variable norm : str → str.

Lemma key_length (p : path) : length (key norm p) = length p.
Proof. unfold key. apply length_fmap. Qed.

Lemma key_app (p q : path) : key norm (p ++ q) = key norm p ++ key norm q.
Proof. unfold key. apply fmap_app. Qed.

Lemma elem_of_listdir (t : tree) (d : path) (g : str) :
  g ∈ listdir norm t d ↔
  ∃ k e, t !! k = Some e ∧ length k = S (length d)
         ∧ take (length d) k = key norm d ∧ e_name e = g.
Proof.
  unfold listdir. rewrite list_elem_of_omap. split.
  - intros ([k e] & Hin & Hf). apply elem_of_map_to_list in Hin.
    case_decide as Hk; [|done]. injection Hf as <-.
    destruct Hk as [Hlen Htake]. by exists k, e.
  - intros (k & e & Hke & Hlen & Htake & <-). exists (k, e).
    split; [by apply elem_of_map_to_list|].
    by rewrite decide_True.
Qed.

(** [makedirs] keeps every entry, and what it adds are directories at
    the path itself or above it. *)
Lemma makedirs_from_spec (rest : path) :
  ∀ (t : tree) (above : path) (t1 : tree) (r : option exn),
    makedirs_from norm t above rest = (t1, r) →
    ∀ k, t1 !! k = t !! k
         ∨ (t !! k = None
            ∧ (∃ c, t1 !! k = Some (mk_entry c Dir))
            ∧ length k <= length above + length rest)%nat.
Proof.
  induction rest as [|c rest IH]; intros t above t1 r; simpl.
  - intros [= <- <-] k. by left.
  - destruct (t !! key norm (above ++ [c])) as [[nm [content|]]|] eqn:Hq.
    + intros [= <- <-] k. by left.
    + intros H k. destruct (IH _ _ _ _ H k) as [Hk|(Hk & Hd & Hlen)]; [by left|].
      right. split; [done|]. split; [done|].
      rewrite length_app in Hlen. simpl in Hlen. lia.
    + intros H k.
      destruct (decide (k = key norm (above ++ [c]))) as [->|Hne].
      * right. split; [done|].
        destruct (IH _ _ _ _ H (key norm (above ++ [c]))) as [Hk|(Hk & _)].
        -- rewrite lookup_insert_eq in Hk. split; [by exists c|].
           rewrite key_length, length_app. simpl. lia.
        -- by rewrite lookup_insert_eq in Hk.
      * destruct (IH _ _ _ _ H k) as [Hk|(Hk & Hd & Hlen)].
        -- left. by rewrite Hk, lookup_insert_ne.
        -- right. rewrite lookup_insert_ne in Hk by done.
           split; [done|]. split; [done|].
           rewrite length_app in Hlen. simpl in Hlen. lia.
Qed.

Lemma makedirs_keeps (t : tree) (p : path) (t1 : tree) (r : option exn)
    (k : path) (e : entry) :
  makedirs norm t p = (t1, r) → t !! k = Some e → t1 !! k = Some e.
Proof.
  intros H Hk. destruct (makedirs_from_spec _ _ _ _ _ H k) as [->|(Hn & _)];
    [done | congruence].
Qed.

Lemma makedirs_adds_dirs (t : tree) (p : path) (t1 : tree) (r : option exn)
    (k : path) (e : entry) :
  makedirs norm t p = (t1, r) → t1 !! k = Some e →
  t !! k = Some e ∨ (t !! k = None ∧ e_node e = Dir ∧ (length k <= length p)%nat).
Proof.
  intros H Hk.
  destruct (makedirs_from_spec _ _ _ _ _ H k) as [Heq|(Hn & [c Hc] & Hlen)].
  - left. congruence.
  - right. rewrite Hc in Hk. injection Hk as <-. simpl in Hlen. done.
Qed.

(** The names in the folder that was made are those that were there. *)
Lemma listdir_makedirs (t : tree) (p : path) (t1 : tree) (r : option exn)
    (g : str) :
  makedirs norm t p = (t1, r) →
  g ∈ listdir norm t1 p ↔ g ∈ listdir norm t p.
Proof.
  intros H. rewrite !elem_of_listdir. split.
  - intros (k & e & Hk & Hlen & Htake & Hg).
    destruct (makedirs_adds_dirs _ _ _ _ _ _ H Hk) as [Hk'|(_ & _ & Hl)]; [|lia].
    by exists k, e.
  - intros (k & e & Hk & Hlen & Htake & Hg).
    exists k, e. split; [|done]. by eapply makedirs_keeps.
Qed.

Lemma exists_lookup (t : tree) (p : path) :
  p ≠ [] → exists_ norm t p = bool_decide (is_Some (t !! key norm p)).
Proof. by destruct p. Qed.

(** The entries of the top folder of a well keyed tree have pairwise
    different normal forms. *)
Lemma listdir_top_unique (t : tree) (g : str) (e : entry) :
  well_keyed norm t →
  g ∈ listdir norm t [] →
  t !! key norm [e_name e] = Some e →
  norm g = norm (e_name e) → g = e_name e.
Proof.
  intros Hwk Hg He Hn.
  apply elem_of_listdir in Hg as (k & e' & Hk & Hlen & _ & <-).
  destruct (Hwk k e' Hk) as [parent ->].
  rewrite length_app in Hlen. simpl in Hlen.
  destruct parent; [|simpl in Hlen; lia]. simpl in Hk.
  unfold key in He. simpl in He. rewrite Hn in Hk.
  congruence.
Qed.

Lemma well_keyed_empty : well_keyed norm ∅.
Proof. intros k e Hk. by rewrite lookup_empty in Hk. Qed.

Lemma well_keyed_add_entry (parent : path) (name : str) (n : node) (t : tree) :
  well_keyed norm t → well_keyed norm (add_entry norm parent name n t).
Proof.
  intros Hwk k e. unfold add_entry.
  destruct (decide (k = key norm (parent ++ [name]))) as [->|Hne].
  - rewrite lookup_insert_eq. intros [= <-]. exists (key norm parent).
    by rewrite key_app.
  - rewrite lookup_insert_ne by done. apply Hwk.
Qed.

End ops.

End FSFacts.

(* ===================================================================== *)
(** * [process_files]: numbering, conflicts, and files without a rule *)
(* ===================================================================== *)

Module ClassifierFacts.
Import PyStr Calendar Rules Patterns FS Classifier PatternsFacts FSFacts.

Section run.
Variable norm : str → str.
Variable companies : gmap str rules.
Variable today : date.

Local Abbreviation process_one := (process_one norm companies today).
Local Abbreviation process_loop := (process_loop norm companies today).
Local Abbreviation destination := (destination norm companies today).
Local Abbreviation rule_of := (rule_of companies).

(** Case analysis along the branches of one iteration. *)
Ltac branches filename :=
  unfold Classifier.process_one, Classifier.destination, Classifier.rule_of in *;
  destruct (isfile norm _ [filename]) eqn:Hfile; simpl negb; cbv iota;
  [ destruct (match_email filename) as [g0|] eqn:Hg0;
    [ destruct (companies !! lower g0) as [rl0|] eqn:Hrl0;
      [ destruct (get_target_date today (r_month_offset rl0) (r_day_offset rl0))
          as [td0|e0] eqn:Hdate0;
        [ destruct (makedirs norm _ (target_folder_of rl0 td0))
            as [tm0 [e0|]] eqn:Hmk0 | ] | ] | ] | ].

Lemma process_one_unmatched (st : state) (filename : str) :
  isfile norm (fs st) [filename] = true →
  rule_of filename = None →
  process_one st filename = (print (unmatched_report filename) st, None).
Proof.
  intros Hf Hr. unfold unmatched_report.
  branches filename; try done.
Qed.

(** An iteration that finds a destination either reports the conflict
    or moves the file there. *)
Lemma process_one_destination (st : state) (filename : str)
    (t1 : tree) (dest : path) :
  destination st filename = Some (t1, dest) →
  process_one st filename
  = if exists_ norm t1 dest
    then (print (FileExistsNotOverwritten dest) (mk_state t1 (printed st)), None)
    else match move norm t1 [filename] dest with
         | (t2, Some e) => (mk_state t2 (printed st), Some e)
         | (t2, None) => (print (MovedFileTo dest) (mk_state t2 (printed st)), None)
         end.
Proof.
  intros Hd. branches filename; try done.
  by injection Hd as <- <-.
Qed.

(** An iteration without a destination leaves every entry in place. *)
Lemma process_one_no_destination (st st' : state) (filename : str)
    (r : option exn) :
  destination st filename = None →
  process_one st filename = (st', r) →
  ∀ k e, fs st !! k = Some e → fs st' !! k = Some e.
Proof.
  intros Hd H k e Hk. branches filename; try done;
    injection H as <- <-; try done.
  simpl. by eapply makedirs_keeps.
Qed.

Lemma destination_makedirs (st : state) (filename : str)
    (t1 : tree) (dest : path) :
  destination st filename = Some (t1, dest) →
  ∃ rl target_date,
    isfile norm (fs st) [filename] = true
    ∧ rule_of filename = Some rl
    ∧ get_target_date today (r_month_offset rl) (r_day_offset rl)
      = Returns target_date
    ∧ makedirs norm (fs st) (target_folder_of rl target_date) = (t1, None)
    ∧ dest = target_folder_of rl target_date
             ++ [new_filename_of rl
                   (listdir norm t1 (target_folder_of rl target_date)) filename].
Proof.
  intros Hd. branches filename; try done.
  injection Hd as <- <-. by exists rl0, td0.
Qed.

(** Whatever an iteration does, an entry other than the file it
    handles stays as it is. *)
Lemma process_one_frame (st st' : state) (filename : str) (r : option exn)
    (k : path) (e : entry) :
  process_one st filename = (st', r) →
  fs st !! k = Some e →
  k ≠ key norm [filename] →
  fs st' !! k = Some e.
Proof.
  intros H Hk Hne.
  destruct (destination st filename) as [[t1 dest]|] eqn:Hd;
    [|by eapply process_one_no_destination].
  rewrite (process_one_destination _ _ _ _ Hd) in H.
  destruct (destination_makedirs _ _ _ _ Hd) as (rl & td & _ & _ & _ & Hmk & Hdest).
  pose proof (makedirs_keeps _ _ _ _ _ _ _ Hmk Hk) as Hk1.
  destruct (exists_ norm t1 dest) eqn:Hex.
  - by injection H as <- <-.
  - rewrite exists_lookup in Hex by (rewrite Hdest; by destruct (target_folder_of rl td)).
    apply bool_decide_eq_false_1 in Hex.
    assert (k ≠ key norm dest) by (intros ->; apply Hex; eauto).
    unfold move in H.
    destruct (t1 !! key norm [filename]) as [src|];
      injection H as <- <-; simpl; [|done].
    by rewrite lookup_insert_ne, lookup_delete_ne.
Qed.

Lemma process_one_printed (st st' : state) (filename : str) (r : option exn) :
  process_one st filename = (st', r) →
  ∃ more, printed st' = printed st ++ more.
Proof.
  intros H.
  destruct (destination st filename) as [[t1 dest]|] eqn:Hd.
  - rewrite (process_one_destination _ _ _ _ Hd) in H.
    destruct (exists_ norm t1 dest); [injection H as <- <-; by eexists|].
    destruct (move norm t1 [filename] dest) as [t2 [e|]];
      injection H as <- <-; simpl; [exists []; by rewrite app_nil_r | by eexists].
  - branches filename; try discriminate Hd; injection H as <- <-; simpl;
      try (by eexists); exists []; by rewrite app_nil_r.
Qed.

Lemma one_past_the_largest_ext (company_name : str) (l1 l2 : list str) (n : N) :
  (∀ f, f ∈ l1 ↔ f ∈ l2) →
  one_past_the_largest company_name l1 n →
  one_past_the_largest company_name l2 n.
Proof.
  intros Heq (Hlt & Hcase). split.
  - intros f d Hf. apply Hlt. by apply Heq.
  - destruct Hcase as [[-> Hnone]|(f & d & Hf & Hd & ->)].
    + left. split; [done|]. intros f d Hf. apply Hnone. by apply Heq.
    + right. exists f, d. split; [by apply Heq | done].
Qed.

(** C5. When an iteration moves a file under a numbered rule, the
    number [n] in the destination name [<prefix>-<n><ext>] is one more
    than the largest number among the names in the target folder that
    are [<prefix>-<digits>] up to a word boundary, and 1 when the folder
    holds no such name. *)
Theorem sequence_number_is_one_past_the_largest
    (st st' : state) (filename : str) (new_file_path : path) :
  process_one st filename = (st', None) →
  printed st' = printed st ++ [MovedFileTo new_file_path] →
  ∃ rl target_date n,
    rule_of filename = Some rl
    ∧ get_target_date today (r_month_offset rl) (r_day_offset rl)
      = Returns target_date
    ∧ (r_numbered_files rl = true →
       new_file_path
       = target_folder_of rl target_date
         ++ [r_name rl ++ [chr 45] ++ str_of_N n ++ snd (splitext filename)]
       ∧ one_past_the_largest (r_name rl)
           (listdir norm (fs st) (target_folder_of rl target_date)) n).
Proof.
  intros H Hp.
  destruct (destination st filename) as [[t1 dest]|] eqn:Hd.
  - rewrite (process_one_destination _ _ _ _ Hd) in H.
    destruct (destination_makedirs _ _ _ _ Hd)
      as (rl & td & _ & Hrl & Hdate & Hmk & Hdest).
    assert (new_file_path = dest) as ->.
    { destruct (exists_ norm t1 dest).
      - injection H as <-. simpl in Hp. by apply app_inv_head in Hp.
      - destruct (move norm t1 [filename] dest) as [t2 [e|]]; [done|].
        injection H as <-. simpl in Hp. apply app_inv_head in Hp. congruence. }
    exists rl, td, (next_number (r_name rl) (listdir norm t1 (target_folder_of rl td))).
    split; [done|]. split; [done|]. intros Hnum. split.
    + rewrite Hdest. unfold new_filename_of. by rewrite Hnum.
    + eapply one_past_the_largest_ext; [|apply next_number_spec].
      intros f. by eapply listdir_makedirs.
  - exfalso. branches filename; try discriminate Hd; try discriminate H;
      injection H as <-; simpl in Hp; apply app_inv_head in Hp; discriminate.
Qed.

(** C6. When the destination computed for a file exists already, the
    iteration stops at the report of the conflict: the source file and
    the file at the destination are as before, nothing but the
    directories on the way to the target folder was created, no other
    number is tried, and the loop goes on. *)
Theorem existing_destination_is_skipped
    (st : state) (filename : str) (t1 : tree) (dest : path) :
  destination st filename = Some (t1, dest) →
  exists_ norm t1 dest = true →
  ∃ st',
    process_one st filename = (st', None)
    ∧ printed st' = printed st ++ [FileExistsNotOverwritten dest]
    ∧ (∀ k e, fs st !! k = Some e → fs st' !! k = Some e)
    ∧ (∀ k e, fs st' !! k = Some e →
              fs st !! k = Some e ∨ (fs st !! k = None ∧ e_node e = Dir))
    ∧ isfile norm (fs st') [filename] = true
    ∧ (∃ e, fs st !! key norm dest = Some e ∧ fs st' !! key norm dest = Some e).
Proof.
  intros Hd Hex.
  rewrite (process_one_destination _ _ _ _ Hd), Hex.
  destruct (destination_makedirs _ _ _ _ Hd)
    as (rl & td & Hfile & _ & _ & Hmk & Hdest).
  eexists. split; [reflexivity|]. simpl. split; [done|].
  split; [intros k e; by eapply makedirs_keeps|].
  split; [|split].
  - intros k e Hk.
    destruct (makedirs_adds_dirs _ _ _ _ _ _ _ Hmk Hk) as [?|(? & ? & _)]; auto.
  - unfold isfile in *.
    destruct (fs st !! key norm [filename]) as [src|] eqn:Hsrc; [|done].
    by rewrite (makedirs_keeps _ _ _ _ _ _ _ Hmk Hsrc).
  - rewrite exists_lookup in Hex
      by (rewrite Hdest; by destruct (target_folder_of rl td)).
    apply bool_decide_eq_true_1 in Hex as [e He]. exists e. split; [|done].
    destruct (makedirs_adds_dirs _ _ _ _ _ _ _ Hmk He) as [?|(_ & _ & Hlen)]; [done|].
    rewrite key_length, Hdest, length_app in Hlen. simpl in Hlen. lia.
Qed.

(** ** Files no rule applies to *)

Lemma destination_needs_rule (st : state) (filename : str) :
  rule_of filename = None → destination st filename = None.
Proof.
  intros H. unfold Classifier.destination.
  destruct (isfile norm (fs st) [filename]); [|done].
  fold (rule_of filename). by rewrite H.
Qed.

Lemma process_loop_printed (listing : list str) :
  ∀ st st' r, process_loop st listing = (st', r) →
              ∃ more, printed st' = printed st ++ more.
Proof.
  induction listing as [|g listing IH]; intros st st' r; simpl.
  - intros [= <- <-]. exists []. by rewrite app_nil_r.
  - destruct (process_one st g) as [st1 [e|]] eqn:H1.
    + intros [= <- <-]. by eapply process_one_printed.
    + intros H. destruct (process_one_printed _ _ _ _ H1) as [m1 Hm1].
      destruct (IH _ _ _ H) as [m2 Hm2].
      exists (m1 ++ m2). by rewrite Hm2, Hm1, app_assoc.
Qed.

(** An entry stays as it is through the loop unless a rule applies to
    a listed name that the file system identifies with it. *)
Lemma process_loop_frame (listing : list str) (k : path) (e : entry) :
  (∀ g, g ∈ listing → key norm [g] = k → rule_of g = None) →
  ∀ st st' r, process_loop st listing = (st', r) →
              fs st !! k = Some e → fs st' !! k = Some e.
Proof.
  induction listing as [|g listing IH]; intros Hg st st' r; simpl.
  - by intros [= <- <-].
  - destruct (process_one st g) as [st1 r1] eqn:H1.
    intros H Hk.
    assert (fs st1 !! k = Some e) as Hk1.
    { destruct (decide (key norm [g] = k)) as [Heq|Hne].
      - eapply process_one_no_destination; [|exact H1|exact Hk].
        apply destination_needs_rule, Hg; [by left | done].
      - by eapply process_one_frame. }
    destruct r1 as [e1|]; [by injection H as <- <-|].
    eapply IH; [|exact H|exact Hk1].
    intros g' Hin. apply Hg. by right.
Qed.

(** A loop that runs to its end has printed the line of every listed
    file no rule applies to. *)
Lemma process_loop_reports (listing : list str) (filename : str)
    (e : entry) (content : str) :
  e_node e = File content →
  rule_of filename = None →
  (∀ g, g ∈ listing → key norm [g] = key norm [filename] → rule_of g = None) →
  filename ∈ listing →
  ∀ st st', process_loop st listing = (st', None) →
            fs st !! key norm [filename] = Some e →
            unmatched_report filename ∈ printed st'.
Proof.
  intros He Hr. induction listing as [|g listing IH]; intros Hg Hin st st'.
  { by inversion Hin. }
  cbn [Classifier.process_loop].
  destruct (process_one st g) as [st1 [e1|]] eqn:H1; [done|].
  intros H Hk.
  destruct (decide (g = filename)) as [->|Hne].
  - rewrite process_one_unmatched in H1; [| |done].
    + injection H1 as <-.
      destruct (process_loop_printed _ _ _ _ H) as [more ->]. simpl.
      set_solver.
    + unfold isfile. rewrite Hk. destruct e as [nm nd]. simpl in He. by subst.
  - apply elem_of_cons in Hin as [Heq|Hin]; [congruence|].
    eapply IH; [| done | exact H |].
    + intros g' Hin'. apply Hg. by right.
    + destruct (decide (key norm [g] = key norm [filename])) as [Heq|Hk'].
      * eapply process_one_no_destination; [|exact H1|exact Hk].
        apply destination_needs_rule, Hg; [by left | done].
      * eapply process_one_frame; [exact H1 | exact Hk | done].
Qed.

End run.

(** C7. A file of the landing directory whose name has no leading
    address, or whose lowercased address has no rule, is left in place
    unchanged by [process_files], also by a run that an exception cuts
    short; a run that reaches the end has printed its line; and where the
    loop meets the file it prints that line, changes nothing, and goes on
    with the remaining names. *)
Theorem file_without_rule_is_left_in_place
    (norm : str → str) (rule_file : option (list item)) (today : date)
    (st : state) (filename : str) (e : entry) (content : str) :
  let companies := load_companies_from_json rule_file in
  well_keyed norm (fs st) →
  fs st !! key norm [filename] = Some e →
  e_name e = filename →
  e_node e = File content →
  rule_of companies filename = None →
  (∀ st' r, process_files norm rule_file today st = (st', r) →
            fs st' !! key norm [filename] = Some e
            ∧ (r = None → unmatched_report filename ∈ printed st'))
  ∧ (∀ st1 rest,
        fs st1 !! key norm [filename] = Some e →
        process_loop norm companies today st1 (filename :: rest)
        = process_loop norm companies today
            (print (unmatched_report filename) st1) rest).
Proof.
  intros companies Hwk Hk Hname He Hr.
  assert (Hlist : ∀ g, g ∈ listdir norm (fs st) [] →
                       key norm [g] = key norm [filename] →
                       rule_of companies g = None).
  { intros g Hg Hkey. injection Hkey as Hn.
    rewrite <- Hname in Hn, Hk.
    rewrite (listdir_top_unique norm _ _ _ Hwk Hg Hk Hn). by rewrite Hname. }
  split.
  - intros st' r H. unfold process_files in H. fold companies in H. split.
    + eapply process_loop_frame; [exact Hlist | exact H | exact Hk].
    + intros ->. eapply process_loop_reports; try done.
      apply elem_of_listdir. exists (key norm [filename]), e.
      by repeat split.
  - intros st1 rest Hk1. cbn [Classifier.process_loop].
    rewrite process_one_unmatched; [done | | done].
    unfold isfile. rewrite Hk1. destruct e as [nm nd]. simpl in He. by subst.
Qed.

Lemma sample_tree_well_keyed (norm : str → str) (existing : list str) :
  well_keyed norm (sample_tree norm existing).
Proof.
  unfold sample_tree. induction existing as [|name existing IH]; simpl.
  - repeat apply well_keyed_add_entry. apply well_keyed_empty.
  - by apply well_keyed_add_entry.
Qed.

(** With Alice-1.pdf, Alice-3.pdf and Alice-x.pdf in the folder of March
    2024, the invoice becomes Alice-4.pdf. *)
Lemma sequence_number_is_one_past_the_largest_witness :
  let st := mk_state (sample_tree id [py "Alice-1.pdf"; py "Alice-3.pdf";
                                      py "Alice-x.pdf"]) [] in
  ∃ rl target_date n,
    rule_of alice_companies alice_invoice = Some rl
    ∧ get_target_date mid_march (r_month_offset rl) (r_day_offset rl)
      = Returns target_date
    ∧ (r_numbered_files rl = true →
       march_2024 ++ [py "Alice-4.pdf"]
       = target_folder_of rl target_date
         ++ [r_name rl ++ [chr 45] ++ str_of_N n ++ snd (splitext alice_invoice)]
       ∧ one_past_the_largest (r_name rl)
           (listdir id (fs st) (target_folder_of rl target_date)) n).
Proof.
  intros st.
  apply (sequence_number_is_one_past_the_largest id alice_companies mid_march st
           (fst (process_one id alice_companies mid_march st alice_invoice))
           alice_invoice (march_2024 ++ [py "Alice-4.pdf"]));
    by_evaluation.
Defined.

(** On a file system that ignores letter case, alice-1.pdf in the folder
    is not counted by the pattern for the prefix Alice, and it is in the
    way of Alice-1.pdf: the invoice stays where it is. *)
Lemma existing_destination_is_skipped_witness :
  let st := mk_state (sample_tree lower [py "alice-1.pdf"]) [] in
  let dest := march_2024 ++ [py "Alice-1.pdf"] in
  ∃ st',
    process_one lower alice_companies mid_march st alice_invoice = (st', None)
    ∧ printed st' = printed st ++ [FileExistsNotOverwritten dest]
    ∧ (∀ k e, fs st !! k = Some e → fs st' !! k = Some e)
    ∧ (∀ k e, fs st' !! k = Some e →
              fs st !! k = Some e ∨ (fs st !! k = None ∧ e_node e = Dir))
    ∧ isfile lower (fs st') [alice_invoice] = true
    ∧ (∃ e, fs st !! key lower dest = Some e ∧ fs st' !! key lower dest = Some e).
Proof.
  intros st dest.
  apply (existing_destination_is_skipped lower alice_companies mid_march st
           alice_invoice (fs st) dest); by_evaluation.
Defined.

(** The file notes.txt has no leading address: it is still there after
    the run, and the run that reached its end has printed its line. *)
Lemma file_without_rule_is_left_in_place_witness :
  let st := mk_state (sample_tree lower [py "alice-1.pdf"]) [] in
  let e := mk_entry stray_notes (File (py "text")) in
  let res := process_files lower (Some [alice_rule]) mid_march st in
  fs (fst res) !! key lower [stray_notes] = Some e
  ∧ (snd res = None → EmailNotFound stray_notes ∈ printed (fst res)).
Proof.
  intros st e res.
  apply (proj1 (file_without_rule_is_left_in_place lower (Some [alice_rule])
                  mid_march st stray_notes e (py "text")
                  (sample_tree_well_keyed lower _)
                  ltac:(by_evaluation) ltac:(by_evaluation)
                  ltac:(by_evaluation) ltac:(by_evaluation))
               (fst res) (snd res)).
  subst res. apply surjective_pairing.
Defined.

(** C7, as stated, fails: with a rule for the first name of the listing
    whose month offset leads before year 1, the run ends at that name with
    [ValueError]; the file notes.txt, which has no leading address, is
    still in place but no line was printed for it, nor for any name. *)
Lemma file_without_rule_is_not_always_reported :
  let far_rule := mk_item (Some (py "alice@x.com")) None (Some (py "Alice"))
                    (Some (-24300)) None in
  let st := mk_state (sample_tree id []) [] in
  let res := process_files id (Some [far_rule]) mid_march st in
  listdir id (fs st) [] = [alice_invoice; stray_notes; py "2024"]
  ∧ isfile id (fs st) [stray_notes] = true
  ∧ match_email stray_notes = None
  ∧ snd res = Some ValueError
  ∧ printed (fst res) = []
  ∧ (unmatched_report stray_notes ∉ printed (fst res))
  ∧ isfile id (fs (fst res)) [stray_notes] = true.
Proof.
  intros far_rule st res.
  assert (Hp : printed (fst res) = []) by by_evaluation.
  split; [by_evaluation|]. split; [by_evaluation|]. split; [by_evaluation|].
  split; [by_evaluation|]. split; [exact Hp|]. split; [|by_evaluation].
  rewrite Hp. apply not_elem_of_nil.
Qed.

End ClassifierFacts.

(* ===================================================================== *)
(** * The poller over whole runs: invariants and composition *)
(* ===================================================================== *)

Module RunsFacts.
Import Poller PollerFacts Runs.

Lemma paused_tick ev s d :
  monitoring_paused d = true →
  check_emails ev s d = logging INFO MonitoringPausedSkipping d.
Proof. intros Hp. unfold check_emails. by rewrite Hp. Qed.

Lemma apply_operation_settings d op :
  settings (apply_operation d op) = settings d.
Proof.
  destruct op as [ev s| |]; simpl.
  - destruct (monitoring_paused d) eqn:Hp.
    + by rewrite paused_tick.
    + destruct (check_emails_unfold ev s d Hp) as (d0 & Hsch & ->).
      apply schedule_inv in Hsch as (Hi & Hf & Hm & Hpo & _).
      unfold settings. rewrite <- Hi, <- Hf, <- Hm, <- Hpo.
      destruct s as [e|emails [e|]]; try reflexivity.
      by destruct (new_attachments_of ev emails d).
  - unfold pause_monitoring. by destruct (monitoring_paused d).
  - unfold resume_monitoring. by destruct (monitoring_paused d).
Qed.

Lemma backoff_of_ext d1 d2 :
  schedule d1 = schedule d2 → backoff_of d1 = backoff_of d2.
Proof.
  intros H. apply schedule_inv in H as (Hi & Hf & Hm & _ & _ & Hc & _).
  unfold backoff_of. by rewrite Hi, Hf, Hm, Hc.
Qed.

Lemma apply_operation_invariant d op :
  backoff_invariant d → backoff_invariant (apply_operation d op).
Proof.
  intros [H0 Hb]. destruct op as [ev s| |]; simpl.
  - destruct (monitoring_paused d) eqn:Hp.
    { rewrite paused_tick by done. by split. }
    destruct (check_emails_unfold ev s d Hp) as (d0 & Hsch & ->).
    pose proof (backoff_of_ext _ _ Hsch) as Hext.
    apply schedule_inv in Hsch as (Hi & Hf & Hm & _ & Hcur & Hc & _).
    assert (Hexc : ∀ e, backoff_invariant (on_exception e d0)).
    { intros e. unfold backoff_invariant, backoff_of. simpl.
      rewrite Hc. split; [lia|].
      destruct (failure_count d + 1 =? 0) eqn:Hz; [lia | done]. }
    destruct s as [e|emails [e|]]; [apply Hexc | apply Hexc |].
    destruct (new_attachments_of ev emails d).
    + unfold backoff_invariant, backoff_of in *. simpl.
      rewrite Hi, Hf, Hm, Hc, Hcur. by split.
    + unfold backoff_invariant, backoff_of. simpl. by split.
  - unfold pause_monitoring. destruct (monitoring_paused d); by split.
  - unfold resume_monitoring. destruct (monitoring_paused d); by split.
Qed.

Lemma run_settings ops d : settings (run ops d) = settings d.
Proof.
  revert d. induction ops as [|op ops IH]; intros d; [done|].
  unfold run. simpl fold_left. fold (run ops (apply_operation d op)).
  by rewrite IH, apply_operation_settings.
Qed.

Lemma run_invariant ops d : backoff_invariant d → backoff_invariant (run ops d).
Proof.
  revert d. induction ops as [|op ops IH]; intros d Hd; [done|].
  unfold run. simpl fold_left. fold (run ops (apply_operation d op)).
  by apply IH, apply_operation_invariant.
Qed.

(** X1. Whatever ticks, pauses and resumes a freshly constructed
    downloader has gone through, its failure counter is not negative, its
    current backoff is the initial backoff when the counter is 0 and
    [min(initial * factor ^ counter, max)] otherwise, and, when the initial
    backoff does not exceed the maximum, the current backoff does not
    either. *)
Theorem backoff_state_invariant
    (initial factor maximum polling : Z) (uids : gset str) (ledger : list str)
    (files : gmap str str) (ops : list operation) :
  let d := run ops (fresh initial factor maximum polling uids ledger files) in
  0 <= failure_count d
  ∧ current_backoff d
    = (if failure_count d =? 0 then initial
       else Z.min (initial * factor ^ failure_count d) maximum)
  ∧ (initial <= maximum → current_backoff d <= maximum).
Proof.
  cbv zeta.
  set (d0 := fresh initial factor maximum polling uids ledger files).
  assert (Hinv : backoff_invariant (run ops d0)) by (apply run_invariant; by split).
  pose proof (run_settings ops d0) as Hset.
  unfold settings in Hset. simpl in Hset. injection Hset as Hi Hf Hm _.
  destruct Hinv as [H0 Hb]. unfold backoff_of in Hb. rewrite Hi, Hf, Hm in Hb.
  split; [done|]. split; [done|].
  intros Hle. rewrite Hb. destruct (failure_count (run ops d0) =? 0); lia.
Qed.

Lemma paused_ticks (ticks : list (env * session)) (d : downloader) :
  monitoring_paused d = true →
  schedule (run (ticks_of ticks) d) = schedule d
  ∧ holdings (run (ticks_of ticks) d) = holdings d.
Proof.
  revert d. induction ticks as [|[ev s] ticks IH]; intros d Hp; [done|].
  unfold run, ticks_of. simpl. rewrite paused_tick by done.
  destruct (IH (logging INFO MonitoringPausedSkipping d) Hp) as [H1 H2].
  unfold run, ticks_of in H1, H2. by rewrite H1, H2.
Qed.

(** X2. From a pause on, the calls of [check_emails] do nothing but log:
    the timer stays stopped and nothing is fetched or recorded; the resume
    that follows starts the timer with the normal polling interval, also
    when a failure had rescheduled it before, and leaves the failure
    counter and the current backoff as they were. *)
Theorem pause_suspends_ticks (ticks : list (env * session)) (d : downloader) :
  monitoring_paused d = false →
  let paused := run (Pause :: ticks_of ticks) d in
  let resumed := run (Pause :: ticks_of ticks ++ [Resume]) d in
  timer paused = mk_timer false (interval (timer d))
  ∧ monitoring_paused paused = true
  ∧ holdings paused = holdings d
  ∧ timer resumed = mk_timer true (polling_interval d * 1000)
  ∧ monitoring_paused resumed = false
  ∧ failure_count resumed = failure_count d
  ∧ current_backoff resumed = current_backoff d
  ∧ holdings resumed = holdings d.
Proof.
  intros Hp. cbv zeta.
  assert (Hpd : monitoring_paused (pause_monitoring d) = true)
    by (unfold pause_monitoring; by rewrite Hp).
  destruct (paused_ticks ticks (pause_monitoring d) Hpd) as [Hs Hh].
  assert (Hrun : ∀ more, run (Pause :: ticks_of ticks ++ more) d
                         = run more (run (ticks_of ticks) (pause_monitoring d))).
  { intros more. unfold run. simpl. by rewrite fold_left_app. }
  assert (Hrun0 : run (Pause :: ticks_of ticks) d
                  = run (ticks_of ticks) (pause_monitoring d)) by done.
  rewrite Hrun, Hrun0.
  set (p := run (ticks_of ticks) (pause_monitoring d)) in *.
  apply schedule_inv in Hs as (_ & _ & _ & Hpo & Hcur & Hc & Ht & Hpa).
  assert (Hd : holdings (pause_monitoring d) = holdings d
               ∧ timer (pause_monitoring d) = mk_timer false (interval (timer d))
               ∧ polling_interval (pause_monitoring d) = polling_interval d
               ∧ current_backoff (pause_monitoring d) = current_backoff d
               ∧ failure_count (pause_monitoring d) = failure_count d).
  { unfold pause_monitoring. by rewrite Hp. }
  destruct Hd as (Hh0 & Ht0 & Hpo0 & Hcur0 & Hc0).
  assert (Hpp : monitoring_paused p = true) by (by rewrite Hpa).
  split; [by rewrite Ht, Ht0|]. split; [done|]. split; [by rewrite Hh, Hh0|].
  unfold run. simpl. unfold resume_monitoring. rewrite Hpp. simpl.
  rewrite Hpo, Hpo0, Hc, Hc0, Hcur, Hcur0.
  repeat split; try done.
  unfold holdings in *. simpl. by rewrite <- Hh0, <- Hh.
Qed.

Lemma pause_suspends_ticks_witness :
  let failed := check_emails calm (LoginRaises MailError) default_downloader in
  let resumed := run (Pause :: ticks_of [(calm, Fetched [invoice_mail (py "55")] None)]
                        ++ [Resume]) failed in
  timer failed = mk_timer true 120000
  ∧ timer resumed = mk_timer true (polling_interval failed * 1000)
  ∧ failure_count resumed = failure_count failed
  ∧ holdings resumed = holdings failed.
Proof.
  intros failed resumed. split; [reflexivity|].
  pose proof (pause_suspends_ticks
                [(calm, Fetched [invoice_mail (py "55")] None)] failed eq_refl) as H.
  cbv zeta in H. destruct H as (_ & _ & _ & H4 & _ & H6 & _ & H8). done.
Defined.

(** X3. A tick that ends by an exception keeps what it did before: the
    processed UIDs, the ledger file and the download folder are those of
    the tick that handles the same messages and ends normally. *)
Theorem raising_tick_keeps_its_progress
    (ev : env) (emails : list message) (e : exn) (d : downloader) :
  holdings (check_emails ev (Fetched emails (Some e)) d)
  = holdings (check_emails ev (Fetched emails None) d).
Proof.
  unfold check_emails. destruct (monitoring_paused d); [done|].
  destruct (fold_left _ emails _) as [d1 n1]. by destruct n1.
Qed.

(** X4. A message whose UID is not in the set is marked processed exactly
    when the append to the ledger succeeds, whatever became of its
    attachments (also when every write failed, so that they are not fetched
    again); with no attachment at all nothing is written and nothing
    counted. *)
Theorem message_marked_processed_once_handled
    (ev : env) (d : downloader) (n : nat) (msg : message) :
  msg_uid msg ∉ processed_uids d →
  let d' := fst (process_message ev (d, n) msg) in
  (ledger_ok ev (msg_uid msg) = true →
   processed_uids d' = {[msg_uid msg]} ∪ processed_uids d
   ∧ processed_uids_file d' = processed_uids_file d ++ [msg_uid msg])
  ∧ (ledger_ok ev (msg_uid msg) = false →
     processed_uids d' = processed_uids d
     ∧ processed_uids_file d' = processed_uids_file d)
  ∧ (msg_attachments msg = [] →
     download_folder d' = download_folder d
     ∧ snd (process_message ev (d, n) msg) = n).
Proof.
  intros Hnew. cbv zeta. unfold process_message.
  rewrite bool_decide_eq_false_2 by done.
  assert (Hsave : ∀ d1, processed_uids d1 = processed_uids d →
            processed_uids_file d1 = processed_uids_file d →
            (ledger_ok ev (msg_uid msg) = true →
             processed_uids (save_processed_uid ev (msg_uid msg) d1)
             = {[msg_uid msg]} ∪ processed_uids d
             ∧ processed_uids_file (save_processed_uid ev (msg_uid msg) d1)
               = processed_uids_file d ++ [msg_uid msg])
            ∧ (ledger_ok ev (msg_uid msg) = false →
               processed_uids (save_processed_uid ev (msg_uid msg) d1)
               = processed_uids d
               ∧ processed_uids_file (save_processed_uid ev (msg_uid msg) d1)
                 = processed_uids_file d)).
  { intros d1 Hu Hf.
    destruct (save_processed_uid_ledger ev (msg_uid msg) d1)
      as [(Hok & -> & ->) | (Hok & -> & ->)]; rewrite Hu, Hf, Hok; by split. }
  destruct (msg_attachments msg) as [|a atts] eqn:Ha.
  - simpl. destruct (Hsave (logging INFO (NoAttachmentsInUid (msg_uid msg)) d)
                       eq_refl eq_refl) as [H1 H2].
    split; [done|]. split; [done|]. intros _.
    unfold save_processed_uid, try_save_processed_uid.
    by destruct (ledger_ok ev (msg_uid msg)).
  - rewrite <- Ha.
    destruct (fold_left _ (msg_attachments msg) _) as [d1 n1] eqn:Hfold. simpl.
    pose proof (save_attachments_ledger ev (msg_uid msg)
                  match msg_subject msg with [] => py "No_Subject" | _ :: _ => msg_subject msg end
                  (msg_from msg) (msg_attachments msg)
                  (logging INFO (ProcessingEmail (msg_uid msg)
                     match msg_subject msg with [] => py "No_Subject" | _ :: _ => msg_subject msg end) d, n))
      as Hatt.
    cbv zeta in Hatt.
    assert (Hd1 : processed_uids d1 = processed_uids d
                  ∧ processed_uids_file d1 = processed_uids_file d).
    { change d1 with (fst (d1, n1)). rewrite <- Hfold. revert Hatt.
      by destruct (msg_subject msg). }
    destruct Hd1 as [Hu Hf]. destruct (Hsave d1 Hu Hf) as [H1 H2].
    split; [done|]. split; [done|]. by rewrite Ha.
Qed.

(** A mail whose only attachment cannot be written is marked processed
    all the same. *)
Lemma message_marked_processed_once_handled_witness :
  let readonly := mk_env (py "20240315") (py "20240315120000")
                    (fun _ => false) (fun _ => true) in
  let d' := fst (process_message readonly (default_downloader, O)
                   (invoice_mail (py "55"))) in
  processed_uids d' = {[py "55"]} ∪ processed_uids default_downloader
  ∧ processed_uids_file d' = processed_uids_file default_downloader ++ [py "55"].
Proof.
  intros readonly.
  apply (proj1 (message_marked_processed_once_handled readonly default_downloader O
                  (invoice_mail (py "55")) ltac:(set_solver))).
  reflexivity.
Defined.

(** Two failed logins with a cap of 100 seconds. *)
Lemma backoff_state_invariant_witness :
  let d := run [Tick calm (LoginRaises MailError); Tick calm (LoginRaises MailError)]
             (fresh 60 2 100 600 ∅ [] ∅) in
  failure_count d = 2 ∧ current_backoff d = 100 ∧ current_backoff d <= 100.
Proof.
  intros d.
  pose proof (backoff_state_invariant 60 2 100 600 ∅ [] ∅
                [Tick calm (LoginRaises MailError);
                 Tick calm (LoginRaises MailError)]) as H.
  cbv zeta in H. destruct H as (_ & _ & H3).
  split; [by_evaluation|]. split; [by_evaluation|]. apply H3. lia.
Defined.

End RunsFacts.

(* ===================================================================== *)
(** * [sanitize_filename] and the names of the downloaded files *)
(* ===================================================================== *)

Module NamingFacts.
Import PyStr PyStrFacts Sanitize SanitizeFacts Poller PollerFacts Naming.

Lemma lstrip_fix (s : str) :
  (∀ c, head s = Some c → is_space c = false) → lstrip s = s.
Proof.
  destruct s as [|a s]; [done|]. intros H. simpl. by rewrite (H a eq_refl).
Qed.

Lemma rstrip_fix (s : str) :
  (∀ c, last s = Some c → is_space c = false) → rstrip s = s.
Proof.
  induction s as [|a s IH]; [done|]. intros H. simpl.
  destruct s as [|b s].
  - simpl. by rewrite (H a eq_refl).
  - rewrite IH; [done|]. intros c Hc. apply H. by rewrite last_cons_cons.
Qed.

Lemma strip_fix (s : str) : trimmed s → strip s = s.
Proof.
  intros [Hh Hl]. unfold strip. rewrite (lstrip_fix s Hh). by apply rstrip_fix.
Qed.

Lemma lstrip_all_space (s : str) : all_space s → lstrip s = [].
Proof.
  induction 1 as [|c s Hc Hs IH]; [done|]. simpl. by rewrite Hc.
Qed.

Lemma re_sub_invalid_fix (s : str) : clean s → re_sub_invalid s = s.
Proof.
  unfold re_sub_invalid. induction 1 as [|c s Hc Hs IH]; [done|].
  simpl. rewrite Hc. f_equal. exact IH.
Qed.

Lemma sanitize_filename_clean (s : str) : clean (sanitize_filename s).
Proof.
  apply Forall_forall. intros c Hc. unfold sanitize_filename in Hc.
  by apply strip_subseteq, re_sub_invalid_clean in Hc.
Qed.

Lemma sanitize_filename_trimmed (s : str) : trimmed (sanitize_filename s).
Proof.
  unfold sanitize_filename.
  by destruct (strip_split (re_sub_invalid s)) as (l & r & _ & _ & _ & Ht).
Qed.

(** X5. Sanitizing twice is sanitizing once. *)
Theorem sanitize_filename_idempotent (filename : str) :
  sanitize_filename (sanitize_filename filename) = sanitize_filename filename.
Proof.
  unfold sanitize_filename at 1.
  rewrite re_sub_invalid_fix by apply sanitize_filename_clean.
  apply strip_fix, sanitize_filename_trimmed.
Qed.

Lemma space_is_valid (c : ascii) : is_space c = true → invalid_chars c = false.
Proof. destruct c as [[] [] [] [] [] [] [] []]; vm_compute; congruence. Qed.

(** [sanitize_filename] returns the empty string exactly on the strings
    made of whitespace only. *)
Lemma sanitize_filename_empty (s : str) :
  sanitize_filename s = [] ↔ all_space s.
Proof.
  unfold sanitize_filename. split.
  - intros He. destruct (strip_split (re_sub_invalid s)) as (l & r & Hs & Hl & Hr & _).
    rewrite He in Hs. simpl in Hs.
    assert (Hall : all_space (re_sub_invalid s)) by (rewrite Hs; by apply Forall_app).
    unfold all_space, re_sub_invalid in *. rewrite Forall_fmap in Hall.
    eapply Forall_impl; [exact Hall|]. intros c Hc. simpl in Hc.
    destruct (invalid_chars c); [vm_compute in Hc; discriminate | done].
  - intros Hs. rewrite re_sub_invalid_fix.
    + unfold strip. by rewrite lstrip_all_space.
    + eapply Forall_impl; [exact Hs|]. intros c. apply space_is_valid.
Qed.

(** X6. An attachment is passed over with the warning, nothing written
    and nothing counted, exactly when it has no file name or one made of
    whitespace only. *)
Theorem nameless_attachment_is_skipped
    (ev : env) (uid subject from_ : str) (d : downloader) (n : nat)
    (att : attachment) :
  save_attachment ev uid subject from_ (d, n) att
  = (logging WARNING AttachmentWithNoFilename d, n)
  ↔ all_space (default [] (att_filename att)).
Proof.
  rewrite <- sanitize_filename_empty. unfold save_attachment.
  destruct (sanitize_filename (default [] (att_filename att))) as [|c s] eqn:Hs.
  - done.
  - split; [|done]. intros H.
    destruct (write_ok ev _);
      apply (f_equal (fun acc => log (fst acc))) in H; simpl in H;
      apply app_inj_tail in H as [_ H]; discriminate.
Qed.

Lemma rsplit_dot_app (r a e : str) : rsplit_dot r = Some (a, e) → r = a ++ e.
Proof.
  revert a e. induction r as [|c r IH]; intros a e; simpl; [done|].
  destruct (rsplit_dot r) as [[a' e']|].
  - intros [= <- <-]. simpl. f_equal. by apply IH.
  - destruct (is_code 46 c); [|done]. by intros [= <- <-].
Qed.

Lemma span_dots_app (p d r : str) : span_dots p = (d, r) → p = d ++ r.
Proof.
  revert d r. induction p as [|c p IH]; intros d r; simpl.
  - by intros [= <- <-].
  - destruct (is_code 46 c).
    + destruct (span_dots p) as [d' r']. intros [= <- <-].
      simpl. f_equal. by apply IH.
    + by intros [= <- <-].
Qed.

(** [root + ext == path] *)
Lemma splitext_app (p a e : str) : splitext p = (a, e) → p = a ++ e.
Proof.
  unfold splitext. destruct (span_dots p) as [d r] eqn:Hd.
  apply span_dots_app in Hd.
  destruct (rsplit_dot r) as [[a' e']|] eqn:Hr.
  - apply rsplit_dot_app in Hr. intros [= <- <-]. by rewrite Hd, Hr, app_assoc.
  - intros [= <- <-]. by rewrite app_nil_r.
Qed.

Lemma clean_app (a b : str) : clean (a ++ b) ↔ clean a ∧ clean b.
Proof. apply Forall_app. Qed.

Lemma clean_underscore : clean underscore.
Proof. by repeat constructor. Qed.

Lemma first_choice_clean ev uid subject from_ att :
  clean (date_str ev) → clean uid → clean (first_choice ev uid subject from_ att).
Proof.
  intros Hd Hu. unfold first_choice. rewrite !clean_app.
  repeat split; try done; try apply sanitize_filename_clean; apply clean_underscore.
Qed.

(** X7. When a file of the name built for an attachment exists already,
    that file is left as it is: the attachment goes to the name with the
    timestamp put in before the extension. *)
Theorem existing_download_is_not_overwritten
    (ev : env) (uid subject from_ : str) (d : downloader) (n : nat)
    (att : attachment) (content : str) :
  let name := first_choice ev uid subject from_ att in
  let d' := fst (save_attachment ev uid subject from_ (d, n) att) in
  download_folder d !! name = Some content →
  download_folder d' !! name = Some content
  ∧ (¬ all_space (default [] (att_filename att)) →
     write_ok ev (fst (splitext name) ++ underscore ++ timestamp ev
                  ++ snd (splitext name)) = true →
     download_folder d' !! (fst (splitext name) ++ underscore ++ timestamp ev
                            ++ snd (splitext name))
     = Some (att_payload att)).
Proof.
  cbv zeta. intros Hex. unfold save_attachment.
  destruct (sanitize_filename (default [] (att_filename att))) as [|c s] eqn:Hs.
  { split; [done|]. intros Hn. exfalso. apply Hn. by apply sanitize_filename_empty. }
  unfold first_choice in *. rewrite Hs in *.
  set (first := sanitize_filename from_ ++ underscore ++ sanitize_filename subject
                ++ underscore ++ date_str ev ++ underscore ++ uid ++ underscore
                ++ c :: s) in *.
  rewrite bool_decide_eq_true_2 by (by rewrite Hex).
  destruct (splitext first) as [nm ext] eqn:Hsp. cbn [fst snd].
  pose proof (splitext_app _ _ _ Hsp) as Hfirst.
  assert (Hne : nm ++ underscore ++ timestamp ev ++ ext ≠ first).
  { rewrite Hfirst. intros Heq. apply (f_equal length) in Heq.
    rewrite !length_app in Heq. simpl in Heq. lia. }
  destruct (write_ok ev (nm ++ underscore ++ timestamp ev ++ ext)) eqn:Hw;
    cbn [fst download_folder logging write_file].
  - split; [by rewrite lookup_insert_ne|]. intros _ _. by rewrite lookup_insert_eq.
  - split; [done|]. intros _ Hw'. discriminate.
Qed.

Lemma existing_download_is_not_overwritten_witness :
  let d := check_emails calm (Fetched [invoice_mail (py "55")] None)
             default_downloader in
  let att := mk_attachment (Some (py "receipt.pdf")) (py "second") in
  let name := first_choice calm (py "55") (py "Invoice") (py "alice@x.com") att in
  let d' := fst (save_attachment calm (py "55") (py "Invoice") (py "alice@x.com")
                   (d, O) att) in
  name = py "alice@x.com_Invoice_20240315_55_receipt.pdf"
  ∧ download_folder d' !! name = Some (py "%PDF")
  ∧ download_folder d'
      !! py "alice@x.com_Invoice_20240315_55_receipt_20240315120000.pdf"
    = Some (py "second").
Proof.
  intros d att name d'. split; [reflexivity|].
  pose proof (existing_download_is_not_overwritten calm (py "55") (py "Invoice")
                (py "alice@x.com") d O att (py "%PDF") ltac:(by_evaluation)) as [H1 H2].
  split; [exact H1|]. apply H2; [|reflexivity].
  intros Hs. apply sanitize_filename_empty in Hs. discriminate.
Defined.

Lemma save_attachment_names ev uid subject from_ acc att k :
  clean (date_str ev) → clean (timestamp ev) → clean uid →
  is_Some (download_folder (fst (save_attachment ev uid subject from_ acc att)) !! k) →
  is_Some (download_folder (fst acc) !! k) ∨ clean k.
Proof.
  intros Hd Ht Hu. destruct acc as [d n].
  pose proof (first_choice_clean ev uid subject from_ att Hd Hu) as Hfirst.
  unfold save_attachment, first_choice in *.
  destruct (sanitize_filename (default [] (att_filename att))) as [|c s]; [by left|].
  set (first := sanitize_filename from_ ++ underscore ++ sanitize_filename subject
                ++ underscore ++ date_str ev ++ underscore ++ uid ++ underscore
                ++ c :: s) in *.
  assert (Hkey : clean (if bool_decide (is_Some (download_folder d !! first))
                        then let '(name, ext) := splitext first in
                             name ++ underscore ++ timestamp ev ++ ext
                        else first)).
  { case_bool_decide; [|done].
    destruct (splitext first) as [nm ext] eqn:Hsp.
    apply splitext_app in Hsp. rewrite Hsp in Hfirst.
    apply clean_app in Hfirst as [Hn He].
    rewrite !clean_app. repeat split; try done. apply clean_underscore. }
  destruct (write_ok ev _); cbn [fst download_folder logging write_file]; [|by left].
  intros Hk. destruct (decide (k = if bool_decide (is_Some (download_folder d !! first))
                        then let '(name, ext) := splitext first in
                             name ++ underscore ++ timestamp ev ++ ext
                        else first)) as [->|Hne]; [by right|].
  left. by rewrite lookup_insert_ne in Hk.
Qed.

Lemma save_attachments_names ev uid subject from_ atts :
  clean (date_str ev) → clean (timestamp ev) → clean uid →
  ∀ acc k,
    is_Some (download_folder
               (fst (fold_left (save_attachment ev uid subject from_) atts acc)) !! k) →
    is_Some (download_folder (fst acc) !! k) ∨ clean k.
Proof.
  intros Hd Ht Hu. induction atts as [|a atts IH]; intros acc k; simpl; [by left|].
  intros Hk. destruct (IH _ _ Hk) as [Hk1|]; [|by right].
  by eapply save_attachment_names.
Qed.

Lemma save_processed_uid_folder ev uid d :
  download_folder (save_processed_uid ev uid d) = download_folder d.
Proof.
  unfold save_processed_uid, try_save_processed_uid. by destruct (ledger_ok ev uid).
Qed.

Lemma process_message_names ev acc msg k :
  clean (date_str ev) → clean (timestamp ev) → clean (msg_uid msg) →
  is_Some (download_folder (fst (process_message ev acc msg)) !! k) →
  is_Some (download_folder (fst acc) !! k) ∨ clean k.
Proof.
  intros Hd Ht Hu. destruct acc as [d n]. unfold process_message.
  case_bool_decide; [by left|].
  destruct (msg_attachments msg) as [|a atts] eqn:Ha.
  - simpl. rewrite save_processed_uid_folder. by left.
  - rewrite <- Ha.
    destruct (fold_left _ (msg_attachments msg) _) as [d1 n1] eqn:Hfold.
    simpl. rewrite save_processed_uid_folder. intros Hk.
    change d1 with (fst (d1, n1)) in Hk. rewrite <- Hfold in Hk.
    by apply save_attachments_names in Hk.
Qed.

Lemma fetch_names ev emails :
  clean (date_str ev) → clean (timestamp ev) →
  Forall (fun msg => clean (msg_uid msg)) emails →
  ∀ acc k,
    is_Some (download_folder (fst (fold_left (process_message ev) emails acc)) !! k) →
    is_Some (download_folder (fst acc) !! k) ∨ clean k.
Proof.
  intros Hd Ht. induction 1 as [|m emails Hm Hall IH]; intros acc k; simpl; [by left|].
  intros Hk. destruct (IH _ _ Hk) as [Hk1|]; [|by right].
  by eapply process_message_names.
Qed.

(** X8. Every file a tick adds to the download folder has a name without
    any of the nine characters (so none with a path separator), provided
    the UIDs of the fetched messages and the two renderings of the clock
    have none. *)
Theorem downloaded_names_are_clean (ev : env) (s : session) (d : downloader) :
  clean (date_str ev) → clean (timestamp ev) →
  Forall (fun msg => clean (msg_uid msg)) (fetched s) →
  ∀ k, is_Some (download_folder (check_emails ev s d) !! k) →
       is_Some (download_folder d !! k) ∨ clean k.
Proof.
  intros Hd Ht Hu k. unfold check_emails.
  destruct (monitoring_paused d); [by left|].
  destruct s as [e|emails failure]; [by left|]. simpl in Hu.
  pose proof (fetch_names ev emails Hd Ht Hu
    (logging INFO ConnectedToFolder (logging INFO CheckingForNewEmails d), O) k) as H.
  destruct (fold_left _ emails _) as [d1 n1]. simpl in H.
  destruct failure as [e|]; [exact H|]. by destruct n1.
Qed.

(** A mail whose subject and attachment name carry separators: the file
    written has none. *)
Lemma downloaded_names_are_clean_witness :
  let mail := mk_message (py "7") (py "Re: 3/4") (py "alice@x.com")
                [mk_attachment (Some (py "a/b\\c.pdf")) (py "%PDF")] in
  let k := py "alice@x.com_Re_ 3_4_20240315_7_a_b__c.pdf" in
  is_Some (download_folder (check_emails calm (Fetched [mail] None)
                              default_downloader) !! k)
  ∧ (is_Some (download_folder default_downloader !! k) ∨ clean k).
Proof.
  intros mail k.
  assert (Hk : is_Some (download_folder (check_emails calm (Fetched [mail] None)
                                           default_downloader) !! k)).
  { exists (py "%PDF"). by_evaluation. }
  split; [exact Hk|].
  apply (downloaded_names_are_clean calm (Fetched [mail] None) default_downloader);
    [by repeat constructor | by repeat constructor | by repeat constructor | exact Hk].
Defined.

(** An attachment whose file name is two spaces. *)
Lemma nameless_attachment_is_skipped_witness :
  save_attachment calm (py "55") (py "Invoice") (py "alice@x.com")
    (default_downloader, O) (mk_attachment (Some (py "  ")) (py "%PDF"))
  = (logging WARNING AttachmentWithNoFilename default_downloader, O).
Proof.
  apply (proj2 (nameless_attachment_is_skipped calm (py "55") (py "Invoice")
                  (py "alice@x.com") default_downloader O
                  (mk_attachment (Some (py "  ")) (py "%PDF")))).
  simpl. repeat constructor.
Defined.

End NamingFacts.

(* ===================================================================== *)
(** * Start-up: the password and the ledger file *)
(* ===================================================================== *)

Module StartupFacts.
Import PyStr PyStrFacts Patterns PatternsFacts Poller Startup NamingFacts.

#[local] Arguments chr : simpl never.

(** ** [get_password] *)

Lemma rsplit_brace_none (s : str) : no_brace s → rsplit_brace s = None.
Proof.
  induction 1 as [|c s Hc Hs IH]; [done|]. simpl. by rewrite IH, Hc.
Qed.

Lemma rsplit_brace_last (a e : str) :
  no_brace e → rsplit_brace (a ++ chr 125 :: e) = Some (a, e).
Proof.
  intros He. induction a as [|c a IH]; simpl.
  - rewrite rsplit_brace_none by done. by change (is_code 125 (chr 125)) with true.
  - by rewrite IH.
Qed.

Lemma span_fst_app (p : ascii → bool) (a b : str) :
  Forall (fun c => p c = true) a →
  fst (span p (a ++ b)) = a ++ fst (span p b).
Proof.
  induction 1 as [|c a Hc Ha IH]; [done|]. simpl. rewrite Hc.
  destruct (span p (a ++ b)) as [x y]. simpl in *. by rewrite IH.
Qed.

Lemma span_fst_sub (p : ascii → bool) (s : str) (c : ascii) :
  c ∈ fst (span p s) → c ∈ s.
Proof.
  destruct (span p s) as [a r] eqn:Hs. apply span_split in Hs as (-> & _).
  simpl. set_solver.
Qed.

(** A reference to a variable is recognised whatever follows its closing
    brace, as long as no further closing brace does. *)
Lemma match_env_ref_reference (v tail : str) :
  v ≠ [] →
  Forall (fun c => dot c = true) v →
  no_brace tail →
  match_env_ref (chr 36 :: chr 123 :: v ++ chr 125 :: tail) = Some v.
Proof.
  intros Hv Hdot Htail. unfold match_env_ref.
  change (is_code 36 (chr 36) && is_code 123 (chr 123)) with true. cbv iota.
  rewrite span_fst_app by done.
  assert (fst (span dot (chr 125 :: tail)) = chr 125 :: fst (span dot tail)) as ->.
  { simpl. change (dot (chr 125)) with true. cbv iota.
    by destruct (span dot tail). }
  rewrite rsplit_brace_last.
  - by destruct v.
  - apply Forall_forall. intros c Hc. apply span_fst_sub in Hc.
    by eapply (proj1 (Forall_forall _ _) Htail).
Qed.

Lemma match_env_ref_needs_brace (s : str) : no_brace s → match_env_ref s = None.
Proof.
  intros Hs. unfold match_env_ref.
  destruct s as [|c1 [|c2 r]]; [done | done |].
  destruct (is_code 36 c1 && is_code 123 c2); [|done].
  rewrite rsplit_brace_none; [done|].
  apply Forall_forall. intros c Hc. apply span_fst_sub in Hc.
  apply (proj1 (Forall_forall _ _) Hs). by do 2 right.
Qed.

(** X9. A password written as a dollar sign, an opening brace, a
    variable name and a closing brace is replaced by the value of that
    variable, whatever text follows the closing brace (as long as it has
    no further closing brace); when the variable is unset or empty the
    password is empty and a warning names the variable. A password without
    any closing brace is used as it is. *)
Theorem get_password_spec (environ : gmap str str) :
  (∀ v tail,
      v ≠ [] → Forall (fun c => dot c = true) v → no_brace tail →
      get_password environ (chr 36 :: chr 123 :: v ++ chr 125 :: tail)
      = match environ !! v with
        | Some (c :: value) => (c :: value, None)
        | _ => ([], Some (EnvironmentVariableNotSet v))
        end)
  ∧ (∀ password, no_brace password →
                 get_password environ password = (password, None)).
Proof.
  split.
  - intros v tail Hv Hdot Htail. unfold get_password.
    by rewrite match_env_ref_reference.
  - intros password Hp. unfold get_password.
    by rewrite match_env_ref_needs_brace.
Qed.

Lemma get_password_spec_witness :
  let environ : gmap str str := {[py "MAIL_PW" := py "s3cret"]} in
  get_password environ (py "${MAIL_PW} # from the environment") = (py "s3cret", None)
  ∧ get_password environ (py "${OTHER}")
    = ([], Some (EnvironmentVariableNotSet (py "OTHER")))
  ∧ get_password environ (py "plain") = (py "plain", None).
Proof.
  intros environ. split; [|split].
  - apply (proj1 (get_password_spec environ) (py "MAIL_PW")
                 (py " # from the environment"));
      [done | by repeat constructor | by repeat constructor].
  - apply (proj1 (get_password_spec environ) (py "OTHER") []);
      [done | by repeat constructor | constructor].
  - apply (proj2 (get_password_spec environ) (py "plain")). by repeat constructor.
Defined.

(** ** [load_processed_uids] *)

Lemma add_lines_elem (lines : list str) (uids : gset str) (u : str) :
  u ∈ fold_left add_line lines uids
  ↔ u ∈ uids ∨ ∃ line, line ∈ lines ∧ strip line = u ∧ isdigit u = true.
Proof.
  revert uids. induction lines as [|l lines IH]; intros uids; simpl.
  - split; [by left|]. intros [H|(line & Hin & _)]; [done | by inversion Hin].
  - rewrite IH. unfold add_line. split.
    + intros [Hu|(line & Hin & Hs & Hd)].
      * destruct (isdigit (strip l)) eqn:Hl; [|by left].
        apply elem_of_union in Hu as [Hu|Hu]; [|by left].
        apply elem_of_singleton in Hu as ->. right. exists l.
        split; [by left | done].
      * right. exists line. split; [by right | done].
    + intros [Hu|(line & Hin & Hs & Hd)].
      * left. destruct (isdigit (strip l)); set_solver.
      * apply elem_of_cons in Hin as [->|Hin].
        -- left. rewrite Hs, Hd. set_solver.
        -- right. by exists line.
Qed.

(** X10. Loading the ledger keeps every UID already in the set and adds
    exactly the lines that, stripped of surrounding whitespace, consist of
    digits; when reading fails midway the lines read before count; when
    the file is absent the set is as before. *)
Theorem load_processed_uids_spec (f : ledger_file) (uids : gset str) :
  let loaded := fst (load_processed_uids f uids) in
  uids ⊆ loaded
  ∧ (∀ u, u ∈ loaded → u ∈ uids ∨ isdigit u = true)
  ∧ match f with
    | NoLedgerFile => loaded = uids
    | LedgerText text | LedgerFailsAfter text =>
        ∀ u, u ∈ loaded
             ↔ u ∈ uids
               ∨ ∃ line, line ∈ readlines text ∧ strip line = u ∧ isdigit u = true
    end.
Proof.
  cbv zeta. destruct f as [|text|text]; simpl.
  - split; [done|]. split; [by left | done].
  - split; [|split].
    + intros u Hu. apply add_lines_elem. by left.
    + intros u Hu. apply add_lines_elem in Hu as [?|(_ & _ & _ & ?)]; auto.
    + intros u. apply add_lines_elem.
  - split; [|split].
    + intros u Hu. apply add_lines_elem. by left.
    + intros u Hu. apply add_lines_elem in Hu as [?|(_ & _ & _ & ?)]; auto.
    + intros u. apply add_lines_elem.
Qed.

(** A carriage return before the line feed that ends a record, or
    anywhere in it, does not move the end of the record. *)
Lemma translate_newlines_record (n : nat) :
  ∀ a : str, (length a <= n)%nat →
       ∃ x, ∀ rest, translate_newlines (a ++ chr 10 :: rest)
                    = x ++ chr 10 :: translate_newlines rest.
Proof.
  induction n as [|n IH]; intros a Hlen.
  { destruct a; [|simpl in Hlen; lia]. exists []. intros rest. simpl.
    by change (is_code 13 (chr 10)) with false. }
  destruct a as [|c a].
  { exists []. intros rest. simpl. by change (is_code 13 (chr 10)) with false. }
  simpl in Hlen. cbn [app translate_newlines].
  destruct (is_code 13 c).
  - destruct a as [|c2 a].
    + exists []. intros rest. cbn [app].
      by change (is_code 10 (chr 10)) with true.
    + cbn [app]. destruct (is_code 10 c2).
      * destruct (IH a) as [x Hx]; [simpl in Hlen; lia|].
        exists (chr 10 :: x). intros rest. by rewrite Hx.
      * destruct (IH (c2 :: a)) as [x Hx]; [simpl in *; lia|].
        exists (chr 10 :: x). intros rest. cbn [app] in Hx. by rewrite Hx.
  - destruct (IH a) as [x Hx]; [lia|].
    exists (c :: x). intros rest. by rewrite Hx.
Qed.

Lemma split_keepends_nil (s : str) : split_keepends s = [] → s = [].
Proof.
  destruct s as [|c s]; [done|]. simpl.
  destruct (is_code 10 c); [done|]. by destruct (split_keepends s).
Qed.

Lemma split_keepends_record (x rest : str) :
  split_keepends (x ++ chr 10 :: rest)
  = split_keepends (x ++ [chr 10]) ++ split_keepends rest.
Proof.
  induction x as [|c x IH]; cbn [app split_keepends].
  - by change (is_code 10 (chr 10)) with true.
  - destruct (is_code 10 c); [by rewrite IH|].
    rewrite IH. destruct (split_keepends (x ++ [chr 10])) as [|l ls] eqn:Hl; [|done].
    apply split_keepends_nil in Hl. by destruct x.
Qed.

Lemma readlines_record (a rest : str) :
  readlines (a ++ chr 10 :: rest) = readlines (a ++ [chr 10]) ++ readlines rest.
Proof.
  unfold readlines.
  destruct (translate_newlines_record (length a) a (le_n _)) as [x Hx].
  rewrite (Hx rest), (Hx []). simpl translate_newlines.
  apply split_keepends_record.
Qed.

Lemma digit_char_plain (c : ascii) :
  isdigit_char c = true →
  is_space c = false ∧ is_code 13 c = false ∧ is_code 10 c = false.
Proof. destruct c as [[] [] [] [] [] [] [] []]; vm_compute; try done. Qed.

Lemma isdigit_chars (s : str) :
  isdigit s = true → s ≠ [] ∧ Forall (fun c => isdigit_char c = true) s.
Proof.
  destruct s as [|c s]; [done|]. unfold isdigit. intros H. split; [done|].
  apply Forall_forall. intros x Hx. apply list_elem_of_In in Hx.
  by apply (proj1 (forallb_forall _ _) H).
Qed.

Lemma rstrip_all_space (t : str) : all_space t → rstrip t = [].
Proof.
  induction 1 as [|c t Hc Ht IH]; [done|]. simpl. by rewrite IH, Hc.
Qed.

Lemma rstrip_app_space (s t : str) : all_space t → rstrip (s ++ t) = rstrip s.
Proof.
  intros Ht. induction s as [|c s IH]; simpl.
  - by apply rstrip_all_space.
  - by rewrite IH.
Qed.

(** A record of digits is read back as one line, and stripping the line
    gives the record. *)
Lemma digit_record_line (r : str) :
  isdigit r = true →
  readlines (r ++ [chr 10]) = [r ++ [chr 10]] ∧ strip (r ++ [chr 10]) = r.
Proof.
  intros Hd. apply isdigit_chars in Hd as [Hne Hall].
  assert (Hplain : Forall (fun c => is_space c = false ∧ is_code 13 c = false
                                    ∧ is_code 10 c = false) r).
  { eapply Forall_impl; [exact Hall|]. apply digit_char_plain. }
  split.
  - unfold readlines.
    assert (translate_newlines (r ++ [chr 10]) = r ++ [chr 10]) as ->.
    { clear Hne Hall. induction Hplain as [|c r (_ & Hc & _) _ IH]; [done|].
      cbn [app translate_newlines]. by rewrite Hc, IH. }
    clear Hne Hall. induction Hplain as [|c r (_ & _ & Hc) Hr IH]; [done|].
    cbn [app split_keepends]. by rewrite Hc, IH.
  - unfold strip. rewrite lstrip_fix.
    + rewrite rstrip_app_space by (by repeat constructor).
      apply rstrip_fix. intros c Hc. apply last_Some_elem_of in Hc.
      by apply (proj1 (Forall_forall _ _) Hplain) in Hc as [? _].
    + destruct r as [|c r]; [done|]. simpl. intros c' [= <-].
      by apply Forall_cons in Hplain as [[? _] _].
Qed.

Lemma elem_of_readlines_ledger (records : list str) (r : str) :
  r ∈ records → isdigit r = true →
  r ++ [chr 10] ∈ readlines (ledger_text records).
Proof.
  intros Hin Hd. induction records as [|r0 records IH]; [by inversion Hin|].
  cbn [ledger_text]. rewrite readlines_record. apply elem_of_app.
  apply elem_of_cons in Hin as [->|Hin].
  - left. rewrite (proj1 (digit_record_line r0 Hd)). by left.
  - right. by apply IH.
Qed.

(** X11. A UID that [save_processed_uid] appended to the ledger file is
    in the set loaded from that file at the next start exactly when it
    consists of digits; any other recorded UID is forgotten by a restart. *)
Theorem ledger_round_trip (records : list str) (uid : str) :
  uid ∈ records →
  (uid ∈ fst (load_processed_uids (LedgerText (ledger_text records)) ∅)
   ↔ isdigit uid = true).
Proof.
  intros Hin. simpl. rewrite add_lines_elem. split.
  - intros [H|(_ & _ & _ & H)]; [set_solver | done].
  - intros Hd. right. exists (uid ++ [chr 10]).
    split; [by apply elem_of_readlines_ledger|].
    split; [by apply digit_record_line | done].
Qed.

(** After a tick that handled a mail with UID 55 and one whose UID reads
    None, a restart knows the first and has forgotten the second. *)
Lemma ledger_round_trip_witness :
  let d := check_emails calm
             (Fetched [invoice_mail (py "55"); invoice_mail (py "None")] None)
             default_downloader in
  processed_uids_file d = [py "55"; py "None"]
  ∧ (py "55" ∈ fst (load_processed_uids
                      (LedgerText (ledger_text (processed_uids_file d))) ∅)
     ↔ isdigit (py "55") = true)
  ∧ (py "None" ∈ fst (load_processed_uids
                        (LedgerText (ledger_text (processed_uids_file d))) ∅)
     ↔ isdigit (py "None") = true)
  ∧ isdigit (py "55") = true ∧ isdigit (py "None") = false.
Proof.
  intros d.
  assert (Hf : processed_uids_file d = [py "55"; py "None"]) by by_evaluation.
  split; [exact Hf|]. rewrite Hf. split; [|split; [|split; reflexivity]].
  - apply (ledger_round_trip [py "55"; py "None"] (py "55")). by left.
  - apply (ledger_round_trip [py "55"; py "None"] (py "None")). right. by left.
Defined.

(** A ledger file of three lines, the second not a number, the third
    with blanks around its digits. *)
Lemma load_processed_uids_spec_witness :
  let text := py "12" ++ [chr 10] ++ py "ab" ++ [chr 10] ++ py " 7 " ++ [chr 10] in
  let loaded := fst (load_processed_uids (LedgerText text) {[py "3"]}) in
  {[py "3"]} ⊆ loaded ∧ py "7" ∈ loaded ∧ py "ab" ∉ loaded.
Proof.
  intros text loaded.
  pose proof (load_processed_uids_spec (LedgerText text) {[py "3"]}) as H.
  cbv zeta in H. destruct H as (H1 & H2 & H3).
  split; [exact H1|]. split.
  - apply H3. right. exists (py " 7 " ++ [chr 10]).
    split; [|split; reflexivity].
    assert (Hl : readlines text
                 = [py "12" ++ [chr 10]; py "ab" ++ [chr 10]; py " 7 " ++ [chr 10]])
      by by_evaluation.
    rewrite Hl. right. right. left.
  - intros Hin. apply H2 in Hin as [Hin|Hd]; [|discriminate Hd].
    apply elem_of_singleton in Hin. discriminate Hin.
Defined.

End StartupFacts.

(* ===================================================================== *)
(** * Numbered names: what the classifier writes, its pattern reads *)
(* ===================================================================== *)

Module NumberingFacts.
Import PyStr Rules Patterns PatternsFacts FS Classifier NamingFacts.

#[local] Arguments chr : simpl never.

(** [int_of_digits] from any starting value. *)
Local Abbreviation int_from start ds :=
  (fold_left (fun acc c => (10 * acc + digit_val c)%N) ds start).

Lemma pretty_N_char_digit (x : N) :
  (x < 10)%N →
  is_digit (pretty_N_char x) = true ∧ digit_val (pretty_N_char x) = x.
Proof.
  intros Hx.
  assert (x = 0 ∨ x = 1 ∨ x = 2 ∨ x = 3 ∨ x = 4 ∨ x = 5 ∨ x = 6 ∨ x = 7
          ∨ x = 8 ∨ x = 9)%N as H by lia.
  repeat (destruct H as [->|H]; [by vm_compute|]). subst. by vm_compute.
Qed.

(** The digits written for [x] in front of [s] spell [x]. *)
Lemma pretty_N_go_digits (x : N) :
  ∀ s, int_from 0%N (py (pretty_N_go x s)) = int_from x (py s)
       ∧ (Forall (fun c => is_digit c = true) (py s) →
          Forall (fun c => is_digit c = true) (py (pretty_N_go x s))).
Proof.
  induction (N.lt_wf_0 x) as [x _ IH]. intros s.
  assert (x = 0 ∨ 0 < x)%N as [->|Hpos] by lia.
  { by rewrite pretty_N_go_0. }
  rewrite pretty_N_go_step by done.
  destruct (IH (x `div` 10)%N (N.div_lt x 10 Hpos eq_refl)
               (String (pretty_N_char (x `mod` 10)) s)) as [Hint Hdig].
  destruct (pretty_N_char_digit (x `mod` 10)%N) as [Hc Hv];
    [by apply N.mod_lt|].
  split.
  - rewrite Hint. simpl. rewrite Hv.
    by rewrite <- (N.div_mod x 10) by done.
  - intros Hs. apply Hdig. simpl. by constructor.
Qed.

(** [int(str(n)) == n], and [str(n)] is a run of decimal digits. *)
Lemma str_of_N_digits (n : N) :
  int_of_digits (str_of_N n) = n
  ∧ Forall (fun c => is_digit c = true) (str_of_N n)
  ∧ str_of_N n ≠ [].
Proof.
  assert (H : int_of_digits (str_of_N n) = n
              ∧ Forall (fun c => is_digit c = true) (str_of_N n)).
  { unfold str_of_N, pretty, pretty_N, int_of_digits.
    destruct (decide (n = 0%N)) as [->|Hn].
    - split; [done | by repeat constructor].
    - destruct (pretty_N_go_digits n EmptyString) as [Hint Hdig].
      split; [by rewrite Hint | by apply Hdig]. }
  destruct H as [Hint Hdig]. split; [done|]. split; [done|].
  intros He. rewrite He in Hint. unfold int_of_digits in Hint. simpl in Hint.
  subst n. by vm_compute in He.
Qed.

Lemma is_code_eq (n : N) (c : ascii) : (n < 256)%N → is_code n c = true → c = chr n.
Proof.
  intros Hn H. apply N.eqb_eq in H. unfold code in H. subst n.
  unfold chr. by rewrite ascii_N_embedding.
Qed.

Lemma rsplit_dot_ext (r a e : str) :
  rsplit_dot r = Some (a, e) → ∃ e', e = chr 46 :: e'.
Proof.
  revert a e. induction r as [|c r IH]; intros a e; simpl; [done|].
  destruct (rsplit_dot r) as [[a' e']|].
  - intros [= <- <-]. by eapply IH.
  - destruct (is_code 46 c) eqn:Hc; [|done]. intros [= <- <-].
    apply is_code_eq in Hc; [|done]. subst. by eexists.
Qed.

(** The extension is empty or starts with a dot. *)
Lemma splitext_ext (p : str) :
  snd (splitext p) = [] ∨ ∃ e', snd (splitext p) = chr 46 :: e'.
Proof.
  unfold splitext. destruct (span_dots p) as [d r].
  destruct (rsplit_dot r) as [[a e]|] eqn:Hr; simpl; [|by left].
  right. by eapply rsplit_dot_ext.
Qed.

(** A prefix, a hyphen, the decimal form of [n] and an extension taken
    from [os.path.splitext] make a numbered name of number [n]. *)
Lemma generated_name_numbered (company_name : str) (n : N) (filename : str) :
  numbered_name company_name
    (company_name ++ [chr 45] ++ str_of_N n ++ snd (splitext filename)) n.
Proof.
  destruct (str_of_N_digits n) as (Hint & Hdig & Hne).
  exists (str_of_N n), (snd (splitext filename)).
  repeat split; try done.
  destruct (splitext_ext filename) as [->|[e' ->]]; [done|].
  simpl. by change (is_word (chr 46)) with false.
Qed.

(** X12. The name given to a file under a numbered rule is one the
    pattern of that rule counts, with the very number it was given: the
    digits written are read back as the same number, and the extension
    does not run into them. *)
Theorem numbered_name_is_counted
    (rl : rules) (existing_files : list str) (filename : str) :
  r_numbered_files rl = true →
  match_seq (r_name rl) (new_filename_of rl existing_files filename)
  = Some (next_number (r_name rl) existing_files).
Proof.
  intros Hnum. unfold new_filename_of. rewrite Hnum.
  apply match_seq_spec, generated_name_numbered.
Qed.

Lemma numbered_name_is_counted_witness :
  let rl := rules_of_item alice_rule in
  match_seq (r_name rl)
    (new_filename_of rl [py "Alice-1.pdf"; py "Alice-41.pdf"] (py "scan.tar.gz"))
  = Some (next_number (r_name rl) [py "Alice-1.pdf"; py "Alice-41.pdf"])
  ∧ new_filename_of rl [py "Alice-1.pdf"; py "Alice-41.pdf"] (py "scan.tar.gz")
    = py "Alice-42.gz".
Proof.
  intros rl. split; [|reflexivity].
  by apply (numbered_name_is_counted rl).
Defined.

End NumberingFacts.

(* ===================================================================== *)
(** * [process_files]: what a move does to the archive *)
(* ===================================================================== *)

Module ArchiveFacts.
Import PyStr Calendar Rules Patterns FS Classifier Archive.
Import PatternsFacts FSFacts ClassifierFacts NumberingFacts.

#[local] Arguments chr : simpl never.

Lemma one_past_the_largest_unique (company_name : str) (l : list str) (n m : N) :
  one_past_the_largest company_name l n →
  one_past_the_largest company_name l m → n = m.
Proof.
  intros [An Bn] [Am Bm].
  destruct Bn as [[-> Hn]|(f & d & Hf & Hd & ->)];
    destruct Bm as [[-> Hm]|(f' & d' & Hf' & Hd' & ->)]; try done.
  - by destruct (Hn f' d' Hf').
  - by destruct (Hm f d Hf).
  - pose proof (An f' d' Hf' Hd'). pose proof (Am f d Hf Hd). lia.
Qed.

(** The next number depends on the names listed, not on their order. *)
Lemma next_number_ext (company_name : str) (l1 l2 : list str) :
  (∀ f, f ∈ l1 ↔ f ∈ l2) →
  next_number company_name l1 = next_number company_name l2.
Proof.
  intros Heq.
  apply (one_past_the_largest_unique company_name l2);
    [|apply next_number_spec].
  apply (one_past_the_largest_ext company_name l1 l2 _ Heq), next_number_spec.
Qed.

Lemma numbered_name_unique (company_name f : str) (d d' : N) :
  numbered_name company_name f d → numbered_name company_name f d' → d = d'.
Proof. rewrite <- !match_seq_spec. congruence. Qed.

(** Once the name numbered [n], the next number of the folder, has joined
    the names of the folder, the next number is [n + 1]. *)
Lemma next_number_after (company_name new : str) (l l' : list str) :
  (∀ g, g ∈ l' ↔ g = new ∨ g ∈ l) →
  numbered_name company_name new (next_number company_name l) →
  next_number company_name l' = (next_number company_name l + 1)%N.
Proof.
  intros Hl' Hnew.
  destruct (next_number_spec company_name l) as [A _].
  destruct (next_number_spec company_name l') as [A' B'].
  assert (Hin : new ∈ l') by (apply Hl'; by left).
  pose proof (A' _ _ Hin Hnew) as Hlt.
  destruct B' as [[_ Hnone]|(f & d & Hf & Hd & Hn')].
  - by destruct (Hnone _ _ Hin Hnew).
  - rewrite Hn' in *. apply Hl' in Hf as [->|Hf].
    + by rewrite (numbered_name_unique _ _ _ _ Hd Hnew).
    + pose proof (A _ _ Hf Hd). lia.
Qed.

Section run.
Variable norm : str → str.
Variable companies : gmap str rules.
Variable today : date.

Local Abbreviation process_one := (process_one norm companies today).
Local Abbreviation process_loop := (process_loop norm companies today).
Local Abbreviation destination := (destination norm companies today).
Local Abbreviation rule_of := (rule_of companies).

Lemma makedirs_from_well_keyed (rest : path) :
  ∀ t above t1 r,
    well_keyed norm t → makedirs_from norm t above rest = (t1, r) →
    well_keyed norm t1.
Proof.
  induction rest as [|c rest IH]; intros t above t1 r Hwk; simpl.
  - by intros [= <- <-].
  - destruct (t !! key norm (above ++ [c])) as [[nm [content|]]|] eqn:Hq.
    + by intros [= <- <-].
    + by apply IH.
    + apply IH. apply (well_keyed_add_entry norm above c Dir t Hwk).
Qed.

Lemma target_folder_length (rl : rules) (td : date) :
  (2 <= length (target_folder_of rl td))%nat.
Proof.
  unfold target_folder_of.
  destruct (r_use_subfolder rl && truthy (r_folder_name rl)); simpl; lia.
Qed.

(** The file an iteration found a destination for is a file of the
    landing directory, before and after the target folder is made. *)
Lemma destination_source (st : state) (filename : str) (t1 : tree) (dest : path) :
  destination st filename = Some (t1, dest) →
  ∃ nm content,
    fs st !! key norm [filename] = Some (mk_entry nm (File content))
    ∧ t1 !! key norm [filename] = Some (mk_entry nm (File content)).
Proof.
  intros Hd.
  destruct (destination_makedirs norm companies today _ _ _ _ Hd)
    as (rl & td & Hfile & _ & _ & Hmk & _).
  unfold isfile in Hfile.
  destruct (fs st !! key norm [filename]) as [[nm [content|]]|] eqn:Hsrc; try done.
  exists nm, content. split; [done|]. by eapply makedirs_keeps.
Qed.

(** A destination lies at least two folders below the landing directory. *)
Lemma destination_shape (st : state) (filename : str) (t1 : tree) (dest : path) :
  destination st filename = Some (t1, dest) →
  ∃ folder name,
    dest = folder ++ [name] ∧ (2 <= length folder)%nat
    ∧ key norm dest ≠ key norm [filename].
Proof.
  intros Hd.
  destruct (destination_makedirs norm companies today _ _ _ _ Hd)
    as (rl & td & _ & _ & _ & _ & Hdest).
  pose proof (target_folder_length rl td) as Hlen.
  eexists _, _. split; [exact Hdest|]. split; [done|].
  intros Heq. apply (f_equal length) in Heq.
  rewrite !key_length, Hdest, length_app in Heq. simpl in Heq. lia.
Qed.

(** The iteration that finds its destination free moves the file. *)
Lemma process_one_moves (st : state) (filename : str) (t1 : tree) (dest : path) :
  destination st filename = Some (t1, dest) →
  exists_ norm t1 dest = false →
  ∃ nm content,
    fs st !! key norm [filename] = Some (mk_entry nm (File content))
    ∧ t1 !! key norm [filename] = Some (mk_entry nm (File content))
    ∧ t1 !! key norm dest = None
    ∧ process_one st filename
      = (print (MovedFileTo dest)
           (mk_state (<[key norm dest :=
                         mk_entry (default [] (last dest)) (File content)]>
                        (delete (key norm [filename]) t1))
                     (printed st)), None).
Proof.
  intros Hd Hex.
  destruct (destination_source _ _ _ _ Hd) as (nm & content & Hs & Hs1).
  destruct (destination_shape _ _ _ _ Hd) as (folder & name & Hdest & _ & _).
  exists nm, content. split; [done|]. split; [done|]. split.
  - rewrite exists_lookup in Hex by (rewrite Hdest; by destruct folder).
    apply bool_decide_eq_false_1 in Hex.
    destruct (t1 !! key norm dest) eqn:H1; [|done]. destruct Hex. by eexists.
  - rewrite (process_one_destination norm companies today _ _ _ _ Hd), Hex.
    unfold move. by rewrite Hs1.
Qed.

(** An iteration that reports a move found its destination free. *)
Lemma moved_destination (st st' : state) (filename : str) (dest : path) :
  process_one st filename = (st', None) →
  printed st' = printed st ++ [MovedFileTo dest] →
  ∃ t1, destination st filename = Some (t1, dest)
        ∧ exists_ norm t1 dest = false.
Proof.
  intros H Hp.
  destruct (destination st filename) as [[t1 dest']|] eqn:Hd.
  - rewrite (process_one_destination norm companies today _ _ _ _ Hd) in H.
    destruct (exists_ norm t1 dest') eqn:Hex.
    + injection H as <-. simpl in Hp. apply app_inv_head in Hp. discriminate.
    + destruct (move norm t1 [filename] dest') as [t2 [e|]]; [done|].
      injection H as <-. simpl in Hp. apply app_inv_head in Hp.
      injection Hp as ->. by exists t1.
  - exfalso.
    unfold Classifier.process_one, Classifier.destination, Classifier.rule_of in *.
    destruct (isfile norm _ [filename]); simpl negb in H; cbv iota in H;
      [|injection H as <-; simpl in Hp; apply app_inv_head in Hp; discriminate].
    destruct (match_email filename) as [g|];
      [|injection H as <-; simpl in Hp; apply app_inv_head in Hp; discriminate].
    destruct (companies !! lower g) as [rl|];
      [|injection H as <-; simpl in Hp; apply app_inv_head in Hp; discriminate].
    destruct (get_target_date today (r_month_offset rl) (r_day_offset rl))
      as [td|e]; [|done].
    by destruct (makedirs norm (fs st) (target_folder_of rl td)) as [tm [e|]].
Qed.

(** X13. Under rules whose names are single path components, a file that
    [process_files] reports as moved has arrived with its content under
    the name computed for it, at a place where nothing was before, and is
    gone from the landing directory. Every other entry stays as it is,
    and what else is new are directories. *)
Theorem moved_file_keeps_its_content
    (st st' : state) (filename : str) (dest : path) :
  plain_table companies →
  process_one st filename = (st', None) →
  printed st' = printed st ++ [MovedFileTo dest] →
  ∃ nm content folder name,
    dest = folder ++ [name]
    ∧ fs st !! key norm [filename] = Some (mk_entry nm (File content))
    ∧ fs st' !! key norm [filename] = None
    ∧ fs st !! key norm dest = None
    ∧ fs st' !! key norm dest = Some (mk_entry name (File content))
    ∧ (∀ k e, k ≠ key norm [filename] →
              fs st !! k = Some e → fs st' !! k = Some e)
    ∧ (∀ k e, k ≠ key norm dest → fs st' !! k = Some e →
              fs st !! k = Some e ∨ (fs st !! k = None ∧ e_node e = Dir)).
Proof.
  intros _ Hone Hp.
  destruct (moved_destination _ _ _ _ Hone Hp) as (t1 & Hd & Hex).
  destruct (process_one_moves _ _ _ _ Hd Hex) as (nm & content & Hs & Hs1 & Hfree & H).
  destruct (destination_shape _ _ _ _ Hd) as (folder & name & Hdest & _ & Hne).
  destruct (destination_makedirs norm companies today _ _ _ _ Hd)
    as (rl & td & _ & _ & _ & Hmk & _).
  rewrite H in Hone. injection Hone as <-.
  exists nm, content, folder, name.
  cbn [fs printed print].
  split; [done|]. split; [done|].
  split; [by rewrite lookup_insert_ne, lookup_delete_eq|].
  split.
  { destruct (fs st !! key norm dest) as [e|] eqn:He; [|done].
    by rewrite (makedirs_keeps _ _ _ _ _ _ _ Hmk He) in Hfree. }
  split.
  { rewrite lookup_insert_eq. by rewrite Hdest, last_snoc. }
  split.
  - intros k e Hk Hke.
    pose proof (makedirs_keeps _ _ _ _ _ _ _ Hmk Hke) as Hk1.
    assert (k ≠ key norm dest) by congruence.
    by rewrite lookup_insert_ne, lookup_delete_ne.
  - intros k e Hk. rewrite lookup_insert_ne by done.
    intros Hke. apply lookup_delete_Some in Hke as [_ Hke].
    destruct (makedirs_adds_dirs _ _ _ _ _ _ _ Hmk Hke) as [?|(? & ? & _)]; auto.
Qed.

(** X14. Under rules whose names are single path components, once
    [process_files] has moved a file under a numbered rule, the next
    number of that prefix in that folder is the number just given plus
    one: files filed one after the other get consecutive numbers. *)
Theorem numbers_follow_one_another
    (st st' : state) (filename : str) (dest : path)
    (rl : rules) (target_date : date) :
  plain_table companies →
  process_one st filename = (st', None) →
  printed st' = printed st ++ [MovedFileTo dest] →
  rule_of filename = Some rl →
  get_target_date today (r_month_offset rl) (r_day_offset rl)
  = Returns target_date →
  r_numbered_files rl = true →
  let folder := target_folder_of rl target_date in
  let n := next_number (r_name rl) (listdir norm (fs st) folder) in
  dest = folder ++ [r_name rl ++ [chr 45] ++ str_of_N n
                    ++ snd (splitext filename)]
  ∧ next_number (r_name rl) (listdir norm (fs st') folder) = (n + 1)%N.
Proof.
  intros _ Hone Hp Hrl Hdate Hnum folder n.
  destruct (moved_destination _ _ _ _ Hone Hp) as (t1 & Hd & Hex).
  destruct (process_one_moves _ _ _ _ Hd Hex) as (nm & content & Hs & Hs1 & Hfree & H).
  rewrite H in Hone. injection Hone as <-.
  destruct (destination_makedirs norm companies today _ _ _ _ Hd)
    as (rl' & td' & _ & Hrl' & Hdate' & Hmk & Hdest).
  assert (rl' = rl) as -> by congruence.
  assert (td' = target_date) as -> by congruence.
  fold folder in Hmk, Hdest.
  assert (Hn : next_number (r_name rl) (listdir norm t1 folder) = n).
  { apply next_number_ext. intros f. by eapply listdir_makedirs. }
  unfold new_filename_of in Hdest. rewrite Hnum, Hn in Hdest.
  set (new := r_name rl ++ [chr 45] ++ str_of_N n ++ snd (splitext filename)) in *.
  split; [done|].
  cbn [fs print].
  pose proof (target_folder_length rl target_date) as Hlen. fold folder in Hlen.
  rewrite <- Hn. apply (next_number_after _ new).
  - intros g. rewrite !elem_of_listdir. split.
    + intros (k & e & Hk & Hl & Ht & Hg).
      destruct (decide (k = key norm dest)) as [->|Hne].
      * rewrite lookup_insert_eq in Hk. injection Hk as <-. left.
        rewrite <- Hg. simpl. by rewrite Hdest, last_snoc.
      * rewrite lookup_insert_ne in Hk by done.
        apply lookup_delete_Some in Hk as [_ Hk]. right. by exists k, e.
    + intros [->|(k & e & Hk & Hl & Ht & Hg)].
      * eexists (key norm dest), _. rewrite lookup_insert_eq.
        split; [done|]. rewrite Hdest, key_app, length_app, key_length.
        split; [simpl; lia|].
        split; [by rewrite <- (key_length norm folder), take_app_length|].
        simpl. by rewrite last_snoc.
      * exists k, e. split; [|done].
        rewrite lookup_insert_ne by congruence.
        rewrite lookup_delete_ne; [done|].
        intros <-. unfold key in Hl. simpl in Hl. lia.
  - rewrite Hn. apply generated_name_numbered.
Qed.

(** Where the file system tells names apart exactly, the name one past
    the largest number cannot be taken. *)
Lemma destination_is_free (st : state) (filename : str) (t1 : tree) (dest : path) :
  Inj (=) (=) norm →
  well_keyed norm (fs st) →
  (∀ rl, rule_of filename = Some rl → r_numbered_files rl = true) →
  destination st filename = Some (t1, dest) →
  exists_ norm t1 dest = false.
Proof.
  intros Hinj Hwk Hnum Hd.
  destruct (destination_makedirs norm companies today _ _ _ _ Hd)
    as (rl & td & _ & Hrl & _ & Hmk & Hdest).
  rewrite exists_lookup by (rewrite Hdest; by destruct (target_folder_of rl td)).
  apply bool_decide_eq_false_2. intros [e He].
  assert (Hwk1 : well_keyed norm t1) by (by eapply makedirs_from_well_keyed).
  destruct (Hwk1 _ _ He) as [parent Hk].
  rewrite Hdest, key_app in Hk. apply app_inj_tail in Hk as [_ Hn].
  apply Hinj in Hn.
  pose proof (target_folder_length rl td) as Hlen.
  assert (Hin : e_name e ∈ listdir norm t1 (target_folder_of rl td)).
  { apply elem_of_listdir. exists (key norm dest), e. split; [done|].
    rewrite Hdest, key_app, length_app, key_length.
    split; [simpl; lia|]. split; [|done].
    by rewrite <- (key_length norm (target_folder_of rl td)), take_app_length. }
  destruct (next_number_spec (r_name rl)
              (listdir norm t1 (target_folder_of rl td))) as [Hlt _].
  specialize (Hlt _ (next_number (r_name rl)
                       (listdir norm t1 (target_folder_of rl td))) Hin).
  rewrite <- Hn in Hlt. unfold new_filename_of in Hlt. rewrite (Hnum _ Hrl) in Hlt.
  specialize (Hlt (generated_name_numbered _ _ _)). lia.
Qed.

(** ** Files are neither lost nor made *)






(** ** Runs in which no listed name has a rule *)

(** The line printed for a name that is skipped or has no rule. *)
Lemma process_loop_without_rule (listing : list str) :
  (∀ g, g ∈ listing → rule_of g = None) →
  ∀ st,
    process_loop st listing
    = (mk_state (fs st)
         (printed st
          ++ map (fun g => if isfile norm (fs st) [g]
                           then unmatched_report g else SkippingNonFile g)
                 listing), None).
Proof.
  induction listing as [|g listing IH]; intros Hg st;
    cbn [Classifier.process_loop map].
  - rewrite app_nil_r. by destruct st.
  - assert (H1 : process_one st g
                 = (print (if isfile norm (fs st) [g]
                           then unmatched_report g else SkippingNonFile g) st, None)).
    { destruct (isfile norm (fs st) [g]) eqn:Hf.
      - apply process_one_unmatched; [done|]. apply Hg. by left.
      - unfold Classifier.process_one. by rewrite Hf. }
    rewrite H1, IH by (intros g' Hin; apply Hg; by right).
    cbn [fs printed print]. by rewrite <- app_assoc.
Qed.

(** ** Exceptions *)

Lemma process_loop_app (pre post : list str) :
  ∀ st st1,
    process_loop st pre = (st1, None) →
    process_loop st (pre ++ post) = process_loop st1 post.
Proof.
  induction pre as [|g pre IH]; intros st st1; simpl.
  - by intros [= <-].
  - destruct (process_one st g) as [st0 [e|]]; [done|]. apply IH.
Qed.

Lemma makedirs_from_raises (rest : path) :
  ∀ t above t1 e, makedirs_from norm t above rest = (t1, Some e) → e = OSError.
Proof.
  induction rest as [|c rest IH]; intros t above t1 e; simpl; [done|].
  destruct (t !! key norm (above ++ [c])) as [[nm [content|]]|].
  - by intros [= _ <-].
  - apply IH.
  - apply IH.
Qed.

(** What an iteration that raises has done: nothing but directories,
    and no line. *)
Lemma process_one_raises (st st' : state) (filename : str) (e : exn) :
  process_one st filename = (st', Some e) →
  printed st' = printed st
  ∧ (∀ k en, fs st !! k = Some en → fs st' !! k = Some en)
  ∧ ∃ rl,
      rule_of filename = Some rl
      ∧ (get_target_date today (r_month_offset rl) (r_day_offset rl) = Raises e
         ∨ (e = OSError
            ∧ ∃ target_date,
                get_target_date today (r_month_offset rl) (r_day_offset rl)
                = Returns target_date
                ∧ makedirs norm (fs st) (target_folder_of rl target_date)
                  = (fs st', Some OSError))).
Proof.
  intros H.
  destruct (destination st filename) as [[t1 dest]|] eqn:Hd.
  { exfalso.
    destruct (exists_ norm t1 dest) eqn:Hex.
    - by rewrite (process_one_destination norm companies today _ _ _ _ Hd), Hex in H.
    - destruct (process_one_moves _ _ _ _ Hd Hex) as (nm & c & _ & _ & _ & Hm).
      by rewrite Hm in H. }
  split; [|split].
  - destruct (process_one_printed norm companies today _ _ _ _ H) as [more Hmore].
    clear Hmore.
    unfold Classifier.process_one, Classifier.destination, Classifier.rule_of in *.
    destruct (isfile norm _ [filename]); simpl negb in H; cbv iota in H; [|done].
    destruct (match_email filename) as [g|]; [|done].
    destruct (companies !! lower g) as [rl|]; [|done].
    destruct (get_target_date today (r_month_offset rl) (r_day_offset rl))
      as [td|e']; [|by injection H as <- _].
    destruct (makedirs norm (fs st) (target_folder_of rl td)) as [tm [e'|]];
      [by injection H as <- _ | done].
  - by apply (process_one_no_destination norm companies today _ _ _ _ Hd H).
  - unfold Classifier.process_one, Classifier.destination, Classifier.rule_of in *.
    destruct (isfile norm _ [filename]); simpl negb in H; cbv iota in H; [|done].
    destruct (match_email filename) as [g|]; [|done].
    destruct (companies !! lower g) as [rl|]; [|done].
    exists rl. split; [done|].
    destruct (get_target_date today (r_month_offset rl) (r_day_offset rl))
      as [td|e']; [|left; by injection H as _ <-].
    destruct (makedirs norm (fs st) (target_folder_of rl td)) as [tm [e'|]] eqn:Hmk;
      [|done].
    injection H as <- <-. pose proof (makedirs_from_raises _ _ _ _ _ Hmk) as ->.
    right. split; [done|]. by exists td.
Qed.

(** Only the iteration of a file raises. *)
Lemma process_one_raises_file (st st' : state) (filename : str) (e : exn) :
  process_one st filename = (st', Some e) →
  isfile norm (fs st) [filename] = true.
Proof.
  unfold Classifier.process_one.
  by destruct (isfile norm (fs st) [filename]).
Qed.

End run.

(** Every rule of a loaded table is numbered. *)
Lemma loaded_rules_numbered (rule_file : option (list item)) (k : str) (rl : rules) :
  load_companies_from_json rule_file !! k = Some rl → r_numbered_files rl = true.
Proof.
  destruct rule_file as [data|]; simpl; [|by rewrite lookup_empty].
  unfold load_items.
  assert (G : ∀ table : gmap str rules,
             (∀ k rl, table !! k = Some rl → r_numbered_files rl = true) →
             ∀ k rl,
               fold_left (fun result it => <[sender_key it := rules_of_item it]> result)
                 data table !! k = Some rl →
               r_numbered_files rl = true).
  { induction data as [|it data IH]; intros table Ht; simpl; [exact Ht|].
    apply IH. intros k' rl'.
    destruct (decide (k' = sender_key it)) as [->|Hne].
    - rewrite lookup_insert_eq. by intros [= <-].
    - rewrite lookup_insert_ne by done. apply Ht. }
  apply G. intros k' rl'. by rewrite lookup_empty.
Qed.

(** Every rule of a loaded table comes from an entry of the file. *)
Lemma loaded_rule_origin (data : list item) (k : str) (rl : rules) :
  load_companies_from_json (Some data) !! k = Some rl →
  ∃ it, it ∈ data ∧ rl = rules_of_item it.
Proof.
  simpl. unfold load_items.
  assert (G : ∀ table : gmap str rules,
             fold_left (fun result it => <[sender_key it := rules_of_item it]> result)
               data table !! k = Some rl →
             table !! k = Some rl ∨ ∃ it, it ∈ data ∧ rl = rules_of_item it).
  { induction data as [|it data IH]; intros table; simpl; [by left|].
    intros H. destruct (IH _ H) as [Ht|(it' & Hin & ->)].
    - destruct (decide (k = sender_key it)) as [->|Hne].
      + rewrite lookup_insert_eq in Ht. injection Ht as <-.
        right. exists it. split; [by left | done].
      + rewrite lookup_insert_ne in Ht by done. by left.
    - right. exists it'. split; [by right | done]. }
  intros H. destruct (G _ H) as [Ht|?]; [|done]. by rewrite lookup_empty in Ht.
Qed.

Lemma plain_table_loaded (data : list item) :
  Forall (fun it => plain_rule (rules_of_item it)) data →
  plain_table (load_companies_from_json (Some data)).
Proof.
  intros Hdata k rl Hk. apply loaded_rule_origin in Hk as (it & Hin & ->).
  rewrite Forall_forall in Hdata. by apply Hdata.
Qed.

(** The rules of a given rule file are plain. *)
Ltac plain_rules :=
  apply plain_table_loaded;
  repeat (apply Forall_cons; split;
          [split; [repeat constructor
                  |split; [vm_compute; discriminate
                          |split; [vm_compute; discriminate | repeat constructor]]]|]);
  constructor.

(** X15. Where the file system tells names apart exactly and every entry
    is stored under its own name, and the names of the rules are single
    path components, the name computed from a loaded rule is never taken:
    the iteration does not end at the report of a conflict. *)
Theorem exact_names_never_conflict
    (norm : str → str) (rule_file : option (list item)) (today : date)
    (st : state) (filename : str) (t1 : tree) (dest : path) :
  let companies := load_companies_from_json rule_file in
  plain_table companies →
  Inj (=) (=) norm →
  well_keyed norm (fs st) →
  destination norm companies today st filename = Some (t1, dest) →
  exists_ norm t1 dest = false
  ∧ ∀ st' r,
      process_one norm companies today st filename = (st', r) →
      printed st' ≠ printed st ++ [FileExistsNotOverwritten dest].
Proof.
  intros companies _ Hinj Hwk Hd.
  assert (Hex : exists_ norm t1 dest = false).
  { eapply destination_is_free; try done.
    intros rl Hrl. unfold rule_of in Hrl.
    destruct (match_email filename) as [g|]; [|done].
    by eapply loaded_rules_numbered. }
  split; [done|]. intros st' r.
  rewrite (process_one_destination norm companies today _ _ _ _ Hd), Hex.
  destruct (move norm t1 [filename] dest) as [t2 [e|]]; intros [= <- <-];
    cbn [printed print]; intros Hp.
  - apply (f_equal length) in Hp. rewrite length_app in Hp. simpl in Hp. lia.
  - apply app_inv_head in Hp. discriminate.
Qed.

(** The folder holds Alice-1.pdf and alice-2.pdf: on a file system that
    tells the two letters apart, Alice-2.pdf is free. *)
Lemma exact_names_never_conflict_witness :
  let st := mk_state (sample_tree id [py "Alice-1.pdf"; py "alice-2.pdf"]) [] in
  let dest := march_2024 ++ [py "Alice-2.pdf"] in
  exists_ id (fs st) dest = false
  ∧ ∀ st' r,
      process_one id (load_companies_from_json (Some [alice_rule])) mid_march
        st alice_invoice = (st', r) →
      printed st' ≠ printed st ++ [FileExistsNotOverwritten dest].
Proof.
  intros st dest.
  apply (exact_names_never_conflict id (Some [alice_rule]) mid_march st
           alice_invoice (fs st) dest ltac:(plain_rules) (fun x y H => H)
           (sample_tree_well_keyed id _)).
  by_evaluation.
Defined.

Lemma moved_file_keeps_its_content_witness :
  let st := mk_state (sample_tree id [py "Alice-1.pdf"]) [] in
  let dest := march_2024 ++ [py "Alice-2.pdf"] in
  let st' := fst (process_one id alice_companies mid_march st alice_invoice) in
  ∃ nm content folder name,
    dest = folder ++ [name]
    ∧ fs st !! key id [alice_invoice] = Some (mk_entry nm (File content))
    ∧ fs st' !! key id [alice_invoice] = None
    ∧ fs st !! key id dest = None
    ∧ fs st' !! key id dest = Some (mk_entry name (File content))
    ∧ (∀ k e, k ≠ key id [alice_invoice] →
              fs st !! k = Some e → fs st' !! k = Some e)
    ∧ (∀ k e, k ≠ key id dest → fs st' !! k = Some e →
              fs st !! k = Some e ∨ (fs st !! k = None ∧ e_node e = Dir)).
Proof.
  intros st dest st'.
  apply (moved_file_keeps_its_content id alice_companies mid_march st st'
           alice_invoice dest ltac:(plain_rules)); by_evaluation.
Defined.

Lemma numbers_follow_one_another_witness :
  let st := mk_state (sample_tree id [py "Alice-1.pdf"; py "Alice-7.txt"]) [] in
  let st' := fst (process_one id alice_companies mid_march st alice_invoice) in
  let rl := rules_of_item alice_rule in
  let n := next_number (r_name rl) (listdir id (fs st) march_2024) in
  n = 8%N
  ∧ march_2024 ++ [py "Alice-8.pdf"]
    = march_2024 ++ [r_name rl ++ [chr 45] ++ str_of_N n
                     ++ snd (splitext alice_invoice)]
  ∧ next_number (r_name rl) (listdir id (fs st') march_2024) = (n + 1)%N.
Proof.
  intros st st' rl n. split; [by_evaluation|].
  apply (numbers_follow_one_another id alice_companies mid_march st st'
           alice_invoice (march_2024 ++ [py "Alice-8.pdf"]) rl mid_march
           ltac:(plain_rules)); by_evaluation.
Defined.



(** X17. When no name of the landing directory has a rule, as when the
    rule file is absent or empty, [process_files] raises nothing, leaves
    the tree exactly as it is (no directory is made either) and prints
    one line per listed name, in the order of the listing. *)
Theorem run_without_rules_changes_nothing
    (norm : str → str) (rule_file : option (list item)) (today : date)
    (st : state) :
  (∀ g, g ∈ listdir norm (fs st) [] →
        rule_of (load_companies_from_json rule_file) g = None) →
  process_files norm rule_file today st
  = (mk_state (fs st)
       (printed st
        ++ map (fun g => if isfile norm (fs st) [g]
                         then unmatched_report g else SkippingNonFile g)
               (listdir norm (fs st) [])), None).
Proof.
  intros Hg. unfold process_files. by apply process_loop_without_rule.
Qed.

Lemma run_without_rules_changes_nothing_witness :
  let st := mk_state (sample_tree id []) [] in
  process_files id None mid_march st
  = (mk_state (fs st)
       [EmailNotRecognized (py "alice@x.com");
        EmailNotFound stray_notes;
        SkippingNonFile (py "2024")], None).
Proof.
  intros st.
  rewrite (run_without_rules_changes_nothing id None mid_march st).
  - by_evaluation.
  - intros g _. unfold rule_of. simpl.
    destruct (match_email g); [apply lookup_empty | reflexivity].
Defined.

(** X18. An exception in the iteration of one file ends the run: the
    names listed after it are not looked at. The file that met it has a
    rule, is still in place and gets no line, and no entry that was there
    is changed by that iteration. *)
Theorem exception_ends_the_batch
    (norm : str → str) (rule_file : option (list item)) (today : date)
    (st st1 st2 : state) (pre post : list str) (g : str) (e : exn) :
  let companies := load_companies_from_json rule_file in
  plain_table companies →
  listdir norm (fs st) [] = pre ++ g :: post →
  process_loop norm companies today st pre = (st1, None) →
  process_one norm companies today st1 g = (st2, Some e) →
  process_files norm rule_file today st = (st2, Some e)
  ∧ printed st2 = printed st1
  ∧ (∀ k en, fs st1 !! k = Some en → fs st2 !! k = Some en)
  ∧ isfile norm (fs st2) [g] = true
  ∧ is_Some (rule_of companies g).
Proof.
  intros companies _ Hl Hpre Hg. split.
  - unfold process_files. fold companies. rewrite Hl.
    rewrite (process_loop_app _ _ _ _ _ _ _ Hpre).
    cbn [process_loop]. by rewrite Hg.
  - pose proof (process_one_raises_file _ _ _ _ _ _ _ Hg) as Hfile.
    apply process_one_raises in Hg as (Hp & Hkeep & rl & Hrl & _).
    split; [done|]. split; [done|]. split; [|by exists rl].
    unfold isfile in *.
    destruct (fs st1 !! key norm [g]) as [en|] eqn:Hk; [|done].
    by rewrite (Hkeep _ _ Hk).
Qed.

(** A rule whose month offset leads before year 1 for the first name of
    the listing: the run ends there with [ValueError], and the file of
    the second sender, whose rule is in order, is not filed. *)
Lemma exception_ends_the_batch_witness :
  let far_rule := mk_item (Some (py "alice@x.com")) None (Some (py "Alice"))
                    (Some (-24300)) None in
  let bob_rule := mk_item (Some (py "bob@y.org")) None (Some (py "Bob")) None None in
  let bob_file := py "bob@y.org_old.pdf" in
  let st := mk_state (add_entry id [] bob_file (File (py "b")) (sample_tree id []))
              [] in
  let companies := load_companies_from_json (Some [far_rule; bob_rule]) in
  is_Some (rule_of companies bob_file)
  ∧ process_files id (Some [far_rule; bob_rule]) mid_march st = (st, Some ValueError)
  ∧ printed st = printed st
  ∧ (∀ k en, fs st !! k = Some en → fs st !! k = Some en)
  ∧ isfile id (fs st) [alice_invoice] = true
  ∧ is_Some (rule_of companies alice_invoice).
Proof.
  intros far_rule bob_rule bob_file st companies.
  split; [exists (rules_of_item bob_rule); by_evaluation|].
  apply (exception_ends_the_batch id (Some [far_rule; bob_rule]) mid_march
           st st st [] [stray_notes; py "2024"; bob_file] alice_invoice ValueError
           ltac:(plain_rules));
    by_evaluation.
Defined.

End ArchiveFacts.

(* ===================================================================== *)
(** * [get_target_date]: when it raises, and that the dialog's offsets are safe *)
(* ===================================================================== *)

Module TargetDateFacts.
Import Calendar CalendarFacts.

(** [get_target_date] without its loops and its handler. *)
Lemma get_target_date_closed_form (today : date) (month_offset day_offset : Z) :
  let y := year today + (month today + month_offset - 1) / 12 in
  let m := (month today + month_offset - 1) mod 12 + 1 in
  let d := day today + day_offset in
  get_target_date today month_offset day_offset
  = if negb (fits_int y && fits_int d) then Raises OverflowError
    else if (MINYEAR <=? y) && (y <=? MAXYEAR)
         then Returns (mk_date y m
                         (if (1 <=? d) && (d <=? days_in_month y m) then d else 1))
         else Raises ValueError.
Proof.
  intros y m d. unfold get_target_date. rewrite normalise_month.
  fold y m d.
  assert (Hm : 1 <= m <= 12).
  { unfold m. pose proof (Z.mod_pos_bound (month today + month_offset - 1) 12). lia. }
  assert (Hfm : fits_int m = true) by (apply fits_int_small; lia).
  pose proof (days_in_month_bounds y m) as Hdim.
  unfold date_new. rewrite Hfm, andb_true_r.
  destruct (fits_int y) eqn:Hfy; [|done].
  destruct (fits_int d) eqn:Hfd; [|done].
  change (fits_int 1) with true. simpl negb. cbv iota.
  unfold valid_ymd.
  replace (1 <=? m) with true by lia. replace (m <=? 12) with true by lia.
  replace (1 <=? days_in_month y m) with true by lia.
  change (1 <=? 1) with true. rewrite !andb_true_r.
  destruct ((MINYEAR <=? y) && (y <=? MAXYEAR)); simpl; [|done].
  by destruct ((1 <=? d) && (d <=? days_in_month y m)).
Qed.

(** X19. [get_target_date] raises in two cases only, whatever today's
    date is: [OverflowError] when the year reached or the day sum is no
    32-bit integer, and otherwise [ValueError] when the year reached by
    the month offset lies outside 1..9999. An out-of-range day alone
    never makes it raise. *)
Theorem get_target_date_raises_exactly
    (today : date) (month_offset day_offset : Z) (e : exn) :
  let y := (month_index today + month_offset) / 12 in
  let d := day today + day_offset in
  get_target_date today month_offset day_offset = Raises e
  ↔ (e = OverflowError ∧ fits_int y && fits_int d = false)
    ∨ (e = ValueError ∧ fits_int y && fits_int d = true
       ∧ ¬ (MINYEAR <= y <= MAXYEAR)).
Proof.
  intros y d. rewrite get_target_date_closed_form.
  assert (Hy : year today + (month today + month_offset - 1) / 12 = y).
  { unfold y, month_index.
    replace (12 * year today + (month today - 1) + month_offset)
      with ((month today + month_offset - 1) + year today * 12) by lia.
    rewrite Z.div_add by lia. lia. }
  rewrite Hy. fold d.
  destruct (fits_int y && fits_int d); simpl negb; cbv iota.
  - destruct ((MINYEAR <=? y) && (y <=? MAXYEAR)) eqn:Hr.
    + apply andb_true_iff in Hr. split; [done|].
      intros [[_ ?]|(_ & _ & Hn)]; [done|]. destruct Hn. lia.
    + apply andb_false_iff in Hr. split.
      * intros [= <-]. right. split; [done|]. split; [done|]. lia.
      * intros [[_ ?]|(-> & _)]; done.
  - split.
    + intros [= <-]. by left.
    + intros [[-> _]|(_ & ? & _)]; done.
Qed.

(** Offsets within the ranges of the dialog keep the year reached within
    one year of today's and the day sum small. *)
Lemma dialog_range_year (today : date) (month_offset day_offset : Z) :
  date_valid today →
  2 <= year today <= 9998 →
  -12 <= month_offset <= 12 →
  -31 <= day_offset <= 31 →
  let y := year today + (month today + month_offset - 1) / 12 in
  let d := day today + day_offset in
  year today - 1 <= y <= year today + 1
  ∧ fits_int y = true ∧ fits_int d = true
  ∧ (MINYEAR <=? y) && (y <=? MAXYEAR) = true.
Proof.
  intros Hv Hy Hmo Hdo y d.
  apply valid_ymd_range in Hv as (_ & Htm & Htd).
  pose proof (days_in_month_bounds (year today) (month today)) as Hdim.
  assert (Hq : -1 <= (month today + month_offset - 1) / 12 <= 1).
  { split.
    - apply Z.div_le_lower_bound; lia.
    - apply Z.lt_succ_r. apply Z.div_lt_upper_bound; lia. }
  split; [unfold y; lia|].
  split; [apply fits_int_small; unfold y; lia|].
  split; [apply fits_int_small; unfold d; lia|].
  apply andb_true_iff. unfold MINYEAR, MAXYEAR, y. lia.
Qed.

(** X20. With offsets the spin boxes of the rule dialog allow, a month
    offset from -12 to 12 and a day offset from -31 to 31, and today's
    year from 2 to 9998, [get_target_date] raises nothing, and what it
    returns is a date of the calendar at most one year away. *)
Theorem dialog_offsets_never_raise
    (today : date) (month_offset day_offset : Z) :
  date_valid today →
  2 <= year today <= 9998 →
  -12 <= month_offset <= 12 →
  -31 <= day_offset <= 31 →
  ∃ d, get_target_date today month_offset day_offset = Returns d
       ∧ date_valid d
       ∧ year today - 1 <= year d <= year today + 1.
Proof.
  intros Hv Hy Hmo Hdo.
  destruct (dialog_range_year today month_offset day_offset Hv Hy Hmo Hdo)
    as (Hyear & Hfy & Hfd & Hrange).
  rewrite get_target_date_closed_form.
  set (y := year today + (month today + month_offset - 1) / 12) in *.
  set (m := (month today + month_offset - 1) mod 12 + 1).
  set (d := day today + day_offset) in *.
  assert (Hm : 1 <= m <= 12).
  { unfold m. pose proof (Z.mod_pos_bound (month today + month_offset - 1) 12). lia. }
  pose proof (days_in_month_bounds y m) as Hdim.
  rewrite Hfy, Hfd, Hrange. simpl negb. cbv iota.
  eexists. split; [reflexivity|]. simpl. split; [|done].
  apply andb_true_iff in Hrange as [Hlo Hhi].
  unfold date_valid, valid_ymd. simpl. rewrite Hlo, Hhi. simpl.
  destruct ((1 <=? d) && (d <=? days_in_month y m)) eqn:Hd.
  - apply andb_true_iff in Hd. rewrite !andb_true_iff. lia.
  - rewrite !andb_true_iff. lia.
Qed.

Lemma dialog_offsets_never_raise_witness :
  ∃ d, get_target_date (mk_date 2024 1 31) (-12) 31 = Returns d
       ∧ date_valid d
       ∧ 2024 - 1 <= year d <= 2024 + 1.
Proof.
  apply (dialog_offsets_never_raise (mk_date 2024 1 31) (-12) 31);
    [reflexivity | simpl; lia | lia | lia].
Defined.

(** A month offset that leads before year 1. *)
Lemma get_target_date_raises_exactly_witness :
  get_target_date (mk_date 2024 3 31) (-24300) 0 = Raises ValueError.
Proof.
  apply (proj2 (get_target_date_raises_exactly (mk_date 2024 3 31) (-24300) 0
                  ValueError)).
  right. split; [reflexivity|]. split; [reflexivity|].
  vm_compute. intros [H _]. by apply H.
Defined.

End TargetDateFacts.

(* ===================================================================== *)
(** * From the mailbox to the rule: names the poller writes, read by the classifier *)
(* ===================================================================== *)

Module LandingFacts.
Import PyStr Sanitize Rules Patterns Classifier Poller Naming Archive.
Import PatternsFacts NamingFacts RulesFacts.

#[local] Arguments chr : simpl never.

(** The characters of an address are left alone by [sanitize_filename]. *)
Lemma address_char_plain (c : ascii) :
  local_char c || suffix_char c = true →
  invalid_chars c = false ∧ is_space c = false.
Proof. destruct c as [[] [] [] [] [] [] [] []]; vm_compute; try done. Qed.

Lemma domain_char_suffix (c : ascii) : domain_char c = true → suffix_char c = true.
Proof. unfold suffix_char, domain_char. intros ->. done. Qed.

Lemma address_sanitized (g : str) : address g → sanitize_filename g = g.
Proof.
  intros (loc & dom & suf & -> & Hl & _ & Hs & Floc & Fdom & Fsuf).
  assert (Ploc : Forall (fun c => invalid_chars c = false ∧ is_space c = false) loc).
  { eapply Forall_impl; [exact Floc|]. intros c Hc. apply address_char_plain.
    by rewrite Hc. }
  assert (Pdom : Forall (fun c => invalid_chars c = false ∧ is_space c = false) dom).
  { eapply Forall_impl; [exact Fdom|]. intros c Hc. apply address_char_plain.
    rewrite (domain_char_suffix _ Hc). apply orb_true_r. }
  assert (Psuf : Forall (fun c => invalid_chars c = false ∧ is_space c = false) suf).
  { eapply Forall_impl; [exact Fsuf|]. intros c Hc. apply address_char_plain.
    rewrite Hc. apply orb_true_r. }
  unfold sanitize_filename. rewrite re_sub_invalid_fix.
  - apply strip_fix. split.
    + destruct loc as [|l0 loc]; [done|]. simpl. intros c [= <-].
      apply Forall_cons in Ploc as [[_ ?] _]. done.
    + intros c. rewrite !app_assoc.
      destruct (exists_last Hs) as (suf' & z & ->).
      rewrite !app_assoc, last_snoc. intros [= <-].
      apply Forall_app in Psuf as [_ Pz]. apply Forall_cons in Pz as [[_ ?] _]. done.
  - unfold clean. rewrite !Forall_app. repeat split.
    + eapply Forall_impl; [exact Ploc|]. by intros c [? _].
    + by repeat constructor.
    + eapply Forall_impl; [exact Pdom|]. by intros c [? _].
    + by repeat constructor.
    + eapply Forall_impl; [exact Psuf|]. by intros c [? _].
Qed.

(** X21. The file the poller writes for an attachment is one the
    classifier files: when the sender is [local@domain.suffix], the name
    built by [check_emails] is free and the write succeeds, the
    attachment is stored under that name, the pattern of the classifier
    reads the sender back from it, and the rule the loaded table holds
    for that name is the last rule entered for the sender, whatever the
    letter case of either. *)
Theorem downloaded_file_finds_its_rule
    (ev : env) (uid subject from_ : str) (d : downloader) (n : nat)
    (att : attachment) (before after : list item) (it : item) :
  let name := first_choice ev uid subject from_ att in
  address from_ →
  sender_key it = lower from_ →
  (∀ it', it' ∈ after → sender_key it' ≠ lower from_) →
  ¬ all_space (default [] (att_filename att)) →
  download_folder d !! name = None →
  write_ok ev name = true →
  download_folder (fst (save_attachment ev uid subject from_ (d, n) att)) !! name
  = Some (att_payload att)
  ∧ match_email name = Some from_
  ∧ rule_of (load_companies_from_json (Some (before ++ it :: after))) name
    = Some (rules_of_item it).
Proof.
  cbv zeta. intros Haddr Hkey Hlast Hname Hfree Hw.
  assert (Hm : match_email (first_choice ev uid subject from_ att) = Some from_).
  { apply match_email_spec. unfold first_choice.
    rewrite (address_sanitized _ Haddr).
    destruct Haddr as (loc & dom & suf & Hg & Hl & Hd & Hs & Floc & Fdom & Fsuf).
    by eexists loc, dom, suf, _. }
  split; [|split; [done|]].
  - unfold save_attachment.
    destruct (sanitize_filename (default [] (att_filename att))) as [|c s] eqn:Hs.
    { destruct Hname. by apply sanitize_filename_empty. }
    unfold first_choice in Hfree, Hw. rewrite Hs in Hfree, Hw.
    unfold first_choice. rewrite Hs.
    set (first := sanitize_filename from_ ++ underscore ++ sanitize_filename subject
                  ++ underscore ++ date_str ev ++ underscore ++ uid ++ underscore
                  ++ c :: s) in *.
    rewrite bool_decide_eq_false_2 by (rewrite Hfree; by intros [? ?]).
    rewrite Hw. cbn [fst download_folder logging write_file].
    by rewrite lookup_insert_eq.
  - unfold rule_of. rewrite Hm. simpl. unfold load_items.
    rewrite fold_left_app. simpl.
    rewrite load_from_other by assumption.
    rewrite Hkey. apply lookup_insert_eq.
Qed.

Lemma downloaded_file_finds_its_rule_witness :
  let att := mk_attachment (Some (py "receipt.pdf")) (py "%PDF") in
  let name := py "Alice@x.com_Invoice_20240315_55_receipt.pdf" in
  download_folder (fst (save_attachment calm (py "55") (py "Invoice")
                          (py "Alice@x.com") (default_downloader, O) att)) !! name
  = Some (py "%PDF")
  ∧ match_email name = Some (py "Alice@x.com")
  ∧ rule_of (load_companies_from_json (Some ([] ++ alice_rule :: []))) name
    = Some (rules_of_item alice_rule).
Proof.
  intros att name.
  apply (downloaded_file_finds_its_rule calm (py "55") (py "Invoice")
           (py "Alice@x.com") default_downloader O att [] [] alice_rule).
  - exists (py "Alice"), (py "x"), (py "com").
    split; [reflexivity|]. repeat split; try discriminate;
      repeat constructor.
  - reflexivity.
  - intros it' Hin. inversion Hin.
  - intros Hsp. inversion Hsp as [|c s Hc _]. discriminate Hc.
  - by_evaluation.
  - reflexivity.
Defined.

End LandingFacts.

(* ===================================================================== *)
(** * Rules entered through the dialog *)
(* ===================================================================== *)

Module DialogFacts.
Import PyStr Calendar Rules Patterns FS Classifier Dialog.
Import RulesFacts ClassifierFacts ArchiveFacts TargetDateFacts.

Lemma spin_box_range (lo hi v : Z) : lo <= hi → lo <= spin_box lo hi v <= hi.
Proof. unfold spin_box. lia. Qed.

(** X22. A sender added through the dialog takes effect at the next run:
    the loaded table maps the lowercased, trimmed address to the rule
    just entered, in place of any earlier rule of that address, and all
    other senders keep their rules. The offsets of the rule lie within
    the ranges of the spin boxes, and an empty file name becomes NoName. *)
Theorem added_sender_takes_effect (data : list item) (f : fields) :
  let rl := rules_of_item (get_data f) in
  let table := load_companies_from_json (Some (add_sender_config data f)) in
  table !! lower (strip (email_edit f)) = Some rl
  ∧ (∀ k, k ≠ lower (strip (email_edit f)) →
          table !! k = load_companies_from_json (Some data) !! k)
  ∧ -12 <= r_month_offset rl <= 12
  ∧ -31 <= r_day_offset rl <= 31
  ∧ r_name rl = (if bool_decide (strip (file_edit f) = [])
                 then py "NoName" else strip (file_edit f))
  ∧ r_folder_name rl = strip (folder_edit f)
  ∧ r_use_subfolder rl = negb (bool_decide (strip (folder_edit f) = [])).
Proof.
  intros rl table. unfold table, add_sender_config. simpl. unfold load_items.
  rewrite fold_left_app. simpl.
  split; [apply lookup_insert_eq|].
  split; [intros k Hk; by apply lookup_insert_ne|].
  split; [by apply spin_box_range|]. split; [by apply spin_box_range|].
  split; [|split].
  - by destruct (strip (file_edit f)).
  - by destruct (strip (folder_edit f)).
  - by destruct (strip (folder_edit f)).
Qed.



(** A second sender is added to the table of the sample rule, with
    blanks around the address, no file name and a month offset beyond the
    range of its spin box. *)
Lemma added_sender_takes_effect_witness :
  let f := mk_fields (py " Bob@Y.org ") [] (py " ") 40 (-3) in
  let table := load_companies_from_json (Some (add_sender_config [alice_rule] f)) in
  table !! py "bob@y.org" = Some (mk_rules (py "NoName") [] 12 (-3) false true)
  ∧ table !! py "alice@x.com" = Some (rules_of_item alice_rule).
Proof.
  intros f table.
  pose proof (added_sender_takes_effect [alice_rule] f) as H.
  cbv zeta in H. destruct H as (H1 & H2 & _). split.
  - refine (eq_trans H1 _). by_evaluation.
  - refine (eq_trans (H2 (py "alice@x.com") _) _);
      [vm_compute; discriminate | by_evaluation].
Defined.


End DialogFacts.

(* ===================================================================== *)
(** * [process_invoices_action]: what the box shows *)
(* ===================================================================== *)

Module ActionFacts.
Import PyStr Calendar Rules Patterns FS Classifier Action.
Import FSFacts ClassifierFacts ArchiveFacts.

Section run.
Variable norm : str → str.
Variable companies : gmap str rules.
Variable today : date.

Local Abbreviation process_one := (process_one norm companies today).
Local Abbreviation process_loop := (process_loop norm companies today).

(** An iteration that does not raise prints exactly one line. *)
Lemma process_one_one_line (st st' : state) (filename : str) :
  process_one st filename = (st', None) →
  length (printed st') = S (length (printed st)).
Proof.
  intros H.
  assert (Hp : ∀ r s, length (printed (print r s)) = S (length (printed s))).
  { intros r s. simpl. rewrite length_app. simpl. lia. }
  destruct (destination norm companies today st filename) as [[t1 dest]|] eqn:Hd.
  - destruct (exists_ norm t1 dest) eqn:Hex.
    + rewrite (process_one_destination norm companies today _ _ _ _ Hd), Hex in H.
      injection H as <-. by rewrite Hp.
    + destruct (process_one_moves norm companies today _ _ _ _ Hd Hex)
        as (nm & c & _ & _ & _ & Hm).
      rewrite Hm in H. injection H as <-. by rewrite Hp.
  - unfold Classifier.process_one, Classifier.destination, Classifier.rule_of in *.
    destruct (isfile norm _ [filename]); simpl negb in H; cbv iota in H;
      [|injection H as <-; apply Hp].
    destruct (match_email filename) as [g|]; [|injection H as <-; apply Hp].
    destruct (companies !! lower g) as [rl|]; [|injection H as <-; apply Hp].
    destruct (get_target_date today (r_month_offset rl) (r_day_offset rl))
      as [td|e]; [|done].
    by destruct (makedirs norm (fs st) (target_folder_of rl td)) as [tm [e|]].
Qed.

(** The lines of a loop count the names it handled; the names after an
    exception are the ones it did not reach. *)
Lemma process_loop_lines (listing : list str) :
  ∀ st st' r,
    process_loop st listing = (st', r) →
    ∃ handled rest,
      listing = handled ++ rest
      ∧ length (printed st') = (length (printed st) + length handled)%nat
      ∧ (r = None ↔ rest = []).
Proof.
  induction listing as [|g listing IH]; intros st st' r;
    cbn [Classifier.process_loop].
  - intros [= <- <-]. exists [], []. split; [done|]. split; [simpl; lia | done].
  - destruct (process_one st g) as [st1 [e|]] eqn:H1.
    + intros [= <- <-]. exists [], (g :: listing). split; [done|].
      apply process_one_raises in H1 as (-> & _). split; [simpl; lia | done].
    + intros H. destruct (IH _ _ _ H) as (handled & rest & -> & Hlen & Hr).
      exists (g :: handled), rest. split; [done|].
      apply process_one_one_line in H1. split; [simpl; lia | done].
Qed.

End run.

(** X24. [process_invoices_action] lets no exception of [process_files]
    through and leaves the tree as [process_files] does. It reports that
    there were no messages exactly when the rule file could be read and
    the landing directory is empty. Otherwise the box holds one line for
    each name handled, in the order of the listing, after the line about
    a rule file that could not be loaded and before the line of the
    exception that kept the remaining names from being handled. *)
Theorem process_invoices_action_output
    (norm : str → str) (rule_file : option (list item)) (today : date)
    (t : tree) :
  let res := process_files norm rule_file today (mk_state t []) in
  let act := process_invoices_action norm rule_file today t in
  fst act = fs (fst res)
  ∧ (snd act = ProcessingCompletedNoMessages
     ↔ is_Some rule_file ∧ listdir norm t [] = [])
  ∧ (∀ output_text,
        snd act = Information output_text →
        output_text = output_of rule_file res)
  ∧ ∃ handled rest,
      listdir norm t [] = handled ++ rest
      ∧ length (printed (fst res)) = length handled
      ∧ (snd res = None ↔ rest = []).
Proof.
  intros res act.
  destruct (process_loop_lines norm (load_companies_from_json rule_file) today
              (listdir norm t []) (mk_state t []) (fst res) (snd res))
    as (handled & rest & Hl & Hlen & Hr).
  { subst res. unfold process_files. apply surjective_pairing. }
  simpl in Hlen.
  split; [done|]. split; [|split].
  - subst act. unfold process_invoices_action. fold res. cbn [snd].
    unfold output_of. split.
    + destruct rule_file as [data|]; [|done]. simpl.
      destruct (printed (fst res)) as [|r ps] eqn:Hp; [|done]. simpl.
      destruct (snd res) as [e|] eqn:Hs; [done|]. intros _.
      split; [done|]. rewrite Hl.
      destruct handled; [|done]. by rewrite (proj1 Hr eq_refl).
    + intros [[data ->] Hnil]. simpl.
      assert (Hres : res = (mk_state t [], None)).
      { subst res. unfold process_files. cbn [fs]. by rewrite Hnil. }
      by rewrite Hres.
  - subst act. unfold process_invoices_action. fold res. cbn [snd].
    intros output_text. destruct (output_of rule_file res); [done|].
    by intros [= <-].
  - by exists handled, rest.
Qed.

(** The sample tree without a rule file: nothing is moved, and the box
    starts with the line about the rule file. *)
Lemma process_invoices_action_output_witness :
  let t := sample_tree id [] in
  let res := process_files id None mid_march (mk_state t []) in
  let act := process_invoices_action id None mid_march t in
  snd act = Information [RuleFileNotLoaded;
                         Printed (EmailNotRecognized (py "alice@x.com"));
                         Printed (EmailNotFound stray_notes);
                         Printed (SkippingNonFile (py "2024"))]
  ∧ [RuleFileNotLoaded;
     Printed (EmailNotRecognized (py "alice@x.com"));
     Printed (EmailNotFound stray_notes);
     Printed (SkippingNonFile (py "2024"))] = output_of None res.
Proof.
  intros t res act.
  assert (H : snd act = Information [RuleFileNotLoaded;
                         Printed (EmailNotRecognized (py "alice@x.com"));
                         Printed (EmailNotFound stray_notes);
                         Printed (SkippingNonFile (py "2024"))]) by by_evaluation.
  split; [exact H|].
  pose proof (process_invoices_action_output id None mid_march t) as G.
  cbv zeta in G. destruct G as (_ & _ & G & _).
  apply G. exact H.
Defined.

End ActionFacts.
